(** * go/loader: import resolution and package construction

    A shallow embedding of [go/loader/loader.go]: the configuration
    methods [Import], [ImportWithTests] and [CreateFromFiles], the importer
    ([importPackage], [importFromSource], [importFromBinary], [doImport],
    [createPackage]) and [Load].

    The loader mutates shared objects (the [Config] through its pointer,
    the importer's cache, the [PackageInfo] objects that both the cache and
    [Program.AllPackages] point to), so the embedding threads an explicit
    state through a state-and-panic monad.  Pointers to [PackageInfo] are
    addresses into a store; a nil pointer is [None].

    The collaborators that live outside this file (the parser and go/build
    behind [parsePackageFiles], [packageName], the type checker
    [types.Config.Check] and the default binary importer) are taken as
    parameters, gathered in the record [Collaborators].

    The command-line methods [FromArgs], [CreateFromFilenames] and
    [ParseFile] and the queries [InitialPackages] and
    [PathEnclosingInterval] follow the loader; their own collaborators
    ([parseFiles], go/parser, astutil) are parameters of their sections. *)

From stdpp Require Import gmap strings list fin_maps.

Local Open Scope string_scope.
Local Open Scope nat_scope.
Local Open Scope list_scope.

(** ** The Go types the loader manipulates *)

(** A Go [error] value, identified with its message. *)
Definition error := string.

Module go_token.
(** [*token.FileSet]: either the one [token.NewFileSet()] makes inside the
    loader, or one the client put in the configuration. *)
Inductive FileSet := NewFileSet | ClientFileSet (id : nat).
End go_token.

Module go_build.
(** [*build.Context]; [Default] stands for [&build.Default]. *)
Inductive Context := Default | ClientContext (id : nat).
End go_build.

Module go_ast.
(** [*ast.File]: a parsed file, with its package clause and import specs. *)
Record File := mkFile { FileName : string; Name : string; Imports : list string }.
End go_ast.

Module go_types.
(** [types.Package]; [pkg_id] stands for the identity of the object a
    [*types.Package] points to. *)
Record Package := mkPackage { pkg_id : nat; Path : string }.

#[global] Instance Package_eq_dec : EqDecision Package.
Proof. solve_decision. Defined.

#[global] Instance Package_countable : Countable Package :=
  inj_countable' (λ p, (pkg_id p, Path p)) (λ t, mkPackage t.1 t.2)
                 (λ p, match p with mkPackage _ _ => eq_refl end).

(** [types.Unsafe] *)
Definition Unsafe : Package := mkPackage 0 "unsafe".

(** The map type [map[string]*types.Package]. *)
Abbreviation PackageMap := (gmap string (option Package)).

(** [types.Importer], [func(imports map[string]*Package, path string)
    (pkg *Package, err error)].  The importer may add to the map it is
    given, so the embedding returns the map as the call leaves it. *)
Definition Importer : Type :=
  PackageMap → string → PackageMap * (option Package * option error).

(** [types.Config], the fields the loader reads or writes.  [Error] names
    the client's diagnostic callback; [Packages] is nil ([None]) or the
    shared canonical map. *)
Record Config := mkConfig {
  IgnoreFuncBodies : bool;
  Error : option string;
  Import : option Importer;
  Packages : option PackageMap
}.

(** One run of [Config.Check] over a package, as the loader sees it: the
    checker reports diagnostics through [Config.Error], resolves import
    specs through [Config.Import], and finally returns the package with
    an error value.  [Check] always returns a package object, also when
    it returns an error. *)
Inductive checker : Type :=
| CheckDone (pkg : Package) (err : option error)
| CheckError (e : error) (k : checker)
| CheckImport (path : string) (k : option Package * option error → checker).
End go_types.

Abbreviation PackageMap := go_types.PackageMap.

(** [Config], the configuration of a program to load. *)
Record Config := mkConfig {
  Fset : option go_token.FileSet;
  TypeChecker : go_types.Config;
  TypeCheckFuncBodies : option (string → bool);
  SourceImports : bool;
  Build : option go_build.Context;
  CreatePkgs : list (list go_ast.File);
  ImportPkgs : option (gmap string bool)
}.

(** The zero value of [Config]. *)
Definition zeroConfig : Config :=
  mkConfig None (go_types.mkConfig false None None None) None false None [] None.

(** Address of a [PackageInfo] object in the store. *)
Abbreviation ptr := nat (only parsing).

(** [PackageInfo]: the package handle, the importable flag, the parsed files
    and the first type error.  (The [types.Info] maps are filled by the type
    checker and never read by the loader.) *)
Record PackageInfo := mkPackageInfo {
  Pkg : option go_types.Package;
  Importable : bool;
  Files : list go_ast.File;
  err : option error
}.

(** [Program] while it is being assembled.  [Program.ImportMap] is the same
    map object as [Config.TypeChecker.Packages]; see [ImportMap] below. *)
Record Program := mkProgram {
  pFset : option go_token.FileSet;
  Created : list ptr;
  Imported : gmap string (option ptr);
  AllPackages : gmap (option go_types.Package) ptr
}.

(** [importInfo] tracks the success or failure of a single import. *)
Record importInfo := mkImportInfo {
  info : option ptr;
  ierr : option error
}.

(** What a run does to the outside world, and what the importer was asked:
    - [EvParse path which]: [parsePackageFiles] was called;
    - [EvBinary path]: the binary importer was called;
    - [EvDiag p sink e]: the type checker, checking the package whose
      [PackageInfo] is at [p], reported [e], and [e] went to [sink];
    - [EvCall path ii]: a call [importPackage(path)] returned [ii]. *)
Inductive sink :=
| Stderr                        (* [fmt.Fprintln(os.Stderr, e)] *)
| ClientError (name : string).  (* the client's [TypeChecker.Error] *)

Inductive event :=
| EvParse (path which : string)
| EvBinary (path : string)
| EvDiag (p : ptr) (snk : sink) (e : error)
| EvCall (path : string) (ii : importInfo).

(** The working state: the configuration behind [conf], the program behind
    [prog], the importer's cache, the store of [PackageInfo] objects and the
    trace of events. *)
Record state := mkState {
  conf : Config;
  prog : Program;
  imported : gmap string importInfo;
  heap : list PackageInfo;
  trace : list event
}.

(** The collaborators of the loader. *)
Record Collaborators := mkCollaborators {
  (** [parsePackageFiles(ctxt, fset, path, which)]: locate and parse the
      files of a package; [which] selects "g", "gt" or "x" files. *)
  parsePackageFiles :
    go_build.Context → go_token.FileSet → string → string → list go_ast.File + error;
  (** [packageName(files, fset)] *)
  packageName : list go_ast.File → option go_token.FileSet → string + error;
  (** [tc.Check(path, fset, files, &info)] for a checker configured with the
      given [IgnoreFuncBodies]. *)
  types_Check : bool → string → go_token.FileSet → list go_ast.File → go_types.checker;
  (** [gcimporter.Import] *)
  gcimporter_Import : go_types.Importer
}.

(** ** A monad for state, panics and fuel *)

Inductive outcome (St A : Type) : Type :=
| Ok (a : A) (s : St)
| Panic (msg : string)
| OutOfFuel.
Arguments Ok {St A} a s.
Arguments Panic {St A} msg.
Arguments OutOfFuel {St A}.

Definition M (St A : Type) : Type := St → outcome St A.

Definition ret {St A} (a : A) : M St A := λ s, Ok a s.

Definition bind {St A B} (m : M St A) (k : A → M St B) : M St B :=
  λ s, match m s with
       | Ok a s' => k a s'
       | Panic msg => Panic msg
       | OutOfFuel => OutOfFuel
       end.

Definition get {St} : M St St := λ s, Ok s s.
Definition gets {St A} (f : St → A) : M St A := λ s, Ok (f s) s.
Definition modify {St} (f : St → St) : M St unit := λ s, Ok tt (f s).
Definition panic {St A} (msg : string) : M St A := λ _, Panic msg.

Notation "'let*' x ':=' m 'in' k" := (bind m (λ x, k))
  (at level 10, x pattern, m at level 100, k at level 200).
Notation "'do' m 'then' k" := (bind m (λ _, k))
  (at level 10, m at level 100, k at level 200).

(** ** Field updates *)

Definition set_Fset (v : option go_token.FileSet) (c : Config) : Config :=
  mkConfig v (TypeChecker c) (TypeCheckFuncBodies c) (SourceImports c) (Build c)
           (CreatePkgs c) (ImportPkgs c).
Definition set_CreatePkgs (v : list (list go_ast.File)) (c : Config) : Config :=
  mkConfig (Fset c) (TypeChecker c) (TypeCheckFuncBodies c) (SourceImports c) (Build c)
           v (ImportPkgs c).
Definition set_ImportPkgs (v : option (gmap string bool)) (c : Config) : Config :=
  mkConfig (Fset c) (TypeChecker c) (TypeCheckFuncBodies c) (SourceImports c) (Build c)
           (CreatePkgs c) v.
Definition set_Packages (v : option PackageMap) (c : Config) : Config :=
  mkConfig (Fset c)
           (go_types.mkConfig (go_types.IgnoreFuncBodies (TypeChecker c))
                              (go_types.Error (TypeChecker c))
                              (go_types.Import (TypeChecker c)) v)
           (TypeCheckFuncBodies c) (SourceImports c) (Build c)
           (CreatePkgs c) (ImportPkgs c).

Definition set_conf (v : Config) (s : state) : state :=
  mkState v (prog s) (imported s) (heap s) (trace s).
Definition set_prog (v : Program) (s : state) : state :=
  mkState (conf s) v (imported s) (heap s) (trace s).
Definition set_imported (v : gmap string importInfo) (s : state) : state :=
  mkState (conf s) (prog s) v (heap s) (trace s).
Definition set_heap (v : list PackageInfo) (s : state) : state :=
  mkState (conf s) (prog s) (imported s) v (trace s).
Definition set_trace (v : list event) (s : state) : state :=
  mkState (conf s) (prog s) (imported s) (heap s) v.

Definition set_Created (v : list ptr) (p : Program) : Program :=
  mkProgram (pFset p) v (Imported p) (AllPackages p).
Definition set_Imported (v : gmap string (option ptr)) (p : Program) : Program :=
  mkProgram (pFset p) (Created p) v (AllPackages p).
Definition set_AllPackages (v : gmap (option go_types.Package) ptr) (p : Program) : Program :=
  mkProgram (pFset p) (Created p) (Imported p) v.

(** A [Config] method run on the configuration the importer points to. *)
Definition liftConf {A} (m : M Config A) : M state A :=
  λ s, match m (conf s) with
       | Ok a c => Ok a (set_conf c s)
       | Panic msg => Panic msg
       | OutOfFuel => OutOfFuel
       end.

(** The canonical map [Config.TypeChecker.Packages]. *)
Definition Packages (c : Config) : option PackageMap := go_types.Packages (TypeChecker c).

(** [Program.ImportMap]: the object [conf.TypeChecker.Packages] points to. *)
Definition ImportMap (s : state) : PackageMap := default ∅ (Packages (conf s)).

(** [conf.ImportPkgs] read as a map: a nil map reads as the empty one. *)
Definition importPkgs (c : Config) : gmap string bool := default ∅ (ImportPkgs c).

(** ** Methods of [Config] *)

Section Loader.
Variable W : Collaborators.

(** [func (conf *Config) fset() *token.FileSet] *)
Definition fset : M Config go_token.FileSet :=
  λ c, match Fset c with
       | Some f => Ok f c
       | None => Ok go_token.NewFileSet (set_Fset (Some go_token.NewFileSet) c)
       end.

(** [func (conf *Config) build() *build.Context] *)
Definition build (c : Config) : go_build.Context :=
  match Build c with
  | Some b => b
  | None => go_build.Default
  end.

(** [func (conf *Config) CreateFromFiles(files ...*ast.File)] *)
Definition CreateFromFiles (files : list go_ast.File) : M Config unit :=
  λ c, match Fset c with
       | None => Panic "nil Fset"
       | Some _ => Ok tt (set_CreatePkgs (CreatePkgs c ++ [files]) c)
       end.

(** [func (conf *Config) Import(path string)] *)
Definition Import (path : string) : M Config unit :=
  if decide (path = "unsafe") then ret tt
  else modify (λ c, set_ImportPkgs (Some (<[path := false]> (importPkgs c))) c).

(** The loop [for _, augmented := range conf.ImportPkgs { if augmented
    { return nil } }], over the entries in the order the range visits them. *)
Fixpoint anyAugmented (entries : list (string * bool)) : bool :=
  match entries with
  | [] => false
  | (_, augmented) :: rest => if augmented then true else anyAugmented rest
  end.

(** [func (conf *Config) ImportWithTests(path string) error] *)
Definition ImportWithTests (path : string) : M Config (option error) :=
  if decide (path = "unsafe") then ret None
  else
    do Import path then
    let* c := get in
    if anyAugmented (map_to_list (importPkgs c)) then ret None
    else
      let* fs := fset in
      match parsePackageFiles W (build c) fs path "x" with
      | inr e => ret (Some e)
      | inl xtestFiles =>
          do (if bool_decide (0 < length xtestFiles)
              then CreateFromFiles xtestFiles else ret tt) then
          do modify (λ c, set_ImportPkgs (Some (<[path := true]> (importPkgs c))) c) then
          ret None
      end.

(** ** The importer *)

(** [&PackageInfo{...}]: a new object in the store. *)
Definition alloc (i : PackageInfo) : M state ptr :=
  λ s, Ok (length (heap s)) (set_heap (heap s ++ [i]) s).

(** Reading through a [*PackageInfo]. *)
Definition deref (p : option ptr) : M state PackageInfo :=
  λ s, match p with
       | None => Panic "nil pointer dereference"
       | Some a => match heap s !! a with
                   | Some i => Ok i s
                   | None => Panic "invalid pointer"
                   end
       end.

Definition emit (e : event) : M state unit :=
  modify (λ s, set_trace (trace s ++ [e]) s).

(** [imp.prog.AllPackages[pkg] = info] *)
Definition registerPackage (pkg : option go_types.Package) (p : ptr) : M state unit :=
  modify (λ s, set_prog (set_AllPackages (<[pkg := p]> (AllPackages (prog s))) (prog s)) s).

(** The [imports] argument the type checker hands to its import callback:
    a nil map, or the canonical map [Config.Packages] of the checker's
    configuration, which for the loader is [conf.TypeChecker.Packages]. *)
Inductive mapref := NilMap | PackagesMap.

(** [imports[path] = pkg]; storing into a nil map panics. *)
Definition mapStore (imports : mapref) (path : string) (pkg : option go_types.Package)
  : M state unit :=
  λ s, match imports with
       | NilMap => Panic "assignment to entry in nil map"
       | PackagesMap =>
           match Packages (conf s) with
           | None => Panic "assignment to entry in nil map"
           | Some m => Ok tt (set_conf (set_Packages (Some (<[path := pkg]> m)) (conf s)) s)
           end
       end.

(** [importfn(imp.conf.TypeChecker.Packages, path)].  An importer handed a
    nil map can read it as an empty map but panics when it stores into it. *)
Definition callImporter (importfn : go_types.Importer) (path : string)
  : M state (option go_types.Package * option error) :=
  λ s, match Packages (conf s) with
       | Some m => let '(m', r) := importfn m path in
                   Ok r (set_conf (set_Packages (Some m') (conf s)) s)
       | None => let '(m', r) := importfn ∅ path in
                 if decide (m' = ∅) then Ok r s
                 else Panic "assignment to entry in nil map"
       end.

(** [tc.Check]: the type checker's run, with its [Import] and [Error]
    callbacks supplied by the caller.  The checker invokes [Import] with its
    configuration's [Packages] map. *)
Fixpoint runCheck
    (Import : mapref → string → M state (option go_types.Package * option error))
    (Error : error → M state unit)
    (c : go_types.checker) : M state (go_types.Package * option error) :=
  match c with
  | go_types.CheckDone pkg e => ret (pkg, e)
  | go_types.CheckError e k => do Error e then runCheck Import Error k
  | go_types.CheckImport path k =>
      let* r := Import PackagesMap path in
      runCheck Import Error (k r)
  end.

(** Where [tc.Error] sends a diagnostic: [if tc.Error == nil { tc.Error =
    func(e error) { fmt.Fprintln(os.Stderr, e) } }]. *)
Definition errorSink (tc : go_types.Config) : sink :=
  match go_types.Error tc with
  | Some f => ClientError f
  | None => Stderr
  end.

(** [func (imp *importer) createPackage(path string, files ...*ast.File)
    *PackageInfo], with [imp.doImport] abstracted. *)
Definition createPackage_
    (doImport : mapref → string → M state (option go_types.Package * option error))
    (path : string) (files : list go_ast.File) : M state ptr :=
  let* p := alloc (mkPackageInfo None false files None) in
  let* c := gets conf in
  let tc := TypeChecker c in
  let IgnoreFuncBodies :=
    match TypeCheckFuncBodies c with
    | Some f => negb (f path)
    | None => false
    end in
  let Error := λ e, emit (EvDiag p (errorSink tc) e) in
  let* fs := liftConf fset in
  let* r := runCheck doImport Error (types_Check W IgnoreFuncBodies path fs files) in
  do modify (λ s, set_heap
       (alter (λ i, mkPackageInfo (Some r.1) (Importable i) (Files i) r.2) p (heap s)) s) then
  do registerPackage (Some r.1) p then
  ret p.

(** [func (imp *importer) importFromSource(path string, which string)
    ( *PackageInfo, error)] *)
Definition importFromSource_
    (doImport : mapref → string → M state (option go_types.Package * option error))
    (path which : string) : M state (option ptr * option error) :=
  let* c := gets conf in
  let* fs := liftConf fset in
  do emit (EvParse path which) then
  match parsePackageFiles W (build c) fs path which with
  | inr e => ret (None, Some e)
  | inl files =>
      let* p := createPackage_ doImport path files in
      ret (Some p, None)
  end.

(** [func (imp *importer) importFromBinary(path string) ( *PackageInfo, error)] *)
Definition importFromBinary (path : string) : M state (option ptr * option error) :=
  let* c := gets conf in
  let importfn :=
    match go_types.Import (TypeChecker c) with
    | Some f => f
    | None => gcimporter_Import W
    end in
  do emit (EvBinary path) then
  let* r := callImporter importfn path in
  match r with
  | (_, Some e) => ret (None, Some e)
  | (pkg, None) =>
      let* p := alloc (mkPackageInfo pkg false [] None) in
      do registerPackage pkg p then
      ret (Some p, None)
  end.

(** [func (imp *importer) doImport(imports map[string]*types.Package, path
    string) ( *types.Package, error)], with [imp.importPackage] abstracted. *)
Definition doImport_
    (importPackage : string → M state (option ptr * option error))
    (imports : mapref) (path : string)
  : M state (option go_types.Package * option error) :=
  if decide (path = "unsafe") then ret (Some go_types.Unsafe, None)
  else
    let* r := importPackage path in
    match r.2 with
    | Some e => ret (None, Some e)
    | None =>
        let* i := deref r.1 in
        do mapStore imports path (Pkg i) then
        ret (Pkg i, None)
    end.

(** The entry [importPackage] puts in the cache before it constructs
    anything. *)
Definition cycleError (path : string) : error := "import cycle in package " +:+ path.
Definition cycleSentinel (path : string) : importInfo := mkImportInfo None (Some (cycleError path)).

(** [imp.imported[path] = ii], and, [ii] being a pointer, the later
    assignment to [ii.info] and [ii.err]. *)
Definition setImported (path : string) (ii : importInfo) : M state unit :=
  modify (λ s, set_imported (<[path := ii]> (imported s)) s).

(** [ii.info.Importable = true] when [ii.info != nil] *)
Definition markImportable (p : option ptr) : M state unit :=
  match p with
  | Some a => modify (λ s, set_heap
       (alter (λ i, mkPackageInfo (Pkg i) true (Files i) (err i)) a (heap s)) s)
  | None => ret tt
  end.

(** The source-or-binary decision of [importPackage]: [Some which] to load
    from source the files [which] selects, [None] for the binary importer. *)
Definition loadStrategy (c : Config) (path : string) : option string :=
  match (importPkgs c !! path : option bool) with
  | Some augment => Some (if augment then "gt" else "g")
  | None => if SourceImports c then Some "g" else None
  end.

(** [func (imp *importer) importPackage(path string) ( *PackageInfo, error)],
    one unfolding of the recursion. *)
Definition importPackage_
    (importPackage : string → M state (option ptr * option error))
    (path : string) : M state (option ptr * option error) :=
  let* s := get in
  match imported s !! path with
  | Some ii =>
      do emit (EvCall path ii) then
      ret (info ii, ierr ii)
  | None =>
      do setImported path (cycleSentinel path) then
      let* c := gets conf in
      let* r := match loadStrategy c path with
                | Some which => importFromSource_ (doImport_ importPackage) path which
                | None => importFromBinary path
                end in
      do setImported path (mkImportInfo r.1 r.2) then
      do markImportable r.1 then
      do emit (EvCall path (mkImportInfo r.1 r.2)) then
      ret r
  end.

(** The recursion through the type checker's import callback is bounded by
    [fuel], the depth of nested [importPackage] calls. *)
Fixpoint importPackage (fuel : nat) (path : string) : M state (option ptr * option error) :=
  match fuel with
  | 0 => λ _, OutOfFuel
  | S n => importPackage_ (importPackage n) path
  end.

Definition doImport (fuel : nat) := doImport_ (importPackage fuel).
Definition importFromSource (fuel : nat) := importFromSource_ (doImport fuel).
Definition createPackage (fuel : nat) := createPackage_ (doImport fuel).

(** ** Load *)

(** The order in which each [range] over a map visits its entries. *)
Record RangeOrder := mkRangeOrder {
  rangeImportPkgs : gmap string bool → list (string * bool);
  rangeAllPackages : gmap (option go_types.Package) ptr → list (option go_types.Package * ptr);
  rangeImportMap : PackageMap → list (string * option go_types.Package)
}.

(** A [range] visits every entry of the map exactly once. *)
Definition validOrder (ord : RangeOrder) : Prop :=
  (∀ m, rangeImportPkgs ord m ≡ₚ map_to_list m) ∧
  (∀ m, rangeAllPackages ord m ≡ₚ map_to_list m) ∧
  (∀ m, rangeImportMap ord m ≡ₚ map_to_list m).

Definition keyOrder : RangeOrder := mkRangeOrder map_to_list map_to_list map_to_list.

(** [for path := range conf.ImportPkgs { ... }]; the result is the error
    Load returns from inside the loop, if any. *)
Fixpoint importLoop (fuel : nat) (entries : list (string * bool)) : M state (option error) :=
  match entries with
  | [] => ret None
  | (path, _) :: rest =>
      let* r := importPackage fuel path in
      match r.2 with
      | Some e => ret (Some e)
      | None =>
          do modify (λ s, set_prog (set_Imported (<[path := r.1]> (Imported (prog s))) (prog s)) s) then
          importLoop fuel rest
      end
  end.

(** [for _, files := range conf.CreatePkgs { ... }] *)
Fixpoint createLoop (fuel : nat) (pkgs : list (list go_ast.File)) : M state (option error) :=
  match pkgs with
  | [] => ret None
  | files :: rest =>
      let* c := gets conf in
      match packageName W files (Fset c) with
      | inr e => ret (Some e)
      | inl pkgname =>
          let* p := createPackage fuel pkgname files in
          do modify (λ s, set_prog (set_Created (Created (prog s) ++ [p]) (prog s)) s) then
          createLoop fuel rest
      end
  end.

(** [for _, info := range prog.AllPackages { if info.err != nil { errpkgs =
    append(errpkgs, info.Pkg.Path()) } }] *)
Fixpoint scanErrors (entries : list (option go_types.Package * ptr)) : M state (list string) :=
  match entries with
  | [] => ret []
  | (_, p) :: rest =>
      let* i := deref (Some p) in
      match err i with
      | None => scanErrors rest
      | Some _ =>
          match Pkg i with
          | None => panic "nil pointer dereference"
          | Some pkg => let* l := scanErrors rest in ret (go_types.Path pkg :: l)
          end
      end
  end.

(** [for _, obj := range prog.ImportMap { if prog.AllPackages[obj] == nil
    { prog.AllPackages[obj] = &PackageInfo{Pkg: obj, Importable: true} } }] *)
Fixpoint fillLoop (entries : list (string * option go_types.Package)) : M state unit :=
  match entries with
  | [] => ret tt
  | (_, obj) :: rest =>
      let* s := get in
      do match AllPackages (prog s) !! obj with
         | Some _ => ret tt
         | None => let* p := alloc (mkPackageInfo obj true [] None) in registerPackage obj p
         end then
      fillLoop rest
  end.

Definition noPackagesError : error := "no *.go source files nor packages were specified".
Definition typeErrorsError (errpkgs : list string) : error :=
  "couldn't load packages due to type errors: " +:+ String.concat ", " errpkgs.

(** [Load] from the end of the two construction loops on. *)
Definition loadFinish (ord : RangeOrder) : M state (option Program * option error) :=
  let* s := get in
  if bool_decide (size (Imported (prog s)) + length (Created (prog s)) = 0)
  then ret (None, Some noPackagesError)
  else
    let* errpkgs := scanErrors (rangeAllPackages ord (AllPackages (prog s))) in
    match errpkgs with
    | _ :: _ => ret (None, Some (typeErrorsError errpkgs))
    | [] =>
        do fillLoop (rangeImportMap ord (ImportMap s)) then
        let* s := get in
        ret (Some (prog s), None)
    end.

(** The two construction loops of [Load]; [Some err] when a loop returns
    from [Load] with [err]. *)
Definition loadInitial (fuel : nat) (ord : RangeOrder) : M state (option error) :=
  let* c := gets conf in
  let* r := importLoop fuel (rangeImportPkgs ord (importPkgs c)) in
  match r with
  | Some e => ret (Some e)
  | None => let* c := gets conf in createLoop fuel (CreatePkgs c)
  end.

(** The start of [Load]: the lazy initialisation of [TypeChecker.Packages]
    and of [Fset], then the fresh [Program] and [importer]. *)
Definition loadStart (c : Config) : state :=
  let c1 := match Packages c with
            | None => set_Packages (Some ∅) c
            | Some _ => c
            end in
  let fs := match Fset c1 with Some f => f | None => go_token.NewFileSet end in
  mkState (set_Fset (Some fs) c1) (mkProgram (Some fs) [] ∅ ∅) ∅ [] [].

(** [func (conf *Config) Load() ( *Program, error)].  The state of the
    outcome holds the configuration as [Load] leaves it, the store of the
    [PackageInfo] objects the program points to, and the trace. *)
Definition Load (fuel : nat) (ord : RangeOrder) (c : Config)
  : outcome state (option Program * option error) :=
  (let* r := loadInitial fuel ord in
   match r with
   | Some e => ret (None, Some e)
   | None => loadFinish ord
   end) (loadStart c).

End Loader.

(** ** Properties of states and runs *)

(** The file set [conf.fset()] returns. *)
Definition effFset (c : Config) : go_token.FileSet :=
  match Fset c with
  | Some f => f
  | None => go_token.NewFileSet
  end.

(** What a run of the importer may change in the configuration: [Fset],
    from nil to a new file set, and [TypeChecker.Packages], which stays nil
    or stays a map. *)
Record confExt (c c' : Config) : Prop := mkConfExt {
  ce_rest : c' = set_Packages (Packages c') (set_Fset (Fset c') c);
  ce_fset : Fset c' = Fset c ∨ (Fset c = None ∧ Fset c' = Some go_token.NewFileSet);
  ce_packages : is_Some (Packages c) ↔ is_Some (Packages c')
}.

(** Well-formed states: the canonical map is allocated, the cache and
    [AllPackages] point into the store, a cache entry without an error has a
    [PackageInfo], and a [PackageInfo] with a type error has its package. *)
Record wf (s : state) : Prop := mkWf {
  wf_packages : is_Some (Packages (conf s));
  wf_cache : ∀ q ii, imported s !! q = Some ii →
             match info ii with
             | Some p => p < length (heap s)
             | None => is_Some (ierr ii)
             end;
  wf_heap : ∀ p i, heap s !! p = Some i → is_Some (err i) → is_Some (Pkg i);
  wf_all : ∀ k p, AllPackages (prog s) !! k = Some p → p < length (heap s)
}.

(** A finished cache entry for a path that is loaded from source: the error
    of [parsePackageFiles] if it failed, no error otherwise. *)
Definition complete (W : Collaborators) (c : Config) (q : string) (ii : importInfo) : Prop :=
  match loadStrategy c q with
  | Some which =>
      match parsePackageFiles W (build c) (effFset c) q which with
      | inl _ => ierr ii = None
      | inr e => ii = mkImportInfo None (Some e)
      end
  | None => True
  end.

(** What a finished call leaves of the state it started in: the cache
    entries and the store objects that existed are untouched, and the cache
    entries it added are finished. *)
Record frame (W : Collaborators) (s s' : state) : Prop := mkFrame {
  fr_imported : imported s ⊆ imported s';
  fr_heap : heap s `prefix_of` heap s';
  fr_conf : confExt (conf s) (conf s');
  fr_wf : wf s → wf s';
  fr_complete : ∀ q ii, imported s !! q = None → imported s' !! q = Some ii →
                complete W (conf s) q ii
}.

(** Events a run may add when it starts with the cache [cache] and a store
    of [n] objects under a checker configuration whose diagnostics go to
    [sink]: a call for a cached path returns the cached entry, only paths
    not in the cache are parsed or imported from binary, and diagnostics
    belong to new [PackageInfo] objects. *)
Definition quietEv (cache : gmap string importInfo) (n : nat) (sink : sink)
    (ev : event) : Prop :=
  match ev with
  | EvCall q ii => ∀ ii0, cache !! q = Some ii0 → ii = ii0
  | EvParse q _ => cache !! q = None
  | EvBinary q => cache !! q = None
  | EvDiag p snk _ => n ≤ p ∧ snk = sink
  end.

Definition quiet (cache : gmap string importInfo) (n : nat) (sink : sink)
    (new : list event) : Prop :=
  Forall (quietEv cache n sink) new.

(** A run, with the events it added; its diagnostics belong to objects
    at [n] or above. *)
Definition extN (W : Collaborators) (n : nat) (s s' : state) : Prop :=
  frame W s s' ∧
  ∃ new, trace s' = trace s ++ new ∧
         quiet (imported s) n (errorSink (TypeChecker (conf s))) new.

(** A finished call: its diagnostics belong to objects it allocated. *)
Definition ext (W : Collaborators) (s s' : state) : Prop :=
  extN W (length (heap s)) s s'.

(** The diagnostics in a trace that belong to the [PackageInfo] at [p]. *)
Fixpoint ownDiags (p : ptr) (t : list event) : list error :=
  match t with
  | [] => []
  | EvDiag q _ e :: rest => if decide (q = p) then e :: ownDiags p rest else ownDiags p rest
  | _ :: rest => ownDiags p rest
  end.

(** Modelled from the spec: the type-check service [types.Config.Check],
    which is not among the loader's sources.  The spec says of it that the
    first diagnostic it reports through the sink is also the error value it
    returns.  [reportsFirst first c] says so for a run [c] that has already
    reported [first]. *)
Fixpoint reportsFirst (first : option error) (c : go_types.checker) : Prop :=
  match c with
  | go_types.CheckDone _ e => e = first
  | go_types.CheckError e k =>
      reportsFirst (match first with Some f => Some f | None => Some e end) k
  | go_types.CheckImport _ k => ∀ r, reportsFirst first (k r)
  end.

(** The sources on disk are finite: only the paths in [U] can be located
    and parsed. *)
Definition sourcesWithin (W : Collaborators) (U : gset string) : Prop :=
  ∀ b fs q which files, parsePackageFiles W b fs q which = inl files → q ∈ U.

(** The paths of [U] that the importer has not been asked for yet. *)
Definition pending (U : gset string) (s : state) : nat :=
  size (U ∖ dom (imported s)).

(** ** Specifications of the importer's functions *)

Definition importSpec (W : Collaborators) (path : string) (s : state)
    (r : option ptr * option error) (s' : state) : Prop :=
  ext W s s' ∧ imported s' !! path = Some (mkImportInfo r.1 r.2).


(** The first event of a construction. *)
Definition constructEvent (c : Config) (path : string) : event :=
  match loadStrategy c path with
  | Some which => EvParse path which
  | None => EvBinary path
  end.


(** The checker [createPackage] runs for [path] and [files] in state [s]. *)
Definition checkerOf (W : Collaborators) (s : state) (path : string) (files : list go_ast.File) : go_types.checker :=
  types_Check W
    match TypeCheckFuncBodies (conf s) with
    | Some f => negb (f path)
    | None => false
    end path (effFset (conf s)) files.


(** A run that returns. *)
Definition total {St A} (m : M St A) (s : St) : Prop := ∃ a s', m s = Ok a s'.


(** The path [scanErrors] reports for the object at [p], if any. *)
Definition errorPath (s : state) (p : ptr) : option string :=
  match heap s !! p with
  | Some i => match err i with
              | Some _ => go_types.Path <$> Pkg i
              | None => None
              end
  | None => None
  end.

(** The paths of the packages of [AllPackages] with a recorded error, in
    the order of the map's entries. *)
Definition errorPaths (s : state) : list string :=
  omap (λ kp, errorPath s kp.2) (map_to_list (AllPackages (prog s))).


(** No [PackageInfo] of [AllPackages] has a recorded error. *)
Definition noErrors (s : state) : Prop :=
  ∀ k p i, AllPackages (prog s) !! k = Some p → heap s !! p = Some i → err i = None.


(** The claim that any two calls for one path return the same thing. *)
Definition callsAgree (t : list event) : Prop :=
  ∀ path ii1 ii2, EvCall path ii1 ∈ t → EvCall path ii2 ∈ t → ii1 = ii2.


(** At most one entry of the map is true. *)
Definition atMostOneAugmented (m : gmap string bool) : Prop :=
  ∀ p q, m !! p = Some true → m !! q = Some true → p = q.

(** C6 as it is stated, for two calls on the configuration [c]: the first
    call sets the flag of its path and adds an external test package, the
    second adds its path unaugmented and returns nil. *)
Definition firstOnlyAugmented (W : Collaborators) (c : Config) (p1 p2 : string) : Prop :=
  ∃ e1 c1 c2 xtestFiles,
    ImportWithTests W p1 c = Ok e1 c1 ∧
    importPkgs c1 !! p1 = Some true ∧
    CreatePkgs c1 = CreatePkgs c ++ [xtestFiles] ∧
    ImportWithTests W p2 c1 = Ok None c2 ∧
    importPkgs c2 !! p2 = Some false.


(** ** A type checker that resolves imports, and a small world *)

Definition orFirst (first : option error) (e : error) : option error :=
  match first with
  | Some f => Some f
  | None => Some e
  end.

(** The checker's own diagnostics, after the imports are resolved. *)
Fixpoint reportAll (pkg : go_types.Package) (first : option error) (errors : list error)
  : go_types.checker :=
  match errors with
  | [] => go_types.CheckDone pkg first
  | e :: rest => go_types.CheckError e (reportAll pkg (orFirst first e) rest)
  end.

Definition couldNotImport (path : string) (e : error) : error :=
  "could not import " +:+ path +:+ " (" +:+ e +:+ ")".

(** Modelled from the spec: the type-check service [types.Config.Check],
    which is not among the loader's sources.  It resolves every import
    spec through the import callback; an import that fails is a diagnostic
    of the importing package, whose text carries the callback's error; all
    diagnostics go to the sink and the first one is the error value
    returned.  [errors] are the package's other type errors. *)
Fixpoint importingChecker (pkg : go_types.Package) (first : option error)
    (imports : list string) (errors : list error) : go_types.checker :=
  match imports with
  | [] => reportAll pkg first errors
  | path :: rest =>
      go_types.CheckImport path (λ r,
        match r.2 with
        | Some e =>
            go_types.CheckError (couldNotImport path e)
              (importingChecker pkg (orFirst first (couldNotImport path e)) rest errors)
        | None => importingChecker pkg first rest errors
        end)
  end.

(** [e] contains [sub]. *)
Definition Mentions (sub e : string) : Prop := ∃ pre post, e = pre +:+ sub +:+ post.

(** A world with seven packages on disk: [a] and [b] import each other,
    [lib] imports [sub] and [unsafe], [bad] has two type errors, [dep]
    imports a package that is not there, [brokentests] has an external test
    file that does not parse, and [lib] has an external test file. *)
Definition demoSources : gmap string (list string) :=
  list_to_map [("a", ["b"]); ("b", ["a"]); ("lib", ["sub"; "unsafe"]); ("sub", []);
               ("bad", []); ("dep", ["missing"]); ("brokentests", [])].

Definition demoParse (ctx : go_build.Context) (fs : go_token.FileSet) (path which : string)
  : list go_ast.File + error :=
  match demoSources !! path with
  | None => inr ("cannot find package " +:+ path)
  | Some imports =>
      if decide (which = "x") then
        if decide (path = "lib") then inl [go_ast.mkFile "lib_x_test.go" "lib_test" ["lib"]]
        else if decide (path = "brokentests") then inr "brokentests_test.go:1:1: expected 'package'"
        else inl []
      else inl [go_ast.mkFile (path +:+ ".go") path imports]
  end.

Definition demoCheck (ignore : bool) (path : string) (fs : go_token.FileSet)
    (files : list go_ast.File) : go_types.checker :=
  importingChecker (go_types.mkPackage (String.length path) path) None
    (concat (map go_ast.Imports files))
    (if decide (path = "bad")
     then ["bad.go:1:1: undeclared name: x"; "bad.go:2:1: undeclared name: y"]
     else []).

Definition demoName (files : list go_ast.File) (fs : option go_token.FileSet)
  : string + error :=
  match files with
  | [] => inr "no files"
  | f :: _ => inl (go_ast.Name f)
  end.

Definition demoGc : go_types.Importer :=
  λ m path,
    if decide (path = "nobin") then (m, (None, Some "can't find import: nobin"))
    else let pkg := Some (go_types.mkPackage (100 + String.length path) path) in
         (<[path := pkg]> m, (pkg, None)).

Definition demo : Collaborators := mkCollaborators demoParse demoName demoCheck demoGc.

(** The configuration that imports [paths] (unaugmented) from source, with
    or without [SourceImports]. *)
Definition importing (sourceImports : bool) (paths : list string) : Config :=
  mkConfig None (go_types.mkConfig false None None None) None sourceImports None []
           (Some (list_to_map ((λ p, (p, false)) <$> paths))).

(** ** The command-line and query methods *)

(** The functions of Go's [strings] package that [FromArgs] calls, on
    strings as sequences of bytes. *)
Module go_strings.

(** [strings.HasPrefix(s, prefix)]:
    [len(s) >= len(prefix) && s[0:len(prefix)] == prefix] *)
Definition HasPrefix (s prefix : string) : bool :=
  bool_decide (String.length prefix ≤ String.length s) &&
  bool_decide (String.substring 0 (String.length prefix) s = prefix).

(** [strings.HasSuffix(s, suffix)]:
    [len(s) >= len(suffix) && s[len(s)-len(suffix):] == suffix] *)
Definition HasSuffix (s suffix : string) : bool :=
  bool_decide (String.length suffix ≤ String.length s) &&
  bool_decide (String.substring (String.length s - String.length suffix)
                                (String.length suffix) s = suffix).

(** [strings.TrimPrefix(s, prefix)]:
    [if HasPrefix(s, prefix) { return s[len(prefix):] }; return s] *)
Definition TrimPrefix (s prefix : string) : string :=
  if HasPrefix s prefix
  then String.substring (String.length prefix) (String.length s - String.length prefix) s
  else s.

(** [strings.Split(s, sep)] for a non-empty separator: the pieces of [s]
    between the occurrences of [sep], found from left to right; a string
    without [sep], the empty string too, is one piece.  [skip] counts the
    bytes of an occurrence of [sep] still to be passed over. *)
Fixpoint splitFrom (sep : string) (skip : nat) (s : string) : list string :=
  match s with
  | EmptyString => [EmptyString]
  | String c rest =>
      match skip with
      | S skip' => splitFrom sep skip' rest
      | 0 =>
          if String.prefix sep s
          then EmptyString :: splitFrom sep (String.length sep - 1) rest
          else match splitFrom sep 0 rest with
               | piece :: pieces => String c piece :: pieces
               | [] => [String c EmptyString]
               end
      end
  end.

Definition Split (s sep : string) : list string := splitFrom sep 0 s.

End go_strings.

(** [token.Pos] *)
Definition token_Pos : Type := Z.

Section Convenience.
Variable W : Collaborators.

(** [parseFiles(fset, dir, files...)], the package's helper that parses the
    named files. *)
Variable parseFiles : go_token.FileSet → string → list string → list go_ast.File + error.

(** [parser.ParseFile(fset, filename, src, mode)] of go/parser, which may
    return a partial file together with an error. *)
Variables Src Mode : Type.
Variable parser_ParseFile :
  go_token.FileSet → string → Src → Mode → option go_ast.File * option error.

(** [func (conf *Config) ParseFile(filename string, src interface{}, mode
    parser.Mode) ( *ast.File, error)] *)
Definition ParseFile (filename : string) (src : Src) (mode : Mode)
  : M Config (option go_ast.File * option error) :=
  let* fs := fset in
  ret (parser_ParseFile fs filename src mode).

(** [func (conf *Config) CreateFromFilenames(filenames ...string) error] *)
Definition CreateFromFilenames (filenames : list string) : M Config (option error) :=
  let* fs := fset in
  match parseFiles fs "." filenames with
  | inr e => ret (Some e)
  | inl files =>
      do CreateFromFiles files then
      ret None
  end.

(** The body of the loop of [FromArgs] for an argument that is not "--":
    the value it leaves in [err]. *)
Definition fromArg (arg : string) : M Config (option error) :=
  if go_strings.HasSuffix arg ".go"
  then CreateFromFilenames (go_strings.Split arg ",")
  else
    let path := go_strings.TrimPrefix arg "notest:" in
    if decide (path ≠ arg)
    then do Import path then ret None
    else ImportWithTests W path.

(** [func (conf *Config) FromArgs(args []string) (rest []string, err
    error)]: one turn of the loop for each argument.  A nil slice and an
    empty one are both the empty list. *)
Fixpoint FromArgs (args : list string) : M Config (list string * option error) :=
  match args with
  | [] => ret ([], None)
  | arg :: args =>
      if decide (arg = "--") then ret (args, None)
      else
        let* err := fromArg arg in
        match err with
        | Some e => ret ([], Some e)
        | None => FromArgs args
        end
  end.

End Convenience.

Section Queries.

(** [ast.Node] *)
Variable Node : Type.

(** [tokenFileContainsPos(prog.Fset.File(f.Pos()), start)], as a function
    of the program's file set, the file and the position. *)
Variable tokenFileContainsPos : option go_token.FileSet → go_ast.File → token_Pos → bool.

(** [astutil.PathEnclosingInterval(f, start, end)]; a nil path is [None]. *)
Variable astutil_PathEnclosingInterval :
  go_ast.File → token_Pos → token_Pos → option (list Node) * bool.

(** [for _, f := range info.Files { ... }] of [PathEnclosingInterval]: the
    path and the exact flag it returns with, if it returns. *)
Fixpoint enclosingInFiles (fs : option go_token.FileSet) (files : list go_ast.File)
    (start end_ : token_Pos) : option (list Node * bool) :=
  match files with
  | [] => None
  | f :: rest =>
      if negb (tokenFileContainsPos fs f start) then enclosingInFiles fs rest start end_
      else
        match astutil_PathEnclosingInterval f start end_ with
        | (Some path, exact) => Some (path, exact)
        | (None, _) => enclosingInFiles fs rest start end_
        end
  end.

(** [for _, info := range prog.AllPackages { ... }] of
    [PathEnclosingInterval] *)
Fixpoint enclosingInPackages (fs : option go_token.FileSet)
    (entries : list (option go_types.Package * ptr)) (start end_ : token_Pos)
  : M state (option ptr * option (list Node) * bool) :=
  match entries with
  | [] => ret (None, None, false)
  | (_, p) :: rest =>
      let* i := deref (Some p) in
      match enclosingInFiles fs (Files i) start end_ with
      | Some (path, exact) => ret (Some p, Some path, exact)
      | None => enclosingInPackages fs rest start end_
      end
  end.

(** [func (prog *Program) PathEnclosingInterval(start, end token.Pos) (pkg
    *PackageInfo, path []ast.Node, exact bool)], for the program [prog] of
    the state. *)
Definition PathEnclosingInterval (ord : RangeOrder) (start end_ : token_Pos)
  : M state (option ptr * option (list Node) * bool) :=
  let* s := get in
  enclosingInPackages (pFset (prog s)) (rangeAllPackages ord (AllPackages (prog s)))
                      start end_.

End Queries.

(** [func (prog *Program) InitialPackages() []*PackageInfo]; [rangeImported]
    is the order in which the range visits [prog.Imported]. *)
Definition InitialPackages
    (rangeImported : gmap string (option ptr) → list (string * option ptr))
    (prog : Program) : list (option ptr) :=
  foldl (λ infos kv, infos ++ [kv.2]) ([] ++ (Some <$> Created prog))
        (rangeImported (Imported prog)).

(** What the convenience methods may change in a configuration: [Fset]
    from nil to a new file set, more packages at the end of [CreatePkgs],
    more keys in [ImportPkgs]. *)
Record configGrows (c c' : Config) : Prop := mkConfigGrows {
  cg_checker : TypeChecker c' = TypeChecker c;
  cg_bodies : TypeCheckFuncBodies c' = TypeCheckFuncBodies c;
  cg_source : SourceImports c' = SourceImports c;
  cg_build : Build c' = Build c;
  cg_fset : Fset c' = Fset c ∨ (Fset c = None ∧ Fset c' = Some go_token.NewFileSet);
  cg_create : CreatePkgs c `prefix_of` CreatePkgs c';
  cg_import : dom (importPkgs c) ⊆ dom (importPkgs c')
}.

(** ** Orderly runs *)

(** The paths a trace constructs: one for each call of [parsePackageFiles]
    and of the binary importer. *)
Definition constructed (t : list event) : list string :=
  omap (λ ev, match ev with
              | EvParse q _ => Some q
              | EvBinary q => Some q
              | _ => None
              end) t.

(** The state of the importer between calls, or, with [building] a path,
    between the moment [importPackage] has put the path's sentinel in the
    cache and the moment the construction starts: every path is constructed
    at most once, the cache holds exactly the paths that were constructed
    (and the one being built), each construction followed the strategy of
    the configuration, every diagnostic went to the configured sink and
    belongs to an object of the store, and a cache entry with a
    [PackageInfo] has no error and an importable object. *)
Record orderly (building : option string) (s : state) : Prop := mkOrderly {
  od_once : NoDup (constructed (trace s));
  od_cached : ∀ q, is_Some (imported s !! q) ↔
                   q ∈ constructed (trace s) ∨ building = Some q;
  od_fresh : ∀ q, building = Some q → q ∉ constructed (trace s);
  od_parse : ∀ q w, EvParse q w ∈ trace s → loadStrategy (conf s) q = Some w;
  od_binary : ∀ q, EvBinary q ∈ trace s → loadStrategy (conf s) q = None;
  od_diag : ∀ p snk e, EvDiag p snk e ∈ trace s →
            snk = errorSink (TypeChecker (conf s)) ∧ p < length (heap s);
  od_importable : ∀ q ii p, imported s !! q = Some ii → info ii = Some p →
                  ierr ii = None ∧ ∃ i, heap s !! p = Some i ∧ Importable i = true
}.

(** Every entry of [AllPackages] is filed under the package of its
    [PackageInfo]. *)
Definition keyed (s : state) : Prop :=
  ∀ k p i, AllPackages (prog s) !! k = Some p → heap s !! p = Some i → Pkg i = k.

(** A run that changes nothing in the program but [AllPackages], where it
    files only objects at [n] or above. *)
Definition filesFrom (n : nat) (s s' : state) : Prop :=
  prog s' = set_AllPackages (AllPackages (prog s')) (prog s) ∧
  ∀ k p, AllPackages (prog s') !! k = Some p →
         AllPackages (prog s) !! k = Some p ∨ n ≤ p.

(** ** The supplied [IgnoreFuncBodies] *)

(** The configuration with [TypeChecker.IgnoreFuncBodies] set to [b]. *)
Definition set_IgnoreFuncBodies (b : bool) (c : Config) : Config :=
  mkConfig (Fset c)
           (go_types.mkConfig b
                              (go_types.Error (TypeChecker c))
                              (go_types.Import (TypeChecker c))
                              (go_types.Packages (TypeChecker c)))
           (TypeCheckFuncBodies c) (SourceImports c) (Build c)
           (CreatePkgs c) (ImportPkgs c).

(** The state of the importer over that configuration. *)
Definition ignoring (b : bool) (s : state) : state :=
  set_conf (set_IgnoreFuncBodies b (conf s)) s.

(** An outcome with its final state changed by [f]. *)
Definition mapState {St A} (f : St → St) (o : outcome St A) : outcome St A :=
  match o with
  | Ok a s => Ok a (f s)
  | Panic msg => Panic msg
  | OutOfFuel => OutOfFuel
  end.

(** A computation that does not look at the supplied flag: run over the
    configuration with the flag set to [b], it does what it does otherwise,
    and returns the same. *)
Definition blind {A} (b : bool) (m : M state A) : Prop :=
  ∀ s, m (ignoring b s) = mapState (ignoring b) (m s).

(** ** More of the small world *)

(** [parseFiles] for file names, among which [missing.go] is not there. *)
Definition demoParseFiles (fs : go_token.FileSet) (dir : string) (filenames : list string)
  : list go_ast.File + error :=
  if decide ("missing.go" ∈ filenames)
  then inr "open missing.go: no such file or directory"
  else inl ((λ name, go_ast.mkFile name "main" []) <$> filenames).

(** A file contains the positions up to the length of its name, and only a
    file of package [lib] has a node at a position. *)
Definition demoContainsPos (fs : option go_token.FileSet) (f : go_ast.File) (pos : token_Pos)
  : bool :=
  bool_decide (0 ≤ pos < Z.of_nat (String.length (go_ast.FileName f)))%Z.

Definition demoEnclosing (f : go_ast.File) (start end_ : token_Pos)
  : option (list string) * bool :=
  if decide (go_ast.Name f = "lib")
  then (Some [go_ast.FileName f], bool_decide (start = end_))
  else (None, false).

(** * Proofs *)

(** * Reasoning about runs *)

Lemma bind_Ok {St A B} (m : M St A) (k : A → M St B) s b s2 :
  bind m k s = Ok b s2 → ∃ a s1, m s = Ok a s1 ∧ k a s1 = Ok b s2.
Proof.
  unfold bind. destruct (m s) as [a s1| |]; [eauto | discriminate..].
Qed.

Lemma bind_Ok_intro {St A B} (m : M St A) (k : A → M St B) s a s1 :
  m s = Ok a s1 → bind m k s = k a s1.
Proof. unfold bind. by intros ->. Qed.

Ltac inv_prim E :=
  lazymatch type of E with
  | ret _ _ = Ok _ _ => injection E as <- <-
  | gets _ _ = Ok _ _ => injection E as <- <-
  | get _ = Ok _ _ => injection E as <- <-
  | modify _ _ = Ok _ _ => injection E as <- <-
  | Ok _ _ = Ok _ _ => injection E as <- <-
  | alloc _ _ = Ok _ _ => unfold alloc in E; injection E as <- <-
  | emit _ _ = Ok _ _ => unfold emit in E; injection E as <- <-
  | registerPackage _ _ _ = Ok _ _ => unfold registerPackage in E; injection E as <- <-
  | setImported _ _ _ = Ok _ _ => unfold setImported in E; injection E as <- <-
  | _ => idtac
  end.

Tactic Notation "inv_bind" hyp(H) "as" ident(a) ident(s) ident(E) :=
  apply bind_Ok in H as (a & s & E & H); inv_prim E.

Ltac inv_run H :=
  repeat lazymatch type of H with
  | bind _ _ _ = Ok _ _ =>
      let a := fresh "a" in let s := fresh "s" in let E := fresh "E" in
      apply bind_Ok in H as (a & s & E & H)
  | _ => progress (inv_prim H)
  end.

(** ** The configuration *)

Lemma confExt_refl c : confExt c c.
Proof.
  split; [by destruct c as [? [] ? ? ? ? ?] | by left | done].
Qed.

Lemma confExt_trans c1 c2 c3 : confExt c1 c2 → confExt c2 c3 → confExt c1 c3.
Proof.
  intros [R1 F1 P1] [R2 F2 P2]. split.
  - rewrite R2 at 1. rewrite R1 at 1. by destruct c1 as [? [] ? ? ? ? ?].
  - destruct F1 as [F1|[F1 F1']], F2 as [F2|[F2 F2']].
    + left. congruence.
    + right. split; congruence.
    + right. split; congruence.
    + congruence.
  - by rewrite P1.
Qed.

Lemma confExt_effFset c c' : confExt c c' → effFset c' = effFset c.
Proof.
  intros [_ [F|[F F']] _]; unfold effFset; by rewrite ?F', ?F.
Qed.

Lemma confExt_fields c c' :
  confExt c c' →
  ImportPkgs c' = ImportPkgs c ∧ SourceImports c' = SourceImports c ∧
  Build c' = Build c ∧ CreatePkgs c' = CreatePkgs c ∧
  TypeCheckFuncBodies c' = TypeCheckFuncBodies c ∧
  go_types.Error (TypeChecker c') = go_types.Error (TypeChecker c) ∧
  go_types.Import (TypeChecker c') = go_types.Import (TypeChecker c) ∧
  go_types.IgnoreFuncBodies (TypeChecker c') = go_types.IgnoreFuncBodies (TypeChecker c).
Proof. intros [-> _ _]. by destruct c as [? [] ? ? ? ? ?]. Qed.

Lemma confExt_loadStrategy c c' q : confExt c c' → loadStrategy c' q = loadStrategy c q.
Proof.
  intros H. apply confExt_fields in H as (HI & HS & _).
  unfold loadStrategy, importPkgs. by rewrite HI, HS.
Qed.

Lemma confExt_build c c' : confExt c c' → build c' = build c.
Proof. intros H. apply confExt_fields in H as (_ & _ & HB & _). unfold build. by rewrite HB. Qed.

Lemma confExt_set_Packages c m :
  is_Some (Packages c) → confExt c (set_Packages (Some m) c).
Proof.
  intros HP. split; [by destruct c as [? [] ? ? ? ? ?] | by left |].
  split; [by eauto | done].
Qed.

Lemma complete_confExt W c c' q ii : confExt c c' → complete W c' q ii ↔ complete W c q ii.
Proof.
  intros H. unfold complete.
  by rewrite (confExt_loadStrategy _ _ _ H), (confExt_build _ _ H), (confExt_effFset _ _ H).
Qed.

Lemma fset_Ok c fs c' : fset c = Ok fs c' → fs = effFset c ∧ confExt c c' ∧ Fset c' = Some fs.
Proof.
  unfold fset, effFset. destruct (Fset c) as [f|] eqn:E; intros H; injection H as <- <-.
  - split_and!; [done | apply confExt_refl | done].
  - split_and!; [done | | done].
    split; [by destruct c as [? [] ? ? ? ? ?] | right; by rewrite E | done].
Qed.

(** ** Frames *)

Section Frames.
Variable W : Collaborators.

Lemma frame_refl s : frame W s s.
Proof.
  split; [done | done | apply confExt_refl | done |].
  intros q ii H1 H2. congruence.
Qed.

Lemma frame_trans s1 s2 s3 : frame W s1 s2 → frame W s2 s3 → frame W s1 s3.
Proof.
  intros [I1 H1 C1 W1 K1] [I2 H2 C2 W2 K2]. split.
  - by etrans.
  - by etrans.
  - by eapply confExt_trans.
  - auto.
  - intros q ii Hn Hs. destruct (imported s2 !! q) as [ii'|] eqn:E.
    + pose proof (lookup_weaken _ _ _ _ E I2) as E3.
      rewrite Hs in E3. injection E3 as ->. by apply K1.
    + apply (complete_confExt W _ _ _ _ C1). by apply K2.
Qed.

Lemma frame_length s s' : frame W s s' → length (heap s) ≤ length (heap s').
Proof. intros [_ H _ _ _]. by apply prefix_length. Qed.

Lemma frame_sink s s' :
  frame W s s' → errorSink (TypeChecker (conf s')) = errorSink (TypeChecker (conf s)).
Proof.
  intros [_ _ C _ _]. apply confExt_fields in C as (_ & _ & _ & _ & _ & HE & _).
  unfold errorSink. by rewrite HE.
Qed.

Lemma frame_lookup s s' q ii :
  frame W s s' → imported s !! q = Some ii → imported s' !! q = Some ii.
Proof. intros [I _ _ _ _] H. by apply (lookup_weaken _ _ _ _ H). Qed.

Lemma frame_heap_lookup s s' p i :
  frame W s s' → heap s !! p = Some i → heap s' !! p = Some i.
Proof. intros [_ H _ _ _] Hp. by apply (prefix_lookup_Some _ _ _ _ Hp). Qed.

Lemma quietEv_mono cache cache' n n' sink ev :
  cache ⊆ cache' → n ≤ n' → quietEv cache' n' sink ev → quietEv cache n sink ev.
Proof.
  intros Hc Hn. destruct ev as [q w|q|p snk e|q ii]; simpl.
  - intros H. by eapply lookup_weaken_None.
  - intros H. by eapply lookup_weaken_None.
  - intros [H ->]. split; [lia | done].
  - intros H ii0 Hq. apply H. by apply (lookup_weaken _ _ _ _ Hq).
Qed.

Lemma quiet_mono cache cache' n n' sink new :
  cache ⊆ cache' → n ≤ n' → quiet cache' n' sink new → quiet cache n sink new.
Proof.
  intros Hc Hn H. eapply Forall_impl; [done|]. intros ev. by apply quietEv_mono.
Qed.

Lemma extN_refl n s : extN W n s s.
Proof.
  split; [apply frame_refl|]. exists []. split; [by rewrite app_nil_r | constructor].
Qed.

Lemma extN_trans n s1 s2 s3 : extN W n s1 s2 → extN W n s2 s3 → extN W n s1 s3.
Proof.
  intros [F1 (new1 & T1 & Q1)] [F2 (new2 & T2 & Q2)].
  split; [by eapply frame_trans|].
  exists (new1 ++ new2). split; [by rewrite T2, T1, app_assoc|].
  apply Forall_app. split; [done|].
  rewrite (frame_sink _ _ F1) in Q2.
  eapply quiet_mono; [apply (fr_imported _ _ _ F1) | reflexivity | done].
Qed.

Lemma extN_mono n n' s s' : n ≤ n' → extN W n' s s' → extN W n s s'.
Proof.
  intros Hn [F (new & T & Q)]. split; [done|]. exists new. split; [done|].
  by eapply quiet_mono.
Qed.

Lemma ext_extN n s s' : n ≤ length (heap s) → ext W s s' → extN W n s s'.
Proof. intros Hn. by apply extN_mono. Qed.

Lemma extN_frame n s s' : extN W n s s' → frame W s s'.
Proof. by intros [F _]. Qed.

Lemma frame_extN n s s' : frame W s s' → trace s' = trace s → extN W n s s'.
Proof.
  intros F T. split; [done|]. exists []. split; [by rewrite T, app_nil_r | constructor].
Qed.

(** Diagnostics of objects at [n] or above do not belong to an object
    below [n]. *)
Lemma ownDiags_quiet cache n sink new p :
  p < n → quiet cache n sink new → ownDiags p new = [].
Proof.
  intros Hp. induction 1 as [|ev new Hev _ IH]; [done|].
  destruct ev as [q w|q|p' snk e|q ii]; simpl; try done.
  destruct Hev as [Hn _]. case_decide; [lia | done].
Qed.

Lemma ownDiags_app p t1 t2 : ownDiags p (t1 ++ t2) = ownDiags p t1 ++ ownDiags p t2.
Proof.
  induction t1 as [|ev t1 IH]; [done|].
  destruct ev as [q w|q|p' snk e|q ii]; simpl; try done.
  case_decide; [by rewrite IH | done].
Qed.

(** ** Primitive steps *)

Lemma wf_alloc s i :
  (is_Some (err i) → is_Some (Pkg i)) → wf s → wf (set_heap (heap s ++ [i]) s).
Proof.
  intros Hi [P C H A]. split; simpl.
  - done.
  - intros q ii Hq. specialize (C q ii Hq). destruct (info ii); [|done].
    rewrite length_app. lia.
  - intros p i' Hp. apply lookup_app_Some in Hp as [Hp|[_ Hp]]; [by eapply H|].
    apply list_lookup_singleton_Some in Hp as [_ <-]. done.
  - intros k p Hk. specialize (A k p Hk). rewrite length_app. lia.
Qed.

Lemma frame_alloc s i :
  (is_Some (err i) → is_Some (Pkg i)) → frame W s (set_heap (heap s ++ [i]) s).
Proof.
  intros Hi. split; simpl.
  - done.
  - by apply prefix_app_r.
  - apply confExt_refl.
  - by apply wf_alloc.
  - intros q ii H1 H2. congruence.
Qed.

Lemma frame_set_trace s t : frame W s (set_trace t s).
Proof.
  split; simpl; [done | done | apply confExt_refl | | intros q ii H1 H2; congruence].
  by intros [P C H A].
Qed.

Lemma frame_set_conf s c :
  confExt (conf s) c → frame W s (set_conf c s).
Proof.
  intros Hc. split; simpl; [done | done | done | | intros q ii H1 H2; congruence].
  intros [P C H A]. split; simpl; [|done..].
  by apply (ce_packages _ _ Hc).
Qed.

Lemma frame_register s k p :
  p < length (heap s) →
  frame W s (set_prog (set_AllPackages (<[k := p]> (AllPackages (prog s))) (prog s)) s).
Proof.
  intros Hp. split; simpl; [done | done | apply confExt_refl | | intros q ii H1 H2; congruence].
  intros [P C H A]. split; simpl; [done..|].
  intros k' p' Hk. apply lookup_insert_Some in Hk as [[_ <-]|[_ Hk]]; [done|by eapply A].
Qed.

Lemma frame_set_prog_other s pr :
  AllPackages pr = AllPackages (prog s) → frame W s (set_prog pr s).
Proof.
  intros Hp. split; simpl; [done | done | apply confExt_refl | | intros q ii H1 H2; congruence].
  intros [P C H A]. split; simpl; [done..|]. by rewrite Hp.
Qed.

Lemma liftConf_fset_Ok s fs s' :
  liftConf fset s = Ok fs s' →
  fs = effFset (conf s) ∧ frame W s s' ∧ trace s' = trace s ∧
  imported s' = imported s ∧ heap s' = heap s ∧ prog s' = prog s.
Proof.
  unfold liftConf. destruct (fset (conf s)) as [f c| |] eqn:E; [|discriminate..].
  intros H. injection H as <- <-. apply fset_Ok in E as (-> & Hc & _).
  split_and!; try done. by apply frame_set_conf.
Qed.

End Frames.

Section Steps.
Variable W : Collaborators.

Lemma wf_alter s f p :
  (∀ i, (is_Some (err i) → is_Some (Pkg i)) → is_Some (err (f i)) → is_Some (Pkg (f i))) →
  wf s → wf (set_heap (alter f p (heap s)) s).
Proof.
  intros Hf [P C H A]. split; simpl; rewrite ?length_alter; try done.
  intros q i Hq. destruct (decide (p = q)) as [->|Hne].
  - rewrite list_lookup_alter_eq in Hq.
    destruct (heap s !! q) as [i0|] eqn:E; [|done].
    injection Hq as <-. apply Hf. by eapply H.
  - rewrite list_lookup_alter_ne in Hq by done. by eapply H.
Qed.

Lemma frame_alter s0 s f p :
  (∀ i, (is_Some (err i) → is_Some (Pkg i)) → is_Some (err (f i)) → is_Some (Pkg (f i))) →
  length (heap s0) ≤ p →
  frame W s0 s → frame W s0 (set_heap (alter f p (heap s)) s).
Proof.
  intros Hf Hp [I H C Wf K]. split; simpl; try done.
  - destruct H as [k ->]. rewrite alter_app_r_alt by done. by apply prefix_app_r.
  - intros Hw. by apply wf_alter, Wf.
Qed.

Lemma mapStore_Ok imports path pkg s u s' :
  mapStore imports path pkg s = Ok u s' →
  frame W s s' ∧ trace s' = trace s ∧ imported s' = imported s ∧ heap s' = heap s.
Proof.
  unfold mapStore. destruct imports; [done|].
  destruct (Packages (conf s)) as [m|] eqn:E; [|done].
  intros H. injection H as <- <-. split_and!; try done.
  apply frame_set_conf, confExt_set_Packages. by rewrite E.
Qed.

Lemma callImporter_Ok fn path s r s' :
  callImporter fn path s = Ok r s' →
  frame W s s' ∧ trace s' = trace s ∧ imported s' = imported s ∧ heap s' = heap s
  ∧ prog s' = prog s.
Proof.
  unfold callImporter. destruct (Packages (conf s)) as [m|] eqn:E.
  - destruct (fn m path) as [m' r']. intros H. injection H as <- <-.
    split_and!; try done. apply frame_set_conf, confExt_set_Packages. by rewrite E.
  - destruct (fn ∅ path) as [m' r']. destruct (decide (m' = ∅)) as [_|_]; [|done].
    intros H. injection H as <- <-. split_and!; try done. apply frame_refl.
Qed.

Lemma deref_Ok p s i s' :
  deref p s = Ok i s' → s' = s ∧ ∃ a, p = Some a ∧ heap s !! a = Some i.
Proof.
  unfold deref. destruct p as [a|]; [|done].
  destruct (heap s !! a) as [i'|] eqn:E; [|done].
  intros H. injection H as <- <-. eauto.
Qed.

Lemma emit_extN n s ev :
  quietEv (imported s) n (errorSink (TypeChecker (conf s))) ev →
  extN W n s (set_trace (trace s ++ [ev]) s).
Proof.
  intros Hq. split; [apply frame_set_trace|].
  exists [ev]. split; [done|]. by constructor.
Qed.

(** ** One level of the recursion *)

Section Level.
Variable importPackage' : string → M state (option ptr * option error).
Hypothesis importPackage'_spec :
  ∀ path s r s', importPackage' path s = Ok r s' → importSpec W path s r s'.

Lemma doImport__ext imports path s r s' :
  doImport_ importPackage' imports path s = Ok r s' → ext W s s'.
Proof.
  unfold doImport_. destruct (decide (path = "unsafe")) as [Hu|Hu].
  { intros H. inv_run H. apply extN_refl. }
  intros H. inv_bind H as r0 s0 E0. apply importPackage'_spec in E0 as [Hext _].
  destruct (r0.2) as [e|].
  { inv_run H. done. }
  inv_bind H as i s1 E1. inv_bind H as u s2 E2. inv_run H.
  apply deref_Ok in E1 as [-> _].
  apply (mapStore_Ok _ _ _ _ _ _) in E2 as (F & T & _ & _).
  eapply extN_trans; [done|]. by apply frame_extN.
Qed.

Lemma runCheck_spec p c : ∀ s r s' first,
  runCheck (doImport_ importPackage')
           (λ e, emit (EvDiag p (errorSink (TypeChecker (conf s))) e)) c s = Ok r s' →
  p < length (heap s) →
  frame W s s' ∧
  ∃ new, trace s' = trace s ++ new ∧
         quiet (imported s) p (errorSink (TypeChecker (conf s))) new ∧
         (reportsFirst first c →
          r.2 = match first with Some f => Some f | None => head (ownDiags p new) end).
Proof.
  induction c as [pkg e|e k IH|path k IH]; intros s r s' first H Hp; simpl in H.
  - inv_run H. split; [apply frame_refl|]. exists []. rewrite app_nil_r.
    split_and!; [done | constructor |]. simpl. intros ->. by destruct first.
  - inv_bind H as u s1 E1.
    set (s1 := set_trace _ s) in *.
    apply (IH s1 r s' (match first with Some f => Some f | None => Some e end)) in H
      as (F & new & T & Q & R); [|done].
    split; [eapply frame_trans; [apply frame_set_trace | done]|].
    exists (EvDiag p (errorSink (TypeChecker (conf s))) e :: new).
    split_and!.
    + rewrite T. simpl. by rewrite <- app_assoc.
    + constructor; [by split | done].
    + simpl. intros HR. rewrite (R HR). rewrite decide_True by done. by destruct first.
  - inv_bind H as a s0 E0. apply doImport__ext in E0 as [F1 (new1 & T1 & Q1)].
    pose proof (frame_sink _ _ _ F1) as Hs. rewrite <- Hs in H.
    apply (IH a s0 r s' first) in H as (F & new & T & Q & R);
      [|pose proof (frame_length _ _ _ F1); lia].
    split; [by eapply frame_trans|].
    exists (new1 ++ new). split_and!.
    + by rewrite T, T1, app_assoc.
    + apply Forall_app. split.
      * eapply quiet_mono; [reflexivity | | done]. lia.
      * rewrite Hs in Q. eapply quiet_mono; [apply (fr_imported _ _ _ F1) | reflexivity | done].
    + simpl. intros HR. rewrite (R (HR a)), ownDiags_app.
      by rewrite (ownDiags_quiet _ _ _ _ _ Hp Q1).
Qed.

Lemma createPackage__spec path files s p s' :
  createPackage_ W (doImport_ importPackage') path files s = Ok p s' →
  p = length (heap s) ∧ ext W s s' ∧ imported s ⊆ imported s' ∧
  ∃ pkg e new,
    heap s' !! p = Some (mkPackageInfo (Some pkg) false files e) ∧
    AllPackages (prog s') !! Some pkg = Some p ∧
    trace s' = trace s ++ new ∧
    (reportsFirst None (checkerOf W s path files) → e = head (ownDiags p new)).
Proof.
  unfold createPackage_. intros H.
  inv_bind H as p' s1 E1. inv_bind H as c sc Ec.
  set (i0 := mkPackageInfo None false files None) in *.
  set (s1 := set_heap (heap s ++ [i0]) s) in *.
  inv_bind H as fs s2 E2. inv_bind H as r s3 E3.
  inv_bind H as u4 s4 E4. inv_bind H as u5 s5 E5. inv_run H.
  apply liftConf_fset_Ok with (W := W) in E2 as (-> & F2 & T2 & I2 & H2 & P2).
  assert (Hsink : errorSink (TypeChecker (conf s)) = errorSink (TypeChecker (conf s2)))
    by (symmetry; apply (frame_sink W s1 s2 F2)).
  change (conf s1) with (conf s) in *. rewrite Hsink in E3.
  apply (runCheck_spec _ _ _ _ _ None) in E3 as (F3 & new & T3 & Q3 & R3);
    [|rewrite H2; simpl; rewrite length_app; simpl; lia].
  assert (F0 : frame W s s1) by (apply frame_alloc; simpl; by intros [? ?]).
  assert (F03 : frame W s s3) by (eapply frame_trans; [|done]; by eapply frame_trans).
  assert (Hlen : length (heap s) < length (heap s3)).
  { pose proof (frame_length _ _ _ F3) as L. rewrite H2 in L. simpl in L.
    rewrite length_app in L. simpl in L. lia. }
  assert (Hp : heap s3 !! length (heap s) = Some i0).
  { apply (frame_heap_lookup W s2 s3 _ _ F3). rewrite H2. simpl.
    by rewrite lookup_app_r, Nat.sub_diag. }
  set (f := λ i, mkPackageInfo (Some r.1) (Importable i) (Files i) r.2) in *.
  split_and!; [done | | |].
  - split.
    + eapply frame_trans; [apply (frame_alter s s3 f (length (heap s))); [| |exact F03]|].
      * intros i _ _. simpl. eauto.
      * done.
      * apply (frame_register W (set_heap (alter f (length (heap s)) (heap s3)) s3)).
        simpl. by rewrite length_alter.
    + exists new. simpl. split; [by rewrite T3, T2|].
      rewrite Hsink. rewrite I2 in Q3. done.
  - apply (fr_imported _ _ _ F03).
  - exists r.1, r.2, new. simpl. split_and!.
    + by rewrite list_lookup_alter_eq, Hp.
    + by rewrite lookup_insert_eq.
    + by rewrite T3, T2.
    + done.
Qed.

End Level.
End Steps.

Section ImportLemmas.
Variable W : Collaborators.

Lemma importFromBinary_spec path s r s' :
  importFromBinary W path s = Ok r s' →
  frame W s s' ∧ trace s' = trace s ++ [EvBinary path] ∧ imported s' = imported s ∧
  match r with
  | (Some p, None) => length (heap s) ≤ p < length (heap s')
  | (None, Some _) => True
  | _ => False
  end.
Proof.
  unfold importFromBinary. intros H.
  inv_bind H as c sc Ec. inv_bind H as u s1 E1.
  set (s1 := set_trace (trace s ++ [EvBinary path]) s) in *.
  inv_bind H as r0 s2 E2.
  apply (callImporter_Ok W) in E2 as (F2 & T2 & I2 & H2 & P2).
  assert (F02 : frame W s s2) by (eapply frame_trans; [apply frame_set_trace | done]).
  destruct r0 as [pkg [e|]].
  { inv_run H. split_and!; try done; by rewrite ?T2, ?I2. }
  inv_bind H as p s3 E3. inv_bind H as u' s4 E4. inv_run H.
  set (s3 := set_heap _ s2) in *.
  split_and!.
  - eapply frame_trans; [done|]. eapply frame_trans.
    + apply (frame_alloc W s2 (mkPackageInfo pkg false [] None)). simpl. by intros [? ?].
    + apply (frame_register W s3). simpl. rewrite length_app. simpl. lia.
  - simpl. by rewrite T2.
  - simpl. by rewrite I2.
  - by rewrite H2.
  - subst s1 s3. simpl in *. rewrite length_app, H2. simpl. lia.
Qed.

Lemma frame_finish s s1 path ii :
  imported s !! path = None →
  frame W (set_imported (<[path := cycleSentinel path]> (imported s)) s) s1 →
  match info ii with
  | Some p => p < length (heap s1)
  | None => is_Some (ierr ii)
  end →
  complete W (conf s) path ii →
  frame W s (set_imported (<[path := ii]> (imported s1)) s1).
Proof.
  intros Hm [I H C Wf K] Hii Hc. simpl in *. split; simpl.
  - apply map_subseteq_spec. intros q x Hq.
    assert (q ≠ path) by congruence.
    rewrite lookup_insert_ne by done.
    apply (lookup_weaken (<[path := cycleSentinel path]> (imported s))); [|done].
    by rewrite lookup_insert_ne.
  - done.
  - done.
  - intros Hw. assert (Hw1 : wf s1).
    { apply Wf. destruct Hw as [P Cc Hh A]. split; simpl; try done.
      intros q x Hq. apply lookup_insert_Some in Hq as [[_ <-]|[_ Hq]]; [by simpl|].
      by apply (Cc q). }
    destruct Hw1 as [P Cc Hh A]. split; simpl; try done.
    intros q x Hq. apply lookup_insert_Some in Hq as [[_ <-]|[_ Hq]]; [done|].
    by apply (Cc q).
  - intros q x Hq Hx. apply lookup_insert_Some in Hx as [[<- <-]|[Hne Hx]]; [done|].
    apply K; [|done]. by rewrite lookup_insert_ne.
Qed.

Section Level.
Variable importPackage' : string → M state (option ptr * option error).
Hypothesis importPackage'_spec :
  ∀ path s r s', importPackage' path s = Ok r s' → importSpec W path s r s'.

Lemma importFromSource__spec path which s r s' :
  importFromSource_ W (doImport_ importPackage') path which s = Ok r s' →
  frame W s s' ∧
  (∃ inner, trace s' = trace s ++ EvParse path which :: inner ∧
            quiet (imported s) (length (heap s)) (errorSink (TypeChecker (conf s))) inner) ∧
  match parsePackageFiles W (build (conf s)) (effFset (conf s)) path which with
  | inr e => r = (None, Some e)
  | inl _ => ∃ p, r = (Some p, None) ∧ length (heap s) ≤ p < length (heap s')
  end.
Proof.
  unfold importFromSource_. intros H.
  inv_bind H as c sc Ec. inv_bind H as fs s1 E1.
  apply liftConf_fset_Ok with (W := W) in E1 as (-> & F1 & T1 & I1 & H1 & P1).
  inv_bind H as u s2 E2. set (s2 := set_trace _ s1) in *.
  assert (F2 : frame W s s2) by (eapply frame_trans; [done | apply frame_set_trace]).
  destruct (parsePackageFiles W (build (conf s)) (effFset (conf s)) path which)
    as [files|e] eqn:EP.
  - inv_bind H as p s3 E3. inv_run H.
    apply (createPackage__spec W _ importPackage'_spec) in E3
      as (-> & [F3 (new & T3 & Q3)] & _ & pkg & e & _ & Hp & _).
    split_and!.
    + by eapply frame_trans.
    + exists new. split; [rewrite T3; simpl; by rewrite T1, <- app_assoc|].
      simpl in Q3. by rewrite I1, H1, (frame_sink _ _ _ F1) in Q3.
    + eexists. split; [done|]. simpl. rewrite H1.
      apply lookup_lt_Some in Hp. simpl in Hp. rewrite H1 in Hp. lia.
  - inv_run H. split_and!; [done | | done].
    exists []. split; [simpl; by rewrite T1|constructor].
Qed.

Lemma importPackage__hit path s ii :
  imported s !! path = Some ii →
  importPackage_ W importPackage' path s =
  Ok (info ii, ierr ii) (set_trace (trace s ++ [EvCall path ii]) s).
Proof. unfold importPackage_, bind, get. by intros ->. Qed.

Lemma importPackage__miss path s r s' :
  imported s !! path = None →
  importPackage_ W importPackage' path s = Ok r s' →
  frame W s s' ∧ imported s' !! path = Some (mkImportInfo r.1 r.2) ∧
  ∃ inner,
    trace s' = trace s ++ constructEvent (conf s) path :: inner
                       ++ [EvCall path (mkImportInfo r.1 r.2)] ∧
    quiet (<[path := cycleSentinel path]> (imported s)) (length (heap s))
          (errorSink (TypeChecker (conf s))) inner.
Proof.
  unfold importPackage_. intros Hc H. inv_bind H as s0 sx E0. rewrite Hc in H.
  inv_bind H as u s0 E0. set (s0 := set_imported _ s) in *.
  inv_bind H as c sc Ec. inv_bind H as r0 s1 E1.
  inv_bind H as u2 s2 E2. set (s2 := set_imported _ s1) in *.
  inv_bind H as u3 s3 E3. inv_bind H as u4 s4 E4. inv_run H.
  assert (∃ inner,
    frame W s0 s1 ∧ trace s1 = trace s ++ constructEvent (conf s) path :: inner ∧
    quiet (imported s0) (length (heap s)) (errorSink (TypeChecker (conf s))) inner ∧
    match info (mkImportInfo r0.1 r0.2) with
    | Some p => length (heap s) ≤ p < length (heap s1)
    | None => is_Some (ierr (mkImportInfo r0.1 r0.2))
    end ∧
    complete W (conf s) path (mkImportInfo r0.1 r0.2))
    as (inner & F1 & T1 & Q1 & Hr & Hcomp).
  { unfold complete, constructEvent. change (conf s0) with (conf s) in E1.
    destruct (loadStrategy (conf s) path) as [which|].
    - apply importFromSource__spec in E1 as (F1 & (inner & T1 & Q1) & R1).
      exists inner. split_and!; try done.
      + change (conf s0) with (conf s) in R1. change (heap s0) with (heap s) in R1.
        destruct (parsePackageFiles _ _ _ _ _); [by destruct R1 as (p & -> & ?)|].
        subst r0. simpl. eauto.
      + change (conf s0) with (conf s) in R1.
        destruct (parsePackageFiles _ _ _ _ _); [by destruct R1 as (p & -> & ?)|].
        by subst r0.
    - apply importFromBinary_spec in E1 as (F1 & T1 & I1 & R1).
      exists []. split_and!; try done.
      + constructor.
      + destruct r0 as [[p|] [e|]]; simpl; try done; eauto. }
  assert (F2 : frame W s s2).
  { apply frame_finish; try done. destruct (info _); [lia | done]. }
  assert (F3 : frame W s s3).
  { unfold markImportable in E3. destruct (r0.1) as [a|] eqn:Er.
    - inv_run E3. apply (frame_alter W s s2 _ a); [by simpl | | done]. simpl in Hr. lia.
    - by inv_run E3. }
  assert (Hs3 : trace s3 = trace s1 ∧ imported s3 = imported s2).
  { unfold markImportable in E3. destruct (r0.1); by inv_run E3. }
  destruct Hs3 as [T3 I3]. split_and!.
  - eapply frame_trans; [done | apply frame_set_trace].
  - simpl. rewrite I3. simpl. by rewrite lookup_insert_eq.
  - exists inner. split; [|done].
    simpl. by rewrite T3, T1, <- app_assoc.
Qed.

Lemma importPackage__spec path s r s' :
  importPackage_ W importPackage' path s = Ok r s' → importSpec W path s r s'.
Proof.
  intros H. destruct (imported s !! path) as [ii|] eqn:Hc.
  - rewrite (importPackage__hit _ _ _ Hc) in H. inv_run H. split.
    + apply emit_extN. simpl. congruence.
    + simpl. by destruct ii.
  - apply importPackage__miss in H as (F & L & inner & T & Q); [|done].
    split; [|done]. split; [done|].
    eexists. split; [done|].
    constructor; [unfold constructEvent; by destruct (loadStrategy _ _)|].
    apply Forall_app. split.
    + eapply quiet_mono; [by apply insert_subseteq | reflexivity | done].
    + constructor; [|constructor]. simpl. congruence.
Qed.

End Level.

(** ** The whole recursion *)

Lemma importPackage_spec fuel : ∀ path s r s',
  importPackage W fuel path s = Ok r s' → importSpec W path s r s'.
Proof.
  induction fuel as [|n IH]; intros path s r s' H; [done|].
  by eapply importPackage__spec.
Qed.

Lemma importPackage_hit n path s ii :
  imported s !! path = Some ii →
  importPackage W (S n) path s =
  Ok (info ii, ierr ii) (set_trace (trace s ++ [EvCall path ii]) s).
Proof. apply importPackage__hit. Qed.

Lemma importPackage_miss n path s r s' :
  imported s !! path = None →
  importPackage W (S n) path s = Ok r s' →
  frame W s s' ∧ imported s' !! path = Some (mkImportInfo r.1 r.2) ∧
  ∃ inner,
    trace s' = trace s ++ constructEvent (conf s) path :: inner
                       ++ [EvCall path (mkImportInfo r.1 r.2)] ∧
    quiet (<[path := cycleSentinel path]> (imported s)) (length (heap s))
          (errorSink (TypeChecker (conf s))) inner.
Proof. apply importPackage__miss, importPackage_spec. Qed.

Lemma doImport_ext fuel imports path s r s' :
  doImport W fuel imports path s = Ok r s' → ext W s s'.
Proof. apply doImport__ext, importPackage_spec. Qed.

Lemma createPackage_spec fuel path files s p s' :
  createPackage W fuel path files s = Ok p s' →
  p = length (heap s) ∧ ext W s s' ∧ imported s ⊆ imported s' ∧
  ∃ pkg e new,
    heap s' !! p = Some (mkPackageInfo (Some pkg) false files e) ∧
    AllPackages (prog s') !! Some pkg = Some p ∧
    trace s' = trace s ++ new ∧
    (reportsFirst None (checkerOf W s path files) → e = head (ownDiags p new)).
Proof. apply createPackage__spec, importPackage_spec. Qed.

End ImportLemmas.

Lemma total_bind {St A B} (m : M St A) (k : A → M St B) s :
  (∃ a s1, m s = Ok a s1 ∧ total (k a) s1) → total (bind m k) s.
Proof. intros (a & s1 & E & b & s2 & H). exists b, s2. unfold bind. by rewrite E. Qed.

Lemma total_ret {St A} (a : A) (s : St) : total (ret a) s.
Proof. by eexists _, _. Qed.

Section Termination.
Variable W : Collaborators.
Variable U : gset string.
Hypothesis sources : sourcesWithin W U.

Lemma pending_frame s s' : frame W s s' → pending U s' ≤ pending U s.
Proof.
  intros [I _ _ _ _]. apply subseteq_size.
  apply subseteq_dom in I. set_solver.
Qed.

Lemma pending_insert s path x :
  imported s !! path = None → path ∈ U →
  pending U (set_imported (<[path := x]> (imported s)) s) < pending U s.
Proof.
  intros Hn HU. apply subset_size. unfold pending. simpl. rewrite dom_insert_L.
  apply not_elem_of_dom in Hn. set_solver.
Qed.

Section Level.
Variable n : nat.
Variable importPackage' : string → M state (option ptr * option error).
Hypothesis importPackage'_spec :
  ∀ path s r s', importPackage' path s = Ok r s' → importSpec W path s r s'.
Hypothesis importPackage'_total :
  ∀ path s, wf s → pending U s < n → total (importPackage' path) s.

Lemma doImport__total path s :
  wf s → pending U s < n → total (doImport_ importPackage' PackagesMap path) s.
Proof.
  intros Hw Hp. unfold doImport_.
  destruct (decide (path = "unsafe")) as [Hu|Hu]; [apply total_ret|].
  destruct (importPackage'_total path s Hw Hp) as (r & s1 & E).
  apply total_bind. exists r, s1. split; [done|].
  apply importPackage'_spec in E as [[F _] L].
  pose proof (fr_wf _ _ _ F Hw) as Hw1.
  destruct (r.2) as [e|] eqn:Er; [apply total_ret|].
  pose proof (wf_cache _ Hw1 _ _ L) as Hc. simpl in Hc.
  destruct (r.1) as [a|]; [|by destruct Hc].
  apply lookup_lt_is_Some in Hc as [i Hi].
  apply total_bind. exists i, s1. split; [unfold deref; by rewrite Hi|].
  destruct (wf_packages _ Hw1) as [m Hm].
  apply total_bind. eexists tt, _. split; [unfold mapStore; by rewrite Hm|].
  apply total_ret.
Qed.

Lemma runCheck_total p sink c : ∀ s,
  wf s → pending U s < n →
  total (runCheck (doImport_ importPackage') (λ e, emit (EvDiag p sink e)) c) s.
Proof.
  induction c as [pkg e|e k IH|path k IH]; intros s Hw Hp; simpl.
  - apply total_ret.
  - apply total_bind. eexists tt, _. split; [done|].
    apply IH; [|done]. by apply (fr_wf W s _ (frame_set_trace W s _)).
  - destruct (doImport__total path s Hw Hp) as (r & s1 & E).
    apply total_bind. exists r, s1. split; [done|].
    apply (doImport__ext W _ importPackage'_spec) in E as [F _].
    apply IH; [by apply (fr_wf _ _ _ F)|].
    pose proof (pending_frame _ _ F). lia.
Qed.

Lemma createPackage__total path files s :
  wf s → pending U s < n →
  total (createPackage_ W (doImport_ importPackage') path files) s.
Proof.
  intros Hw Hp. unfold createPackage_.
  apply total_bind. eexists _, _. split; [done|].
  set (s1 := set_heap _ s).
  assert (F1 : frame W s s1) by (apply frame_alloc; simpl; by intros [? ?]).
  apply total_bind. eexists _, _. split; [done|].
  destruct (liftConf fset s1) as [fs s2| |] eqn:E2;
    [|unfold liftConf, fset in E2; by destruct (Fset (conf s1))..].
  apply total_bind. exists fs, s2. split; [done|].
  apply (liftConf_fset_Ok W) in E2 as (_ & F2 & _).
  assert (F02 : frame W s s2) by (by eapply frame_trans).
  destruct (runCheck_total (length (heap s)) (errorSink (TypeChecker (conf s1)))
              (types_Check W
                 match TypeCheckFuncBodies (conf s1) with
                 | Some f => negb (f path)
                 | None => false
                 end path fs files) s2) as (r & s3 & E3).
  { by apply (fr_wf _ _ _ F02). }
  { pose proof (pending_frame _ _ F02). lia. }
  apply total_bind. exists r, s3. split; [done|].
  apply total_bind. eexists tt, _. split; [done|].
  apply total_bind. eexists tt, _. split; [done|].
  apply total_ret.
Qed.

Lemma importFromSource__total path which s :
  wf s →
  (is_Some (imported s !! path) ∧ pending U s < n ∨
   ∃ e, parsePackageFiles W (build (conf s)) (effFset (conf s)) path which = inr e) →
  total (importFromSource_ W (doImport_ importPackage') path which) s.
Proof.
  intros Hw HP. unfold importFromSource_.
  apply total_bind. eexists _, _. split; [done|].
  destruct (liftConf fset s) as [fs s1| |] eqn:E1;
    [|unfold liftConf, fset in E1; by destruct (Fset (conf s))..].
  apply total_bind. exists fs, s1. split; [done|].
  apply (liftConf_fset_Ok W) in E1 as (-> & F1 & _).
  apply total_bind. eexists tt, _. split; [done|].
  set (s2 := set_trace _ s1).
  destruct (parsePackageFiles _ _ _ _ _) as [files|e] eqn:EP; [|apply total_ret].
  destruct HP as [[_ HP]|[e HP]]; [|done].
  assert (F2 : frame W s s2) by (eapply frame_trans; [done | apply frame_set_trace]).
  destruct (createPackage__total path files s2) as (p & s3 & E3).
  { by apply (fr_wf _ _ _ F2). }
  { pose proof (pending_frame _ _ F2). lia. }
  apply total_bind. exists p, s3. split; [done|]. apply total_ret.
Qed.

Lemma importFromBinary_total path s : wf s → total (importFromBinary W path) s.
Proof.
  intros Hw. unfold importFromBinary.
  apply total_bind. eexists _, _. split; [done|].
  apply total_bind. eexists tt, _. split; [done|].
  set (s1 := set_trace _ s).
  set (fn := match go_types.Import (TypeChecker (conf s)) with
             | Some f => f
             | None => gcimporter_Import W
             end).
  destruct (wf_packages _ Hw) as [m Hm].
  destruct (fn m path) as [m' r] eqn:Ef.
  apply total_bind. exists r, (set_conf (set_Packages (Some m') (conf s1)) s1).
  split; [unfold callImporter; change (conf s1) with (conf s); by rewrite Hm, Ef|].
  destruct r as [pkg [e|]]; [apply total_ret|].
  apply total_bind. eexists _, _. split; [done|].
  apply total_bind. eexists tt, _. split; [done|].
  apply total_ret.
Qed.

Lemma wf_sentinel s path :
  wf s → wf (set_imported (<[path := cycleSentinel path]> (imported s)) s).
Proof.
  intros [P C H A]. split; simpl; try done.
  intros q x Hq. apply lookup_insert_Some in Hq as [[_ <-]|[_ Hq]]; [by simpl|].
  by apply (C q).
Qed.

Lemma importPackage__total path s :
  wf s → pending U s ≤ n → total (importPackage_ W importPackage' path) s.
Proof.
  intros Hw Hp. destruct (imported s !! path) as [ii|] eqn:Hc.
  { eexists _, _. by apply importPackage__hit. }
  unfold importPackage_.
  apply total_bind. eexists _, _. split; [done|]. rewrite Hc.
  apply total_bind. eexists tt, _. split; [done|].
  set (s0 := set_imported _ s).
  assert (Hw0 : wf s0) by (by apply wf_sentinel).
  apply total_bind. eexists _, _. split; [done|].
  assert (total (match loadStrategy (conf s0) path with
                 | Some which => importFromSource_ W (doImport_ importPackage') path which
                 | None => importFromBinary W path
                 end) s0) as (r & s1 & E1).
  { destruct (loadStrategy (conf s0) path) as [which|];
      [|by apply importFromBinary_total].
    apply importFromSource__total; [done|].
    destruct (parsePackageFiles W (build (conf s0)) (effFset (conf s0)) path which)
      as [files|e] eqn:EP; [left|right; eauto].
    split; [subst s0; simpl; rewrite lookup_insert_eq; eauto|].
    apply sources in EP.
    pose proof (pending_insert s path (cycleSentinel path) Hc EP). subst s0. lia. }
  apply total_bind. exists r, s1. split; [done|].
  apply total_bind. eexists tt, _. split; [done|].
  apply total_bind. unfold markImportable.
  destruct (r.1) as [a|];
    (eexists tt, _; split; [done|];
     apply total_bind; eexists tt, _; split; [done|]; apply total_ret).
Qed.

End Level.

Lemma importPackage_total fuel : ∀ path s,
  wf s → pending U s < fuel → total (importPackage W fuel path) s.
Proof.
  induction fuel as [|n IH]; intros path s Hw Hp; [lia|].
  apply (importPackage__total n); [apply importPackage_spec | done | done | lia].
Qed.

Lemma createPackage_total fuel path files s :
  wf s → pending U s < fuel → total (createPackage W fuel path files) s.
Proof.
  apply createPackage__total; [apply importPackage_spec | apply importPackage_total].
Qed.

End Termination.

Section LoadLemmas.
Variable W : Collaborators.

Lemma wf_loadStart c : wf (loadStart c).
Proof.
  unfold loadStart. split; simpl.
  - destruct (Packages c) as [m|] eqn:E.
    + unfold Packages in *. simpl. by rewrite E.
    + by eexists.
  - intros q ii H. by rewrite lookup_empty in H.
  - intros p i H. by rewrite lookup_nil in H.
  - intros k p H. by rewrite lookup_empty in H.
Qed.

Lemma importLoop_spec fuel entries : ∀ s r s',
  importLoop W fuel entries s = Ok r s' →
  frame W s s' ∧
  match r with
  | Some e => ∃ q i, q ∈ entries.*1 ∧ imported s' !! q = Some (mkImportInfo i (Some e))
  | None => ∀ q, q ∈ entries.*1 → ∃ ii, imported s' !! q = Some ii ∧ ierr ii = None
  end.
Proof.
  induction entries as [|[path aug] rest IH]; intros s r s' H; simpl in H.
  { inv_run H. split; [apply frame_refl|]. intros q Hq. by apply elem_of_nil in Hq. }
  inv_bind H as r0 s1 E1.
  apply importPackage_spec in E1 as [[F1 _] L1].
  destruct (r0.2) as [e|] eqn:Er.
  { inv_run H. split; [done|]. exists path, r0.1. split; [|done].
    simpl. apply list_elem_of_here. }
  inv_bind H as u s2 E2. set (s2 := set_prog _ s1) in *.
  apply IH in H as [F2 R].
  assert (F02 : frame W s s2).
  { eapply frame_trans; [done|]. by apply frame_set_prog_other. }
  split; [by eapply frame_trans|].
  destruct r as [e|].
  - destruct R as (q & i & Hq & Hi). exists q, i. split; [|done].
    simpl. by apply list_elem_of_further.
  - intros q Hq. simpl in Hq. apply elem_of_cons in Hq as [->|Hq]; [|by apply R].
    exists (mkImportInfo r0.1 None). split; [|done].
    by apply (frame_lookup W s2 s' _ _ F2).
Qed.

Lemma createLoop_spec fuel pkgs : ∀ s r s',
  createLoop W fuel pkgs s = Ok r s' → frame W s s'.
Proof.
  induction pkgs as [|files rest IH]; intros s r s' H; simpl in H.
  { inv_run H. apply frame_refl. }
  inv_bind H as c sc Ec.
  destruct (packageName W files (Fset (conf s))) as [pkgname|e].
  - inv_bind H as p s1 E1. inv_bind H as u s2 E2. set (s2 := set_prog _ s1) in *.
    apply createPackage_spec in E1 as (_ & [F1 _] & _).
    apply IH in H. eapply frame_trans; [done|].
    eapply frame_trans; [|done]. by apply frame_set_prog_other.
  - inv_run H. apply frame_refl.
Qed.

Lemma loadInitial_spec fuel ord s r s' :
  loadInitial W fuel ord s = Ok r s' → frame W s s'.
Proof.
  unfold loadInitial. intros H. inv_bind H as c sc Ec. inv_bind H as r0 s1 E1.
  apply importLoop_spec in E1 as [F1 _]. destruct r0 as [e|].
  - by inv_run H.
  - inv_bind H as c1 sc1 Ec1. apply createLoop_spec in H. by eapply frame_trans.
Qed.

Lemma scanErrors_spec entries : ∀ s errpkgs s',
  scanErrors entries s = Ok errpkgs s' →
  s' = s ∧ errpkgs = omap (λ kp, errorPath s kp.2) entries.
Proof.
  induction entries as [|[k p] rest IH]; intros s errpkgs s' H; simpl in H.
  { by inv_run H. }
  inv_bind H as i s1 E1. apply deref_Ok in E1 as (-> & a & [= <-] & Hi).
  unfold errorPath at 1. simpl. rewrite Hi.
  destruct (err i) as [e|].
  - destruct (Pkg i) as [pkg|]; [|done]. inv_bind H as l s2 E2. inv_run H.
    apply IH in E2 as [-> ->]. done.
  - by apply IH in H.
Qed.

Lemma scanErrors_total entries s :
  wf s → (∀ kp, kp ∈ entries → kp.2 < length (heap s)) → total (scanErrors entries) s.
Proof.
  intros Hw. induction entries as [|[k p] rest IH]; intros Hl; simpl.
  { apply total_ret. }
  assert (Hp : p < length (heap s)) by (apply (Hl (k, p)), list_elem_of_here).
  apply lookup_lt_is_Some in Hp as [i Hi].
  assert (IH' : total (scanErrors rest) s).
  { apply IH. intros kp Hkp. by apply Hl, list_elem_of_further. }
  apply total_bind. exists i, s. split; [unfold deref; by rewrite Hi|].
  destruct (err i) as [e|] eqn:Ee; [|done].
  destruct (wf_heap _ Hw _ _ Hi) as [pkg ->]; [by rewrite Ee|].
  destruct IH' as (l & s1 & E). apply total_bind. exists l, s1. split; [done|].
  apply total_ret.
Qed.

Lemma fillLoop_spec entries : ∀ s u s', fillLoop entries s = Ok u s' → frame W s s'.
Proof.
  induction entries as [|[path obj] rest IH]; intros s u s' H; simpl in H.
  { inv_run H. apply frame_refl. }
  inv_bind H as s0 sx E0. inv_bind H as u1 s1 E1. apply IH in H.
  eapply frame_trans; [|done].
  destruct (AllPackages (prog s) !! obj) as [p|].
  - inv_run E1. apply frame_refl.
  - inv_bind E1 as p s2 E2. inv_run E1.
    set (i := mkPackageInfo obj true [] None) in *.
    eapply frame_trans; [apply (frame_alloc W s i); simpl; by intros [? ?]|].
    apply (frame_register W (set_heap (heap s ++ [i]) s)).
    simpl. rewrite length_app. simpl. lia.
Qed.

Lemma fillLoop_total entries : ∀ s, total (fillLoop entries) s.
Proof.
  induction entries as [|[path obj] rest IH]; intros s; simpl.
  { apply total_ret. }
  apply total_bind. eexists _, _. split; [done|].
  apply total_bind.
  destruct (AllPackages (prog s) !! obj) as [p|].
  - eexists tt, _. split; [done|]. apply IH.
  - eexists tt, _. split; [done|]. apply IH.
Qed.

Lemma loadFinish_frame ord s r s' : loadFinish ord s = Ok r s' → frame W s s'.
Proof.
  unfold loadFinish. intros H. inv_bind H as s0 sx E0.
  case_bool_decide.
  { inv_run H. apply frame_refl. }
  inv_bind H as errpkgs s1 E1. apply scanErrors_spec in E1 as [-> _].
  destruct errpkgs as [|x l].
  - inv_bind H as u s2 E2. inv_bind H as s3 sy E3. inv_run H.
    by apply fillLoop_spec in E2.
  - inv_run H. apply frame_refl.
Qed.

Lemma Load_frame fuel ord c r s' :
  Load W fuel ord c = Ok r s' → frame W (loadStart c) s'.
Proof.
  unfold Load. intros H. inv_bind H as r0 s1 E1. apply loadInitial_spec in E1.
  destruct r0 as [e|].
  - by inv_run H.
  - apply loadFinish_frame in H. by eapply frame_trans.
Qed.

(** ** Termination of the loops *)

Section Finite.
Variable U : gset string.
Hypothesis sources : sourcesWithin W U.

Lemma importLoop_total fuel entries : ∀ s,
  wf s → pending U s < fuel → total (importLoop W fuel entries) s.
Proof.
  induction entries as [|[path aug] rest IH]; intros s Hw Hp; simpl.
  { apply total_ret. }
  destruct (importPackage_total W U sources fuel path s Hw Hp) as (r & s1 & E).
  apply total_bind. exists r, s1. split; [done|].
  apply importPackage_spec in E as [[F _] _].
  destruct (r.2) as [e|]; [apply total_ret|].
  apply total_bind. eexists tt, _. split; [done|].
  set (s2 := set_prog _ s1).
  assert (F2 : frame W s s2).
  { eapply frame_trans; [done|]. by apply frame_set_prog_other. }
  apply IH; [by apply (fr_wf _ _ _ F2)|].
  pose proof (pending_frame W U sources _ _ F2). lia.
Qed.

Lemma createLoop_total fuel pkgs : ∀ s,
  wf s → pending U s < fuel → total (createLoop W fuel pkgs) s.
Proof.
  induction pkgs as [|files rest IH]; intros s Hw Hp; simpl.
  { apply total_ret. }
  apply total_bind. eexists _, _. split; [done|].
  destruct (packageName W files (Fset (conf s))) as [pkgname|e]; [|apply total_ret].
  destruct (createPackage_total W U sources fuel pkgname files s Hw Hp) as (p & s1 & E).
  apply total_bind. exists p, s1. split; [done|].
  apply createPackage_spec in E as (_ & [F _] & _).
  apply total_bind. eexists tt, _. split; [done|].
  set (s2 := set_prog _ s1).
  assert (F2 : frame W s s2).
  { eapply frame_trans; [done|]. by apply frame_set_prog_other. }
  apply IH; [by apply (fr_wf _ _ _ F2)|].
  pose proof (pending_frame W U sources _ _ F2). lia.
Qed.

Lemma loadFinish_total ord s : validOrder ord → wf s → total (loadFinish ord) s.
Proof.
  intros (_ & HA & _) Hw. unfold loadFinish.
  apply total_bind. eexists _, _. split; [done|].
  case_bool_decide; [apply total_ret|].
  destruct (scanErrors_total (rangeAllPackages ord (AllPackages (prog s))) s Hw)
    as (errpkgs & s1 & E).
  { intros [k p] Hkp. simpl. rewrite (HA _) in Hkp.
    apply elem_of_map_to_list in Hkp. by eapply wf_all. }
  apply total_bind. exists errpkgs, s1. split; [done|].
  destruct errpkgs; [|apply total_ret].
  destruct (fillLoop_total (rangeImportMap ord (ImportMap s)) s1) as (u & s2 & E2).
  apply total_bind. exists u, s2. split; [done|].
  apply total_bind. eexists _, _. split; [done|]. apply total_ret.
Qed.

Lemma pending_loadStart c : pending U (loadStart c) = size U.
Proof.
  unfold pending, loadStart. simpl. rewrite dom_empty_L.
  f_equal. set_solver.
Qed.

Lemma Load_total fuel ord c :
  validOrder ord → size U < fuel → ∃ r s', Load W fuel ord c = Ok r s'.
Proof.
  intros Hord Hfuel. unfold Load.
  assert (Hw : wf (loadStart c)) by apply wf_loadStart.
  assert (Hp : pending U (loadStart c) < fuel) by (by rewrite pending_loadStart).
  set (s0 := loadStart c) in *.
  assert (total (loadInitial W fuel ord) s0) as (r & s1 & E).
  { unfold loadInitial. apply total_bind. eexists _, _. split; [done|].
    destruct (importLoop_total fuel (rangeImportPkgs ord (importPkgs (conf s0))) s0 Hw Hp)
      as (r & s1 & E).
    apply total_bind. exists r, s1. split; [done|].
    apply importLoop_spec in E as [F _].
    destruct r as [e|]; [apply total_ret|].
    apply total_bind. eexists _, _. split; [done|].
    apply createLoop_total; [by apply (fr_wf _ _ _ F)|].
    pose proof (pending_frame W U sources _ _ F). lia. }
  apply total_bind. exists r, s1. split; [done|].
  destruct r as [e|]; [apply total_ret|].
  apply loadFinish_total; [done|].
  apply loadInitial_spec in E. by apply (fr_wf _ _ _ E).
Qed.

End Finite.
End LoadLemmas.

Section LoadStart.

Lemma loadStart_conf c :
  ImportPkgs (conf (loadStart c)) = ImportPkgs c ∧
  SourceImports (conf (loadStart c)) = SourceImports c ∧
  Build (conf (loadStart c)) = Build c ∧
  CreatePkgs (conf (loadStart c)) = CreatePkgs c ∧
  TypeCheckFuncBodies (conf (loadStart c)) = TypeCheckFuncBodies c ∧
  go_types.Error (TypeChecker (conf (loadStart c))) = go_types.Error (TypeChecker c) ∧
  go_types.Import (TypeChecker (conf (loadStart c))) = go_types.Import (TypeChecker c) ∧
  go_types.IgnoreFuncBodies (TypeChecker (conf (loadStart c))) =
    go_types.IgnoreFuncBodies (TypeChecker c) ∧
  Fset (conf (loadStart c)) = Some (effFset c) ∧
  is_Some (Packages (conf (loadStart c))).
Proof.
  destruct c as [fs [ig er im pk] tcfb si b cp ip].
  unfold loadStart, effFset, Packages. simpl.
  destruct pk as [m|], fs as [f|]; simpl; split_and!; eauto.
Qed.

Lemma loadStart_strategy c q : loadStrategy (conf (loadStart c)) q = loadStrategy c q.
Proof.
  destruct (loadStart_conf c) as (HI & HS & _).
  unfold loadStrategy, importPkgs. by rewrite HI, HS.
Qed.

Lemma loadStart_build c : build (conf (loadStart c)) = build c.
Proof. destruct (loadStart_conf c) as (_ & _ & HB & _). unfold build. by rewrite HB. Qed.

Lemma loadStart_effFset c : effFset (conf (loadStart c)) = effFset c.
Proof.
  destruct (loadStart_conf c) as (_ & _ & _ & _ & _ & _ & _ & _ & HF & _).
  unfold effFset at 1. by rewrite HF.
Qed.

End LoadStart.


Lemma demo_sources : sourcesWithin demo (dom demoSources).
Proof.
  intros b fs q which files H. simpl in H. unfold demoParse in H.
  apply elem_of_dom. destruct (demoSources !! q); [by eexists | done].
Qed.


Section ErrorPaths.

Lemma errorPaths_spec s path :
  wf s →
  path ∈ errorPaths s ↔
  ∃ k p i pkg, AllPackages (prog s) !! k = Some p ∧ heap s !! p = Some i ∧
               is_Some (err i) ∧ Pkg i = Some pkg ∧ go_types.Path pkg = path.
Proof.
  intros Hw. unfold errorPaths. rewrite list_elem_of_omap. split.
  - intros ([k p] & Hkp & Hf). apply elem_of_map_to_list in Hkp.
    unfold errorPath in Hf. simpl in Hf.
    destruct (heap s !! p) as [i|] eqn:Hi; [|done].
    destruct (err i) as [e|] eqn:He; [|done].
    destruct (Pkg i) as [pkg|] eqn:Hp; [|done]. injection Hf as <-.
    exists k, p, i, pkg. split_and!; try done; by rewrite He.
  - intros (k & p & i & pkg & Hk & Hi & [e He] & Hp & <-).
    exists (k, p). split; [by apply elem_of_map_to_list|].
    unfold errorPath. simpl. by rewrite Hi, He, Hp.
Qed.

Lemma errorPaths_nil s : wf s → errorPaths s = [] ↔ noErrors s.
Proof.
  intros Hw. split.
  - intros Hnil k p i Hk Hi. destruct (err i) as [e|] eqn:He; [|done].
    destruct (wf_heap _ Hw _ _ Hi) as [pkg Hp]; [by rewrite He|].
    assert (go_types.Path pkg ∈ errorPaths s) as Hin.
    { apply errorPaths_spec; [done|]. exists k, p, i, pkg. by rewrite He. }
    rewrite Hnil in Hin. by apply elem_of_nil in Hin.
  - intros Hno. destruct (errorPaths s) as [|path l] eqn:E; [done|].
    assert (path ∈ errorPaths s) as Hin by (rewrite E; apply list_elem_of_here).
    apply errorPaths_spec in Hin as (k & p & i & pkg & Hk & Hi & [e He] & _); [|done].
    rewrite (Hno _ _ _ Hk Hi) in He. done.
Qed.

End ErrorPaths.


(** ** The test-augmentation policy *)

Section Augment.
Variable W : Collaborators.

Lemma anyAugmented_true l : anyAugmented l = true ↔ ∃ p, (p, true) ∈ l.
Proof.
  induction l as [|[q a] l IH]; simpl.
  - split; [done|]. intros [p Hp]. by apply elem_of_nil in Hp.
  - destruct a.
    + split; [|done]. intros _. exists q. apply list_elem_of_here.
    + rewrite IH. split.
      * intros [p Hp]. exists p. by apply list_elem_of_further.
      * intros [p Hp]. apply elem_of_cons in Hp as [[=]|Hp]. by exists p.
Qed.

Lemma anyAugmented_map (m : gmap string bool) :
  anyAugmented (map_to_list m) = true ↔ ∃ p, m !! p = Some true.
Proof.
  rewrite anyAugmented_true. by setoid_rewrite elem_of_map_to_list.
Qed.

Lemma anyAugmented_map_false (m : gmap string bool) :
  anyAugmented (map_to_list m) = false ↔ ∀ p, m !! p ≠ Some true.
Proof.
  split.
  - intros Hf p Hp. assert (anyAugmented (map_to_list m) = true) by
      (apply anyAugmented_map; eauto). congruence.
  - intros Hn. destruct (anyAugmented (map_to_list m)) eqn:E; [|done].
    apply anyAugmented_map in E as [p Hp]. by destruct (Hn p).
Qed.

(** What a call of [ImportWithTests] for a real path does. *)
Lemma ImportWithTests_cases path c r c' :
  path ≠ "unsafe" →
  ImportWithTests W path c = Ok r c' →
  let m := <[path := false]> (importPkgs c) in
  (∃ q, m !! q = Some true) ∧ r = None ∧ c' = set_ImportPkgs (Some m) c
  ∨ (∀ q, m !! q ≠ Some true) ∧
    ((∃ e, parsePackageFiles W (build c) (effFset c) path "x" = inr e ∧ r = Some e ∧
           importPkgs c' = m ∧ CreatePkgs c' = CreatePkgs c)
     ∨ (∃ xtestFiles,
          parsePackageFiles W (build c) (effFset c) path "x" = inl xtestFiles ∧ r = None ∧
          importPkgs c' = <[path := true]> m ∧
          CreatePkgs c' = CreatePkgs c ++
            (if bool_decide (0 < length xtestFiles) then [xtestFiles] else []))).
Proof.
  intros Hu H. cbv zeta. unfold ImportWithTests in H. rewrite decide_False in H by done.
  unfold Import in H. rewrite decide_False in H by done.
  inv_bind H as u c1 E1. inv_bind H as c0 cx E0.
  set (m := <[path := false]> (importPkgs c)) in *.
  set (c1 := set_ImportPkgs (Some m) c) in *.
  change (importPkgs c1) with m in H.
  destruct (anyAugmented (map_to_list m)) eqn:Ea.
  { inv_run H. left. by apply anyAugmented_map in Ea. }
  right. split; [by apply anyAugmented_map_false|].
  inv_bind H as fs c2 E2. apply fset_Ok in E2 as (-> & HC & HF).
  change (build c1) with (build c) in H. change (effFset c1) with (effFset c) in H.
  pose proof (confExt_fields _ _ HC) as (HI & _ & _ & HCp & _).
  destruct (parsePackageFiles W (build c) (effFset c) path "x") as [xs|e].
  - right. exists xs. split; [done|].
    inv_bind H as u1 c3 E3. inv_bind H as u2 c4 E4. inv_run H.
    case_bool_decide.
    + unfold CreateFromFiles in E3. rewrite HF in E3. inv_run E3.
      split_and!; [done | |].
      * unfold importPkgs at 1. simpl. unfold importPkgs. simpl. by rewrite HI.
      * simpl. by rewrite HCp.
    + inv_run E3. split_and!; [done | |].
      * unfold importPkgs at 1. simpl. unfold importPkgs. by rewrite HI.
      * simpl. by rewrite HCp, app_nil_r.
  - left. exists e. inv_run H. split_and!; try done.
    unfold importPkgs. by rewrite HI.
Qed.

Lemma Import_atMostOne path c u c' :
  atMostOneAugmented (importPkgs c) → Import path c = Ok u c' →
  atMostOneAugmented (importPkgs c').
Proof.
  intros Hc H. unfold Import in H. case_decide; inv_run H; [done|].
  intros p q Hp Hq. unfold importPkgs in Hp, Hq. simpl in Hp, Hq.
  apply lookup_insert_Some in Hp as [[_ [=]]|[_ Hp]].
  apply lookup_insert_Some in Hq as [[_ [=]]|[_ Hq]]. by apply Hc.
Qed.

Lemma ImportWithTests_atMostOne path c r c' :
  atMostOneAugmented (importPkgs c) → ImportWithTests W path c = Ok r c' →
  atMostOneAugmented (importPkgs c').
Proof.
  intros Hc H. destruct (decide (path = "unsafe")) as [->|Hu].
  { by injection H as <- <-. }
  assert (Hm : atMostOneAugmented (<[path := false]> (importPkgs c))).
  { intros p q Hp Hq.
    apply lookup_insert_Some in Hp as [[_ [=]]|[_ Hp]].
    apply lookup_insert_Some in Hq as [[_ [=]]|[_ Hq]]. by apply Hc. }
  apply ImportWithTests_cases in H as [(_ & _ & ->)|[Hn [(e & _ & _ & -> & _)|(xs & _ & _ & -> & _)]]];
    try done.
  intros p q Hp Hq.
  apply lookup_insert_Some in Hp as [[<- _]|[_ Hp]]; [|by destruct (Hn p)].
  apply lookup_insert_Some in Hq as [[<- _]|[_ Hq]]; [done|by destruct (Hn q)].
Qed.

End Augment.


Lemma append_assoc (s1 s2 s3 : string) : (s1 +:+ s2) +:+ s3 = s1 +:+ s2 +:+ s3.
Proof.
  induction s1 as [|a s1 IH]; [reflexivity|].
  change (String a ((s1 +:+ s2) +:+ s3) = String a (s1 +:+ s2 +:+ s3)).
  by rewrite IH.
Qed.

Lemma cycle_diagnostic_mentions A :
  Mentions "import cycle" (couldNotImport A (cycleError A)).
Proof.
  exists ("could not import " +:+ A +:+ " ("), (" in package " +:+ A +:+ ")").
  unfold couldNotImport, cycleError. rewrite !append_assoc. reflexivity.
Qed.

Section Forward.
Variable W : Collaborators.

Lemma liftConf_fset_Some s f : Fset (conf s) = Some f → liftConf fset s = Ok f s.
Proof. destruct s as [c ? ? ? ?]. unfold liftConf, fset. simpl. by intros ->. Qed.

Lemma runCheck_reportAll doImp Err p snk pkg errors :
  (∀ e s, Err e s = Ok tt (set_trace (trace s ++ [EvDiag p snk e]) s)) →
  ∀ first s,
  runCheck doImp Err (reportAll pkg first errors) s =
  Ok (pkg, match first with Some f => Some f | None => head errors end)
     (set_trace (trace s ++ (EvDiag p snk <$> errors)) s).
Proof.
  intros HErr. induction errors as [|e errors IH]; intros first s; simpl.
  - unfold ret. rewrite app_nil_r. destruct s, first; reflexivity.
  - unfold bind. rewrite HErr, IH. simpl. rewrite <- app_assoc.
    by destruct first.
Qed.

End Forward.

Section Cycle.
Variable W : Collaborators.
Variables A B : string.
Variables fA fB : list go_ast.File.
Variables pkgA pkgB : go_types.Package.
Variables errsA errsB : list error.
Variable c : Config.
Variable aug : bool.
Hypothesis AB : A ≠ B.
Hypothesis Aunsafe : A ≠ "unsafe".
Hypothesis Bunsafe : B ≠ "unsafe".
Hypothesis parseA :
  parsePackageFiles W (build c) (effFset c) A (if aug then "gt" else "g") = inl fA.
Hypothesis parseB : parsePackageFiles W (build c) (effFset c) B "g" = inl fB.
Hypothesis checkA :
  ∀ ig fs, types_Check W ig A fs fA = importingChecker pkgA None [B] errsA.
Hypothesis checkB :
  ∀ ig fs, types_Check W ig B fs fB = importingChecker pkgB None [A] errsB.

(** The import of [B] while [A] is under construction. *)
Lemma import_B n s :
  imported s !! A = Some (cycleSentinel A) →
  imported s !! B = None →
  loadStrategy (conf s) B = Some "g" →
  Fset (conf s) = Some (effFset c) →
  build (conf s) = build c →
  ∃ s',
    importPackage W (S (S n)) B s = Ok (Some (length (heap s)), None) s' ∧
    conf s' = conf s ∧
    length (heap s') = S (length (heap s)) ∧
    (∀ p, p < length (heap s) → heap s' !! p = heap s !! p) ∧
    heap s' !! length (heap s) =
      Some (mkPackageInfo (Some pkgB) true fB (Some (couldNotImport A (cycleError A)))) ∧
    prog s' = set_AllPackages (<[Some pkgB := length (heap s)]> (AllPackages (prog s)))
                              (prog s) ∧
    imported s' = <[B := mkImportInfo (Some (length (heap s))) None]> (imported s).
Proof.
  intros HA HB Hstrat Hfset Hbuild.
  eexists. split.
  - cbn [importPackage]. unfold importPackage_ at 1.
    cbv beta iota delta [bind get]. rewrite HB.
    cbv beta iota delta [setImported modify gets].
    cbn [conf set_imported]. rewrite Hstrat.
    unfold importFromSource_.
    cbv beta iota delta [bind gets]. cbn [conf set_imported].
    rewrite liftConf_fset_Some with (f := effFset c) by done.
    cbv beta iota delta [emit modify]. rewrite Hbuild, parseB.
    unfold createPackage_.
    cbv beta iota delta [bind alloc gets]. cbn [conf set_heap set_trace set_imported].
    rewrite liftConf_fset_Some with (f := effFset c) by done.
    rewrite checkB. cbn [importingChecker runCheck].
    cbv beta iota delta [bind]. unfold doImport_ at 1. rewrite decide_False by done.
    cbv beta iota delta [bind]. unfold importPackage_ at 1.
    cbv beta iota delta [bind get]. cbn [imported set_heap set_trace set_imported].
    rewrite lookup_insert_ne by done. rewrite HA.
    cbv beta iota delta [emit modify ret]. cbn [info ierr cycleSentinel snd].
    cbn [runCheck]. cbv beta iota delta [bind emit modify].
    erewrite runCheck_reportAll; [|intros; reflexivity].
    cbv beta iota delta [registerPackage modify ret markImportable bind emit].
    cbn [fst snd]. reflexivity.
  - cbn. split_and!; try reflexivity.
    + rewrite !length_alter, length_app. simpl. lia.
    + intros p Hp. rewrite !list_lookup_alter_ne by lia. by rewrite lookup_app_l.
    + rewrite list_lookup_alter_eq, list_lookup_alter_eq.
      rewrite lookup_app_r, Nat.sub_diag by done. reflexivity.
    + apply insert_insert_eq.
Qed.

Hypothesis packages_differ : pkgA ≠ pkgB.

(** The import of [A], with the import of [B] inside it. *)
Lemma import_A n s m :
  imported s !! A = None →
  imported s !! B = None →
  loadStrategy (conf s) A = Some (if aug then "gt" else "g") →
  loadStrategy (conf s) B = Some "g" →
  Fset (conf s) = Some (effFset c) →
  build (conf s) = build c →
  Packages (conf s) = Some m →
  ∃ s',
    importPackage W (S (S (S n))) A s = Ok (Some (length (heap s)), None) s' ∧
    imported s' !! A = Some (mkImportInfo (Some (length (heap s))) None) ∧
    imported s' !! B = Some (mkImportInfo (Some (S (length (heap s)))) None) ∧
    heap s' !! S (length (heap s)) =
      Some (mkPackageInfo (Some pkgB) true fB (Some (couldNotImport A (cycleError A)))) ∧
    AllPackages (prog s') !! Some pkgB = Some (S (length (heap s))) ∧
    Imported (prog s') = Imported (prog s) ∧
    Created (prog s') = Created (prog s).
Proof.
  intros HA HB HstratA HstratB Hfset Hbuild Hpk.
  change (importPackage W (S (S (S n))) A s)
    with (importPackage_ W (importPackage W (S (S n))) A s).
  unfold importPackage_ at 1.
  cbv beta iota delta [bind get]. rewrite HA.
  cbv beta iota delta [setImported modify gets].
  cbn [conf set_imported]. rewrite HstratA.
  unfold importFromSource_.
  cbv beta iota delta [bind gets]. cbn [conf set_imported].
  rewrite liftConf_fset_Some with (f := effFset c) by done.
  cbv beta iota delta [emit modify]. rewrite Hbuild, parseA.
  unfold createPackage_.
  cbv beta iota delta [bind alloc gets]. cbn [conf set_heap set_trace set_imported].
  rewrite liftConf_fset_Some with (f := effFset c) by done.
  rewrite checkA. cbn [importingChecker runCheck].
  cbv beta iota delta [bind]. unfold doImport_ at 1. rewrite decide_False by done.
  cbv beta iota delta [bind].
  match goal with
  | |- context [importPackage W (S (S n)) B ?sX] =>
      destruct (import_B n sX) as (sB & EB & HcB & HlB & HoldB & HcellB & HallB & HimpB)
  end.
  { cbn. apply lookup_insert_eq. }
  { cbn. by rewrite lookup_insert_ne. }
  { done. }
  { done. }
  { done. }
  rewrite EB. cbn [fst snd heap set_trace set_heap set_imported] in *.
  rewrite length_app in *. cbn [length] in *.
  replace (length (heap s) + 1) with (S (length (heap s))) in * by lia.
  unfold deref. rewrite HcellB.
  cbv beta iota delta [bind mapStore]. rewrite HcB. cbn [conf set_trace set_heap set_imported].
  rewrite Hpk. cbn [Pkg snd].
  cbv beta iota delta [ret]. cbn [fst snd].
  erewrite runCheck_reportAll; [|intros; reflexivity].
  cbv beta iota delta [registerPackage modify ret markImportable bind emit].
  cbn [fst snd].
  eexists. split; [reflexivity|].
  cbn. rewrite HimpB, HallB. cbn.
  split_and!; try reflexivity.
  - by rewrite lookup_insert_eq.
  - rewrite lookup_insert_ne by done. by rewrite lookup_insert_eq.
  - rewrite !list_lookup_alter_ne by lia. done.
  - rewrite lookup_insert_ne by congruence. by rewrite lookup_insert_eq.
Qed.

Hypothesis initial : ImportPkgs c = Some {[A := aug]}.
Hypothesis fromSource : SourceImports c = true.
Hypothesis noCreate : CreatePkgs c = [].

Lemma cycle_loadInitial n ord :
  validOrder ord →
  ∃ s1,
    loadInitial W (S (S (S n))) ord (loadStart c) = Ok None s1 ∧
    imported s1 !! A = Some (mkImportInfo (Some 0) None) ∧
    imported s1 !! B = Some (mkImportInfo (Some 1) None) ∧
    heap s1 !! 1 =
      Some (mkPackageInfo (Some pkgB) true fB (Some (couldNotImport A (cycleError A)))) ∧
    AllPackages (prog s1) !! Some pkgB = Some 1 ∧
    size (Imported (prog s1)) + length (Created (prog s1)) ≠ 0.
Proof.
  intros (HI & _).
  destruct (loadStart_conf c) as (HIP & HSI & HB & HCP & _ & _ & _ & _ & HF & [m Hm]).
  assert (HimpA : importPkgs c !! A = Some aug).
  { unfold importPkgs. rewrite initial. simpl. apply lookup_singleton_eq. }
  assert (HimpB : importPkgs c !! B = None).
  { unfold importPkgs. rewrite initial. simpl. by apply lookup_singleton_ne. }
  destruct (import_A n (loadStart c) m) as (sA & EA & HA & HBi & Hcell & Hall & HImp & HCr).
  { apply lookup_empty. }
  { apply lookup_empty. }
  { rewrite loadStart_strategy. unfold loadStrategy. by rewrite HimpA. }
  { rewrite loadStart_strategy. unfold loadStrategy. by rewrite HimpB, fromSource. }
  { done. }
  { apply loadStart_build. }
  { done. }
  change (length (heap (loadStart c))) with 0 in *.
  assert (Hentries : rangeImportPkgs ord (importPkgs (conf (loadStart c))) = [(A, aug)]).
  { apply Permutation_singleton_r. rewrite (HI _).
    unfold importPkgs. rewrite HIP, initial. simpl. by rewrite map_to_list_singleton. }
  eexists. split.
  - unfold loadInitial. cbv beta iota delta [bind gets]. rewrite Hentries.
    cbn [importLoop]. cbv beta iota delta [bind]. rewrite EA.
    cbn [fst snd]. cbv beta iota delta [modify ret].
    cbn [conf set_prog]. replace (CreatePkgs (conf sA)) with (@nil (list go_ast.File)).
    + reflexivity.
    + apply importPackage_spec in EA as [[[_ _ HC _ _] _] _].
      apply confExt_fields in HC as (_ & _ & _ & -> & _). by rewrite HCP, noCreate.
  - cbn. split_and!; try done.
    rewrite HImp. cbn. rewrite insert_empty, map_size_singleton. lia.
Qed.

End Cycle.

(** What [Load] returns once the construction loops are done. *)
Lemma loadFinish_cases (W : Collaborators) fuel ord c s1 :
  validOrder ord →
  loadInitial W fuel ord (loadStart c) = Ok None s1 →
  size (Imported (prog s1)) + length (Created (prog s1)) ≠ 0 →
  (noErrors s1 → ∃ s2, Load W fuel ord c = Ok (Some (prog s2), None) s2) ∧
  (¬ noErrors s1 →
   ∃ errpkgs,
     Load W fuel ord c = Ok (None, Some (typeErrorsError errpkgs)) s1 ∧
     errpkgs ≡ₚ errorPaths s1 ∧
     ∀ path, path ∈ errpkgs ↔
       ∃ k p i pkg, AllPackages (prog s1) !! k = Some p ∧ heap s1 !! p = Some i ∧
                    is_Some (err i) ∧ Pkg i = Some pkg ∧ go_types.Path pkg = path).
Proof.
  intros Hord E Hsize.
  assert (Hw : wf s1).
  { apply loadInitial_spec in E. apply (fr_wf _ _ _ E), wf_loadStart. }
  destruct (scanErrors_total (rangeAllPackages ord (AllPackages (prog s1))) s1 Hw)
    as (errpkgs & sx & Escan).
  { intros [k p] Hkp. simpl. destruct Hord as (_ & HA & _). rewrite (HA _) in Hkp.
    apply elem_of_map_to_list in Hkp. by eapply wf_all. }
  pose proof Escan as Hscan. apply scanErrors_spec in Hscan as [-> Hval].
  assert (Hperm : errpkgs ≡ₚ errorPaths s1).
  { rewrite Hval. unfold errorPaths. destruct Hord as (_ & HA & _). by rewrite (HA _). }
  assert (HLoad : Load W fuel ord c =
    match errpkgs with
    | _ :: _ => Ok (None, Some (typeErrorsError errpkgs)) s1
    | [] => (do fillLoop (rangeImportMap ord (ImportMap s1)) then
             let* s := get in ret (Some (prog s), None)) s1
    end).
  { unfold Load. rewrite (bind_Ok_intro _ _ _ _ _ E). unfold loadFinish.
    unfold bind at 1. simpl. rewrite bool_decide_eq_false_2 by done.
    rewrite (bind_Ok_intro _ _ _ _ _ Escan). by destruct errpkgs. }
  split.
  - intros Hno. apply errorPaths_nil in Hno; [|done]. rewrite Hno in Hperm.
    apply Permutation_nil_r in Hperm as ->.
    destruct (fillLoop_total (rangeImportMap ord (ImportMap s1)) s1) as (u & s2 & E2).
    exists s2. rewrite HLoad. by rewrite (bind_Ok_intro _ _ _ _ _ E2).
  - intros Hno. exists errpkgs. split_and!; [|done|].
    + rewrite HLoad. destruct errpkgs; [|done].
      destruct Hno. apply errorPaths_nil; [done|]. by apply Permutation_nil_l in Hperm.
    + intros path. rewrite Hperm. by apply errorPaths_spec.
Qed.


(** * The claims *)

(** ** The claims *)

(** C10: the path "unsafe" is special-cased.  [Import] and
    [ImportWithTests] return without touching the configuration, and the
    import callback [doImport] returns [types.Unsafe] with a nil error and
    leaves the whole state as it was: no cache entry, no [PackageInfo], no
    entry in [AllPackages]. *)
Theorem unsafe_is_special (W : Collaborators) :
  (∀ c, Import "unsafe" c = Ok tt c) ∧
  (∀ c, ImportWithTests W "unsafe" c = Ok None c) ∧
  (∀ fuel imports s,
     doImport W fuel imports "unsafe" s = Ok (Some go_types.Unsafe, None) s).
Proof. split_and!; done. Qed.












(** C9, as amended: [Load] leaves [ImportPkgs], [CreatePkgs],
    [SourceImports], [Build], [TypeCheckFuncBodies] and the checker options
    [Error], [Import] and [IgnoreFuncBodies] as they were.  It leaves a
    non-nil [Fset] as it was and sets a nil one to a new file set, and on
    return [TypeChecker.Packages] is a map, not nil. *)
Theorem load_changes_config (W : Collaborators) fuel ord c r s' :
  Load W fuel ord c = Ok r s' →
  ImportPkgs (conf s') = ImportPkgs c ∧
  CreatePkgs (conf s') = CreatePkgs c ∧
  SourceImports (conf s') = SourceImports c ∧
  Build (conf s') = Build c ∧
  TypeCheckFuncBodies (conf s') = TypeCheckFuncBodies c ∧
  go_types.Error (TypeChecker (conf s')) = go_types.Error (TypeChecker c) ∧
  go_types.Import (TypeChecker (conf s')) = go_types.Import (TypeChecker c) ∧
  go_types.IgnoreFuncBodies (TypeChecker (conf s')) =
    go_types.IgnoreFuncBodies (TypeChecker c) ∧
  Fset (conf s') = Some (effFset c) ∧
  (∀ f, Fset c = Some f → Fset (conf s') = Fset c) ∧
  is_Some (Packages (conf s')).
Proof.
  intros H. apply Load_frame in H as [_ _ C _ _].
  pose proof (confExt_fields _ _ C) as (HI & HS & HB & HC & HT & HE & HM & HG).
  destruct (loadStart_conf c) as (HI0 & HS0 & HB0 & HC0 & HT0 & HE0 & HM0 & HG0 & HF0 & HP0).
  assert (HF : Fset (conf s') = Some (effFset c)).
  { destruct (ce_fset _ _ C) as [HF|[HF _]]; congruence. }
  split_and!; try congruence.
  - intros f Hf. rewrite HF. unfold effFset. by rewrite Hf.
  - by apply (ce_packages _ _ C).
Qed.

Lemma load_changes_config_witness :
  let c := importing false ["lib"] in
  ∃ r s', Load demo 2 keyOrder c = Ok r s' ∧
    ImportPkgs (conf s') = ImportPkgs c ∧
    CreatePkgs (conf s') = CreatePkgs c ∧
    SourceImports (conf s') = SourceImports c ∧
    Build (conf s') = Build c ∧
    TypeCheckFuncBodies (conf s') = TypeCheckFuncBodies c ∧
    go_types.Error (TypeChecker (conf s')) = go_types.Error (TypeChecker c) ∧
    go_types.Import (TypeChecker (conf s')) = go_types.Import (TypeChecker c) ∧
    go_types.IgnoreFuncBodies (TypeChecker (conf s')) =
      go_types.IgnoreFuncBodies (TypeChecker c) ∧
    Fset (conf s') = Some (effFset c) ∧
    (∀ f, Fset c = Some f → Fset (conf s') = Fset c) ∧
    is_Some (Packages (conf s')).
Proof.
  intros c.
  assert (∃ r s', Load demo 2 keyOrder c = Ok r s') as (r & s' & E)
    by (vm_compute; eauto).
  exists r, s'. split; [exact E|].
  exact (load_changes_config demo 2 keyOrder c r s' E).
Defined.

(** C9 as it was stated fails: [Load] on the zero configuration returns
    with [Fset] and [TypeChecker.Packages] no longer nil. *)
Lemma load_changes_config_counterexample :
  ∃ r s', Load demo 1 keyOrder zeroConfig = Ok r s' ∧
    Fset zeroConfig = None ∧ Fset (conf s') = Some go_token.NewFileSet ∧
    Packages zeroConfig = None ∧ Packages (conf s') = Some ∅ ∧
    conf s' ≠ zeroConfig.
Proof.
  eexists _, _. split; [vm_compute; reflexivity|].
  split_and!; try reflexivity. intros [=].
Qed.






(** C6, as amended: on a configuration without an augmented entry, when
    neither path is "unsafe" and the first call of [ImportWithTests]
    returns nil, that call has set the flag of its path and has appended
    the external test files as one package to [CreatePkgs] if there are
    any; the second call, for another path, adds its path with a false
    flag, adds nothing to [CreatePkgs] and returns nil, and the first path
    is then the only augmented one.  In any case [Import] and
    [ImportWithTests] keep at most one entry of [ImportPkgs] true. *)
Theorem one_augmented_package (W : Collaborators) p1 p2 c c1 :
  p1 ≠ "unsafe" → p2 ≠ "unsafe" → p1 ≠ p2 →
  (∀ q, importPkgs c !! q ≠ Some true) →
  ImportWithTests W p1 c = Ok None c1 →
  importPkgs c1 !! p1 = Some true ∧
  (∃ xtestFiles,
     parsePackageFiles W (build c) (effFset c) p1 "x" = inl xtestFiles ∧
     CreatePkgs c1 = CreatePkgs c ++
       (if bool_decide (0 < length xtestFiles) then [xtestFiles] else [])) ∧
  (∃ c2, ImportWithTests W p2 c1 = Ok None c2 ∧
         importPkgs c2 !! p2 = Some false ∧
         importPkgs c2 !! p1 = Some true ∧
         CreatePkgs c2 = CreatePkgs c1 ∧
         ∀ q, importPkgs c2 !! q = Some true → q = p1) ∧
  (∀ p c0 u c0', atMostOneAugmented (importPkgs c0) → Import p c0 = Ok u c0' →
                 atMostOneAugmented (importPkgs c0')) ∧
  (∀ p c0 r c0', atMostOneAugmented (importPkgs c0) → ImportWithTests W p c0 = Ok r c0' →
                 atMostOneAugmented (importPkgs c0')).
Proof.
  intros Hu1 Hu2 Hne Hnone H.
  apply ImportWithTests_cases in H
    as [([q Hq] & _)|[Hn [(e & _ & [=] & _)|(xs & HP & _ & HI & HC)]]]; [| |done].
  { apply lookup_insert_Some in Hq as [[_ [=]]|[_ Hq]]. by destruct (Hnone q). }
  assert (H1 : importPkgs c1 !! p1 = Some true) by (by rewrite HI, lookup_insert_eq).
  split_and!; [done | by exists xs | | apply Import_atMostOne | apply ImportWithTests_atMostOne].
  exists (set_ImportPkgs (Some (<[p2 := false]> (importPkgs c1))) c1).
  assert (Hexists : ∃ q, <[p2 := false]> (importPkgs c1) !! q = Some true).
  { exists p1. by rewrite lookup_insert_ne. }
  split_and!.
  - unfold ImportWithTests. rewrite decide_False by done.
    unfold Import. rewrite decide_False by done.
    cbv beta iota delta [bind modify get].
    change (importPkgs (set_ImportPkgs ?m c1)) with (default ∅ m). simpl.
    apply anyAugmented_map in Hexists. by rewrite Hexists.
  - unfold importPkgs at 1. simpl. by rewrite lookup_insert_eq.
  - unfold importPkgs at 1. simpl. by rewrite lookup_insert_ne.
  - done.
  - intros q Hq. unfold importPkgs at 1 in Hq. simpl in Hq.
    apply lookup_insert_Some in Hq as [[_ [=]]|[_ Hq]].
    rewrite HI in Hq. apply lookup_insert_Some in Hq as [[<- _]|[_ Hq]]; [done|].
    by destruct (Hn q).
Qed.

Lemma one_augmented_package_witness :
  "lib" ≠ "unsafe" ∧ "sub" ≠ "unsafe" ∧ "lib" ≠ "sub" ∧
  (∀ q, importPkgs zeroConfig !! q ≠ Some true) ∧
  ∃ c1, ImportWithTests demo "lib" zeroConfig = Ok None c1 ∧
    importPkgs c1 !! "lib" = Some true ∧
    (∃ xtestFiles,
       parsePackageFiles demo (build zeroConfig) (effFset zeroConfig) "lib" "x"
         = inl xtestFiles ∧
       CreatePkgs c1 = CreatePkgs zeroConfig ++
         (if bool_decide (0 < length xtestFiles) then [xtestFiles] else [])) ∧
    (∃ c2, ImportWithTests demo "sub" c1 = Ok None c2 ∧
           importPkgs c2 !! "sub" = Some false ∧
           importPkgs c2 !! "lib" = Some true ∧
           CreatePkgs c2 = CreatePkgs c1 ∧
           ∀ q, importPkgs c2 !! q = Some true → q = "lib") ∧
    (∀ p c0 u c0', atMostOneAugmented (importPkgs c0) → Import p c0 = Ok u c0' →
                   atMostOneAugmented (importPkgs c0')) ∧
    (∀ p c0 r c0', atMostOneAugmented (importPkgs c0) →
                   ImportWithTests demo p c0 = Ok r c0' →
                   atMostOneAugmented (importPkgs c0')).
Proof.
  assert (H1 : "lib" ≠ "unsafe") by discriminate.
  assert (H2 : "sub" ≠ "unsafe") by discriminate.
  assert (H3 : "lib" ≠ "sub") by discriminate.
  assert (H4 : ∀ q, importPkgs zeroConfig !! q ≠ Some true).
  { intros q. unfold importPkgs. simpl. rewrite lookup_empty. discriminate. }
  assert (∃ c1, ImportWithTests demo "lib" zeroConfig = Ok None c1) as [c1 E]
    by (vm_compute; eauto).
  split_and!; try assumption. exists c1. split; [exact E|].
  exact (one_augmented_package demo "lib" "sub" zeroConfig c1 H1 H2 H3 H4 E).
Defined.

(** C6 as it was stated fails in three ways.  When the external test files
    of the first path do not parse, the first call returns the error with
    its flag still false, and the second call is the one that sets a flag.
    When the first path is "unsafe", the first call does nothing.  When the
    first path has no external test files, no package is added. *)
Lemma one_augmented_package_counterexample :
  (¬ firstOnlyAugmented demo zeroConfig "brokentests" "lib" ∧
   ∃ e c1 c2, ImportWithTests demo "brokentests" zeroConfig = Ok (Some e) c1 ∧
              importPkgs c1 !! "brokentests" = Some false ∧
              ImportWithTests demo "lib" c1 = Ok None c2 ∧
              importPkgs c2 !! "lib" = Some true) ∧
  (¬ firstOnlyAugmented demo zeroConfig "unsafe" "lib" ∧
   ∃ c2, ImportWithTests demo "unsafe" zeroConfig = Ok None zeroConfig ∧
         ImportWithTests demo "lib" zeroConfig = Ok None c2 ∧
         importPkgs c2 !! "lib" = Some true) ∧
  (¬ firstOnlyAugmented demo zeroConfig "sub" "lib" ∧
   ∃ c1, ImportWithTests demo "sub" zeroConfig = Ok None c1 ∧
         importPkgs c1 !! "sub" = Some true ∧ CreatePkgs c1 = []).
Proof.
  split_and!.
  - intros (e1 & c1 & c2 & xs & E1 & H1 & _).
    vm_compute in E1. injection E1 as <- <-. vm_compute in H1. discriminate.
  - vm_compute. eauto 10.
  - intros (e1 & c1 & c2 & xs & E1 & H1 & _).
    vm_compute in E1. injection E1 as <- <-. vm_compute in H1. discriminate.
  - vm_compute. eauto 10.
  - intros (e1 & c1 & c2 & xs & E1 & _ & H2 & _).
    vm_compute in E1. injection E1 as <- <-. vm_compute in H2.
    by destruct (app_cons_not_nil [] [] xs).
  - vm_compute. eauto 10.
Qed.




(** * The convenience methods of [Config] *)

Section ConfigMethods.
Variable W : Collaborators.
Variable parseFiles : go_token.FileSet → string → list string → list go_ast.File + error.

(** [conf.fset()] returns the effective file set and leaves it in [Fset]. *)
Lemma fset_eq c : fset c = Ok (effFset c) (set_Fset (Some (effFset c)) c).
Proof.
  unfold fset, effFset. destruct c as [[f|] tc tcfb si b cp ip]; reflexivity.
Qed.

Lemma CreateFromFiles_Some files c f :
  Fset c = Some f → CreateFromFiles files c = Ok tt (set_CreatePkgs (CreatePkgs c ++ [files]) c).
Proof. unfold CreateFromFiles. by intros ->. Qed.

Lemma importPkgs_set_ImportPkgs m c : importPkgs (set_ImportPkgs (Some m) c) = m.
Proof. reflexivity. Qed.

Lemma Import_eq path c :
  path ≠ "unsafe" →
  Import path c = Ok tt (set_ImportPkgs (Some (<[path := false]> (importPkgs c))) c).
Proof. intros Hu. unfold Import. by rewrite decide_False. Qed.

(** What [ImportWithTests] leaves alone, and how far [CreatePkgs] and
    [ImportPkgs] change, whatever it returns. *)
Lemma ImportWithTests_frame path c r c' :
  ImportWithTests W path c = Ok r c' →
  (TypeChecker c' = TypeChecker c ∧ TypeCheckFuncBodies c' = TypeCheckFuncBodies c ∧
   SourceImports c' = SourceImports c ∧ Build c' = Build c) ∧
  (Fset c' = Fset c ∨ Fset c = None ∧ Fset c' = Some go_token.NewFileSet) ∧
  CreatePkgs c `prefix_of` CreatePkgs c' ∧
  length (CreatePkgs c') ≤ S (length (CreatePkgs c)) ∧
  (∀ q, q ≠ path → importPkgs c' !! q = importPkgs c !! q) ∧
  (path ≠ "unsafe" → is_Some (importPkgs c' !! path)) ∧
  (is_Some r → importPkgs c' !! path = Some false ∧ CreatePkgs c' = CreatePkgs c).
Proof.
  intros H. destruct (decide (path = "unsafe")) as [->|Hu].
  { injection H as <- <-.
    split_and!; try done; try (by left); try lia; by intros []. }
  assert (HF : Fset (set_Fset (Some (effFset c)) c) = Fset c ∨
               Fset c = None ∧ Fset (set_Fset (Some (effFset c)) c) = Some go_token.NewFileSet).
  { unfold effFset. destruct (Fset c) as [f|] eqn:E; simpl; [by left|by right]. }
  unfold ImportWithTests in H. rewrite decide_False in H by done.
  erewrite bind_Ok_intro in H by (by apply Import_eq).
  erewrite bind_Ok_intro in H by reflexivity.
  rewrite importPkgs_set_ImportPkgs in H.
  set (m := <[path := false]> (importPkgs c)) in *.
  assert (Hm : ∀ q, q ≠ path → m !! q = importPkgs c !! q).
  { intros q Hq. unfold m. by rewrite lookup_insert_ne. }
  assert (Hp : m !! path = Some false) by (unfold m; by rewrite lookup_insert_eq).
  destruct (anyAugmented (map_to_list m)) eqn:Ea.
  { injection H as <- <-. rewrite importPkgs_set_ImportPkgs.
    split_and!; try done; try (by left); try (simpl; lia); try (by rewrite Hp);
      by intros []. }
  erewrite bind_Ok_intro in H by apply fset_eq.
  destruct (parsePackageFiles W _ _ path "x") as [xs|e].
  - case_bool_decide.
    + erewrite bind_Ok_intro in H by (by eapply CreateFromFiles_Some).
      injection H as <- <-.
      split_and!; try done.
      * simpl. by apply prefix_app_r.
      * simpl. rewrite length_app. simpl. lia.
      * intros q Hq. unfold importPkgs at 1. simpl. rewrite lookup_insert_ne by done.
        by apply Hm.
      * intros _. unfold importPkgs at 1. simpl. rewrite lookup_insert_eq. by eexists.
    + injection H as <- <-. split_and!; try done; try (simpl; lia).
      * intros q Hq. unfold importPkgs at 1. simpl. rewrite lookup_insert_ne by done.
        by apply Hm.
      * intros _. unfold importPkgs at 1. simpl. rewrite lookup_insert_eq. by eexists.
  - injection H as <- <-. split_and!; try done; try (simpl; lia).
Qed.

Lemma ImportWithTests_total path c : ∃ r c', ImportWithTests W path c = Ok r c'.
Proof.
  unfold ImportWithTests. destruct (decide (path = "unsafe")) as [->|Hu]; [by eexists _, _|].
  erewrite bind_Ok_intro by (by apply Import_eq).
  erewrite bind_Ok_intro by reflexivity.
  destruct (anyAugmented _); [by eexists _, _|].
  erewrite bind_Ok_intro by apply fset_eq.
  destruct (parsePackageFiles W _ _ path "x") as [xs|e]; [|by eexists _, _].
  case_bool_decide.
  - erewrite bind_Ok_intro by (by eapply CreateFromFiles_Some). by eexists _, _.
  - by eexists _, _.
Qed.

Lemma CreateFromFilenames_eq filenames c :
  CreateFromFilenames parseFiles filenames c =
  match parseFiles (effFset c) "." filenames with
  | inr e => Ok (Some e) (set_Fset (Some (effFset c)) c)
  | inl files =>
      Ok None (set_CreatePkgs (CreatePkgs c ++ [files]) (set_Fset (Some (effFset c)) c))
  end.
Proof.
  unfold CreateFromFilenames. erewrite bind_Ok_intro by apply fset_eq.
  destruct (parseFiles _ _ _) as [files|e]; [|done].
  by erewrite bind_Ok_intro by (by eapply CreateFromFiles_Some).
Qed.

End ConfigMethods.


(** ** [FromArgs] *)

Lemma configGrows_refl c : configGrows c c.
Proof. split; try done. by left. Qed.

Lemma configGrows_trans c1 c2 c3 : configGrows c1 c2 → configGrows c2 c3 → configGrows c1 c3.
Proof.
  intros [T1 B1 S1 U1 F1 C1 I1] [T2 B2 S2 U2 F2 C2 I2].
  split; try congruence; try (by etrans).
  destruct F1 as [F1|[F1 F1']], F2 as [F2|[F2 F2']].
  - left. congruence.
  - right. split; congruence.
  - right. split; congruence.
  - congruence.
Qed.

(** The test [path != arg] finds the prefix "notest:". *)
Lemma append_cons a (s t : string) : String a s +:+ t = String a (s +:+ t).
Proof. reflexivity. Qed.

Lemma substring_all (s : string) : String.substring 0 (String.length s) s = s.
Proof. induction s as [|b s IH]; simpl; [done|]. by rewrite IH. Qed.

Lemma append_length (p s : string) :
  String.length (p +:+ s) = String.length p + String.length s.
Proof.
  induction p as [|a p IH]; [done|]. rewrite append_cons. simpl. by rewrite IH.
Qed.

Lemma substring_drop (p s : string) :
  String.substring (String.length p) (String.length (p +:+ s) - String.length p) (p +:+ s) = s.
Proof.
  induction p as [|a p IH].
  - change ("" +:+ s) with s. simpl. rewrite Nat.sub_0_r. apply substring_all.
  - rewrite append_cons. simpl. apply IH.
Qed.

Lemma substring_take (p s : string) :
  String.substring 0 (String.length p) (p +:+ s) = p.
Proof.
  induction p as [|a p IH]; [simpl; by destruct s|].
  rewrite append_cons. simpl. by rewrite IH.
Qed.

Lemma substring_split n : ∀ s : string,
  n ≤ String.length s →
  s = String.substring 0 n s +:+ String.substring n (String.length s - n) s.
Proof.
  induction n as [|n IH]; intros s Hn.
  - simpl. rewrite Nat.sub_0_r, substring_all. by destruct s.
  - destruct s as [|a s]; simpl in *; [lia|]. rewrite append_cons. f_equal. apply IH. lia.
Qed.

Lemma HasPrefix_spec (s p : string) :
  go_strings.HasPrefix s p = true ↔ ∃ t, s = p +:+ t.
Proof.
  unfold go_strings.HasPrefix. rewrite andb_true_iff, !bool_decide_eq_true. split.
  - intros [Hl Hs]. exists (String.substring (String.length p) (String.length s - String.length p) s).
    rewrite <- Hs at 1. by apply substring_split.
  - intros [t ->]. rewrite append_length, substring_take. split; [lia|done].
Qed.

Lemma TrimPrefix_append (p s : string) : go_strings.TrimPrefix (p +:+ s) p = s.
Proof.
  unfold go_strings.TrimPrefix.
  assert (go_strings.HasPrefix (p +:+ s) p = true) as -> by (apply HasPrefix_spec; eauto).
  apply substring_drop.
Qed.

Section FromArgsLemmas.
Variable W : Collaborators.
Variable parseFiles : go_token.FileSet → string → list string → list go_ast.File + error.

Lemma configGrows_fset c : configGrows c (set_Fset (Some (effFset c)) c).
Proof.
  split; try done. unfold effFset. simpl.
  destruct (Fset c) as [f|] eqn:E; [by left|by right].
Qed.

Lemma Import_grows path c u c' : Import path c = Ok u c' → configGrows c c'.
Proof.
  unfold Import. destruct (decide (path = "unsafe")) as [Hu|Hu]; intros H; inv_run H;
    [apply configGrows_refl|].
  split; try done; [by left|].
  rewrite importPkgs_set_ImportPkgs, dom_insert_L. set_solver.
Qed.

Lemma ImportWithTests_grows path c r c' :
  ImportWithTests W path c = Ok r c' → configGrows c c'.
Proof.
  intros H. destruct (decide (path = "unsafe")) as [->|Hu].
  { injection H as <- <-. apply configGrows_refl. }
  apply ImportWithTests_frame in H as ((T & B & S & U) & F & C & _ & I & P & _).
  split; try done. intros q Hq. apply elem_of_dom in Hq. apply elem_of_dom.
  destruct (decide (q = path)) as [->|Hne]; [by apply P|by rewrite I].
Qed.

Lemma CreateFromFilenames_grows filenames c r c' :
  CreateFromFilenames parseFiles filenames c = Ok r c' → configGrows c c'.
Proof.
  rewrite CreateFromFilenames_eq. destruct (parseFiles _ _ _) as [files|e];
    intros H; injection H as <- <-.
  - eapply configGrows_trans; [apply configGrows_fset|].
    split; try done; [by left|]. simpl. by apply prefix_app_r.
  - apply configGrows_fset.
Qed.

Lemma fromArg_total arg c : ∃ err c', fromArg W parseFiles arg c = Ok err c'.
Proof.
  unfold fromArg. destruct (go_strings.HasSuffix arg ".go").
  - rewrite CreateFromFilenames_eq. destruct (parseFiles _ _ _); by eexists _, _.
  - destruct (decide (_ ≠ arg)) as [Hp|Hp].
    + unfold Import. destruct (decide (_ = "unsafe")); by eexists _, _.
    + apply ImportWithTests_total.
Qed.

Lemma fromArg_grows arg c err c' :
  fromArg W parseFiles arg c = Ok err c' →
  configGrows c c' ∧ (atMostOneAugmented (importPkgs c) → atMostOneAugmented (importPkgs c')).
Proof.
  unfold fromArg. destruct (go_strings.HasSuffix arg ".go").
  - intros H. split; [by eapply CreateFromFilenames_grows|].
    rewrite CreateFromFilenames_eq in H.
    destruct (parseFiles _ _ _); by injection H as <- <-.
  - destruct (decide (_ ≠ arg)) as [Hp|Hp].
    + intros H. inv_bind H as u c1 E1. inv_run H.
      split; [by eapply Import_grows|]. intros Ha. by eapply Import_atMostOne.
    + intros H. split; [by eapply ImportWithTests_grows|].
      intros Ha. by eapply ImportWithTests_atMostOne.
Qed.

Lemma FromArgs_cons arg args c :
  arg ≠ "--" →
  FromArgs W parseFiles (arg :: args) c =
  match fromArg W parseFiles arg c with
  | Ok (Some e) c1 => Ok ([], Some e) c1
  | Ok None c1 => FromArgs W parseFiles args c1
  | Panic msg => Panic msg
  | OutOfFuel => OutOfFuel
  end.
Proof.
  intros Hne. simpl. rewrite decide_False by done. unfold bind.
  destruct (fromArg W parseFiles arg c) as [[e|] c1| |]; done.
Qed.

(** The arguments before the first "--" that are processed without an
    error can be processed on their own. *)
Lemma FromArgs_app pre post : ∀ c c1,
  "--" ∉ pre →
  FromArgs W parseFiles pre c = Ok ([], None) c1 →
  FromArgs W parseFiles (pre ++ post) c = FromArgs W parseFiles post c1.
Proof.
  induction pre as [|arg pre IH]; intros c c1 Hn H.
  { by injection H as <-. }
  apply not_elem_of_cons in Hn as [Hne Hn].
  simpl app. rewrite FromArgs_cons in * by done.
  destruct (fromArg W parseFiles arg c) as [[e|] c2| |]; try done.
  by apply IH.
Qed.

Lemma FromArgs_stops pre post : ∀ c c1 e,
  "--" ∉ pre →
  FromArgs W parseFiles pre c = Ok ([], Some e) c1 →
  FromArgs W parseFiles (pre ++ post) c = Ok ([], Some e) c1.
Proof.
  induction pre as [|arg pre IH]; intros c c1 e Hn H; [done|].
  apply not_elem_of_cons in Hn as [Hne Hn].
  simpl app. rewrite FromArgs_cons in * by done.
  destruct (fromArg W parseFiles arg c) as [[e'|] c2| |]; try done.
  by apply IH.
Qed.

End FromArgsLemmas.


(** * Orderly runs *)

Lemma constructed_app t1 t2 : constructed (t1 ++ t2) = constructed t1 ++ constructed t2.
Proof. apply omap_app. Qed.

Section OrderlySteps.
Variable W : Collaborators.

Lemma orderly_conf b s s' :
  confExt (conf s) (conf s') → trace s' = trace s → imported s' = imported s →
  heap s' = heap s → orderly b s → orderly b s'.
Proof.
  intros C T I H [O1 O2 O3 O4 O5 O6 O7].
  pose proof (confExt_fields _ _ C) as (_ & _ & _ & _ & _ & HE & _).
  split; rewrite ?T, ?I, ?H; try done.
  - intros q w Hq. rewrite (confExt_loadStrategy _ _ _ C). by apply O4.
  - intros q Hq. rewrite (confExt_loadStrategy _ _ _ C). by apply O5.
  - intros p snk e Hin. unfold errorSink. rewrite HE. by eapply O6.
Qed.

Lemma orderly_prog b s pr : orderly b s → orderly b (set_prog pr s).
Proof. intros [O1 O2 O3 O4 O5 O6 O7]. by split. Qed.

Lemma orderly_emit b s ev :
  match ev with
  | EvDiag p snk _ => snk = errorSink (TypeChecker (conf s)) ∧ p < length (heap s)
  | EvCall _ _ => True
  | _ => False
  end →
  orderly b s → orderly b (set_trace (trace s ++ [ev]) s).
Proof.
  intros Hev [O1 O2 O3 O4 O5 O6 O7].
  assert (Hc : constructed (trace s ++ [ev]) = constructed (trace s)).
  { rewrite constructed_app. destruct ev; try done; simpl; by rewrite app_nil_r. }
  split; simpl; rewrite ?Hc; try done.
  - intros q w Hq. apply elem_of_app in Hq as [Hq|Hq]; [by apply O4|].
    apply list_elem_of_singleton in Hq as <-. done.
  - intros q Hq. apply elem_of_app in Hq as [Hq|Hq]; [by apply O5|].
    apply list_elem_of_singleton in Hq as <-. done.
  - intros p snk e Hq. apply elem_of_app in Hq as [Hq|Hq]; [by eapply O6|].
    apply list_elem_of_singleton in Hq as <-. done.
Qed.

Lemma orderly_construct s path ev :
  (ev = EvBinary path ∧ loadStrategy (conf s) path = None) ∨
  (∃ w, ev = EvParse path w ∧ loadStrategy (conf s) path = Some w) →
  orderly (Some path) s → orderly None (set_trace (trace s ++ [ev]) s).
Proof.
  intros Hev [O1 O2 O3 O4 O5 O6 O7].
  assert (Hc : constructed (trace s ++ [ev]) = constructed (trace s) ++ [path]).
  { rewrite constructed_app. by destruct Hev as [[-> _]|(w & -> & _)]. }
  split; simpl; rewrite ?Hc; try done.
  - apply NoDup_app. split_and!; [done | | apply NoDup_singleton].
    intros q Hq Hq'. apply list_elem_of_singleton in Hq' as ->. by apply (O3 path).
  - intros q. rewrite O2, elem_of_app, list_elem_of_singleton.
    split.
    + intros [?|[= ->]]; [left; by left|left; by right].
    + intros [[? | ->] | ?]; [by left | by right | done].
  - intros q w Hq. apply elem_of_app in Hq as [Hq|Hq]; [by apply O4|].
    apply list_elem_of_singleton in Hq as <-.
    destruct Hev as [[[=] _]|(w' & [= -> ->] & Hw)]. done.
  - intros q Hq. apply elem_of_app in Hq as [Hq|Hq]; [by apply O5|].
    apply list_elem_of_singleton in Hq as <-.
    destruct Hev as [[[= ->] Hn]|(w' & [=] & _)]. done.
  - intros p snk e Hq. apply elem_of_app in Hq as [Hq|Hq]; [by eapply O6|].
    apply list_elem_of_singleton in Hq as <-.
    by destruct Hev as [[[=] _]|(w' & [=] & _)].
Qed.

Lemma orderly_alloc b s i : orderly b s → orderly b (set_heap (heap s ++ [i]) s).
Proof.
  intros [O1 O2 O3 O4 O5 O6 O7]. split; simpl; try done.
  - intros p snk e Hq. destruct (O6 _ _ _ Hq) as [-> Hp]. split; [done|].
    rewrite length_app. lia.
  - intros q ii p Hq Hp. destruct (O7 _ _ _ Hq Hp) as (He & i' & Hi & Him).
    split; [done|]. exists i'. split; [|done]. by apply lookup_app_l_Some.
Qed.

Lemma orderly_alter b s f p :
  (∀ i, Importable i = true → Importable (f i) = true) →
  orderly b s → orderly b (set_heap (alter f p (heap s)) s).
Proof.
  intros Hf [O1 O2 O3 O4 O5 O6 O7]. split; simpl; try done.
  - intros p' snk e Hq. rewrite length_alter. by eapply O6.
  - intros q ii p' Hq Hp. destruct (O7 _ _ _ Hq Hp) as (He & i' & Hi & Him).
    split; [done|]. destruct (decide (p = p')) as [->|Hne].
    + exists (f i'). rewrite list_lookup_alter_eq, Hi. split; [done|]. by apply Hf.
    + exists i'. by rewrite list_lookup_alter_ne.
Qed.

Lemma orderly_sentinel s path :
  imported s !! path = None → orderly None s →
  orderly (Some path) (set_imported (<[path := cycleSentinel path]> (imported s)) s).
Proof.
  intros Hn [O1 O2 O3 O4 O5 O6 O7]. split; simpl; try done.
  - intros q. destruct (decide (path = q)) as [->|Hne].
    + rewrite lookup_insert_eq. split; [by right|by eauto].
    + rewrite lookup_insert_ne by done. rewrite O2.
      split; [intros [?|[=]]; by left|intros [?|[= ?]]; [by left|done]].
  - intros q [= <-] Hq. assert (is_Some (imported s !! path)) as [? ?]; [|congruence].
    apply O2. by left.
  - intros q ii p Hq Hp. apply lookup_insert_Some in Hq as [[_ <-]|[_ Hq]]; [done|].
    by eapply O7.
Qed.

Lemma orderly_setImported s path ii :
  is_Some (imported s !! path) →
  (∀ p, info ii = Some p →
        ierr ii = None ∧ ∃ i, heap s !! p = Some i ∧ Importable i = true) →
  orderly None s →
  orderly None (set_imported (<[path := ii]> (imported s)) s).
Proof.
  intros Hc Hii [O1 O2 O3 O4 O5 O6 O7]. split; simpl; try done.
  - intros q. rewrite <- O2. destruct (decide (path = q)) as [->|Hne].
    + by rewrite lookup_insert_eq.
    + by rewrite lookup_insert_ne.
  - intros q ii' p Hq Hp. apply lookup_insert_Some in Hq as [[_ <-]|[_ Hq]]; [by apply Hii|].
    by eapply O7.
Qed.

(** The end of [importPackage]: the result replaces the sentinel and its
    object, if any, becomes importable. *)
Lemma orderly_finish s path r u s' :
  is_Some (imported s !! path) →
  (∀ p, r.1 = Some p → r.2 = None ∧ p < length (heap s)) →
  orderly None s →
  markImportable r.1 (set_imported (<[path := mkImportInfo r.1 r.2]> (imported s)) s)
    = Ok u s' →
  orderly None s'.
Proof.
  intros Hc Hr Ho H. destruct r as [[p|] e]; simpl in *.
  - injection H as _ <-. destruct (Hr p eq_refl) as [-> Hp].
    apply lookup_lt_is_Some in Hp as [i Hi].
    set (f := λ i, mkPackageInfo (Pkg i) true (Files i) (err i)).
    change (orderly None (set_imported (<[path := mkImportInfo (Some p) None]> (imported s))
                            (set_heap (alter f p (heap s)) s))).
    apply (orderly_setImported (set_heap (alter f p (heap s)) s) path
             (mkImportInfo (Some p) None)); [done | | by apply orderly_alter].
    intros p' [= <-]. split; [done|]. exists (f i). simpl.
    by rewrite list_lookup_alter_eq, Hi.
  - injection H as _ <-. apply orderly_setImported; [done | by intros p [=] | done].
Qed.

(** ** One level of the recursion *)

Section Level.
Variable importPackage' : string → M state (option ptr * option error).
Hypothesis importPackage'_spec :
  ∀ path s r s', importPackage' path s = Ok r s' → importSpec W path s r s'.
Hypothesis importPackage'_orderly :
  ∀ path s r s', importPackage' path s = Ok r s' → orderly None s → orderly None s'.

Lemma doImport__orderly imports path s r s' :
  doImport_ importPackage' imports path s = Ok r s' → orderly None s → orderly None s'.
Proof.
  unfold doImport_. destruct (decide (path = "unsafe")) as [Hu|Hu].
  { intros H. by inv_run H. }
  intros H Ho. inv_bind H as r0 s0 E0. apply importPackage'_orderly in E0; [|done].
  destruct (r0.2) as [e|].
  { by inv_run H. }
  inv_bind H as i s1 E1. inv_bind H as u s2 E2. inv_run H.
  apply deref_Ok in E1 as [-> _].
  apply (mapStore_Ok W) in E2 as (F & T & I & Hh).
  eapply orderly_conf; [apply (fr_conf _ _ _ F) | done..].
Qed.

Lemma runCheck_orderly p snk c : ∀ s r s',
  runCheck (doImport_ importPackage') (λ e, emit (EvDiag p snk e)) c s = Ok r s' →
  snk = errorSink (TypeChecker (conf s)) → p < length (heap s) →
  orderly None s → orderly None s'.
Proof.
  induction c as [pkg e|e k IH|path k IH]; intros s r s' H Hs Hp Ho; simpl in H.
  - by inv_run H.
  - inv_bind H as u s1 E1. apply IH in H; try done. by apply orderly_emit.
  - inv_bind H as a s0 E0. pose proof E0 as E0'.
    apply doImport__orderly in E0; [|done].
    apply (doImport__ext W _ importPackage'_spec) in E0' as [F _].
    eapply IH in H; try done.
    + rewrite Hs. symmetry. apply (frame_sink W _ _ F).
    + pose proof (frame_length W _ _ F). lia.
Qed.

Lemma createPackage__orderly path files s p s' :
  createPackage_ W (doImport_ importPackage') path files s = Ok p s' →
  orderly None s → orderly None s'.
Proof.
  unfold createPackage_. intros H Ho.
  inv_bind H as p' s1 E1. inv_bind H as c sc Ec.
  set (i0 := mkPackageInfo None false files None) in *.
  set (s1 := set_heap (heap s ++ [i0]) s) in *.
  inv_bind H as fs s2 E2. inv_bind H as r s3 E3.
  inv_bind H as u4 s4 E4. inv_bind H as u5 s5 E5. inv_run H.
  apply liftConf_fset_Ok with (W := W) in E2 as (-> & F2 & T2 & I2 & H2 & P2).
  apply orderly_prog, orderly_alter; [done|].
  eapply runCheck_orderly; [exact E3 | | |].
  - symmetry. apply (frame_sink W s1 s2 F2).
  - rewrite H2. simpl. rewrite length_app. simpl. lia.
  - eapply orderly_conf; [apply (fr_conf _ _ _ F2) | done..|].
    by apply orderly_alloc.
Qed.

Lemma importFromSource__orderly path which s r s' :
  importFromSource_ W (doImport_ importPackage') path which s = Ok r s' →
  loadStrategy (conf s) path = Some which →
  orderly (Some path) s → orderly None s'.
Proof.
  unfold importFromSource_. intros H Hw Ho.
  inv_bind H as c sc Ec. inv_bind H as fs s1 E1.
  apply liftConf_fset_Ok with (W := W) in E1 as (-> & F1 & T1 & I1 & H1 & P1).
  inv_bind H as u s2 E2. set (s2 := set_trace _ s1) in *.
  assert (O2 : orderly None s2).
  { apply (orderly_construct s1 path).
    - right. exists which. split; [done|].
      by rewrite (confExt_loadStrategy _ _ _ (fr_conf _ _ _ F1)).
    - eapply orderly_conf; [apply (fr_conf _ _ _ F1) | done..]. }
  destruct (parsePackageFiles W _ _ path which) as [files|e].
  - inv_bind H as p s3 E3. inv_run H. by eapply createPackage__orderly.
  - by inv_run H.
Qed.

Lemma importFromBinary_orderly path s r s' :
  importFromBinary W path s = Ok r s' →
  loadStrategy (conf s) path = None →
  orderly (Some path) s → orderly None s'.
Proof.
  unfold importFromBinary. intros H Hw Ho.
  inv_bind H as c sc Ec. inv_bind H as u s1 E1. set (s1 := set_trace _ s) in *.
  inv_bind H as r0 s2 E2.
  apply (callImporter_Ok W) in E2 as (F2 & T2 & I2 & H2 & P2).
  assert (O2 : orderly None s2).
  { eapply orderly_conf; [apply (fr_conf _ _ _ F2) | done..|].
    apply (orderly_construct s path); [|done]. by left. }
  destruct r0 as [pkg [e|]].
  - by inv_run H.
  - inv_bind H as p s3 E3. inv_bind H as u4 s4 E4. inv_run H.
    by apply orderly_prog, orderly_alloc.
Qed.

Lemma importPackage__orderly path s r s' :
  importPackage_ W importPackage' path s = Ok r s' →
  orderly None s → orderly None s'.
Proof.
  intros H Ho. destruct (imported s !! path) as [ii|] eqn:Hc.
  { rewrite (importPackage__hit W importPackage' path s ii Hc) in H.
    injection H as <- <-. by apply orderly_emit. }
  unfold importPackage_ in H. inv_bind H as s0 sx E0. rewrite Hc in H.
  inv_bind H as u s0 E0. set (s0 := set_imported _ s) in *.
  inv_bind H as c sc Ec. inv_bind H as r0 s1 E1.
  inv_bind H as u2 s2 E2. set (s2 := set_imported _ s1) in *.
  inv_bind H as u3 s3 E3. inv_bind H as u4 s4 E4. inv_run H.
  apply orderly_emit; [done|].
  assert (O0 : orderly (Some path) s0) by (by apply orderly_sentinel).
  assert (frame W s0 s1 ∧ orderly None s1 ∧
          ∀ p, r0.1 = Some p → r0.2 = None ∧ p < length (heap s1)) as (F1 & O1 & R1).
  { change (conf s) with (conf s0) in E1.
    destruct (loadStrategy (conf s0) path) as [which|] eqn:Es.
    - pose proof E1 as E1'.
      apply (importFromSource__spec W _ importPackage'_spec) in E1' as (F & _ & R).
      apply importFromSource__orderly in E1; [|done..].
      split_and!; [done..|].
      destruct (parsePackageFiles W _ _ path which) as [files|e].
      + destruct R as (p & -> & Hp). intros p' [= <-]. split; [done|]. simpl. lia.
      + subst r0. by intros p [=].
    - pose proof E1 as E1'.
      apply (importFromBinary_spec W) in E1' as (F & _ & _ & R).
      apply importFromBinary_orderly in E1; [|done..].
      split_and!; [done..|].
      destruct r0 as [[p|] [e|]]; try done.
      intros p' [= <-]. split; [done|]. simpl. lia. }
  eapply orderly_finish; [ | exact R1 | exact O1 | exact E3].
  apply (lookup_weaken_is_Some _ _ _ (mk_is_Some _ _ (lookup_insert_eq _ _ _))
                               (fr_imported _ _ _ F1)).
Qed.

End Level.

Lemma importPackage_orderly fuel : ∀ path s r s',
  importPackage W fuel path s = Ok r s' → orderly None s → orderly None s'.
Proof.
  induction fuel as [|n IH]; intros path s r s' H; [done|].
  eapply importPackage__orderly; [apply importPackage_spec | exact IH | exact H].
Qed.

Lemma createPackage_orderly fuel path files s p s' :
  createPackage W fuel path files s = Ok p s' → orderly None s → orderly None s'.
Proof.
  apply createPackage__orderly; [apply importPackage_spec | apply importPackage_orderly].
Qed.

(** ** The loops of [Load] *)

Lemma orderly_loadStart c : orderly None (loadStart c).
Proof.
  split; simpl.
  - apply NoDup_nil_2.
  - intros q. rewrite lookup_empty. split; [by intros [? ?]|].
    intros [H|[=]]. by apply elem_of_nil in H.
  - done.
  - intros q w H. by apply elem_of_nil in H.
  - intros q H. by apply elem_of_nil in H.
  - intros p snk e H. by apply elem_of_nil in H.
  - intros q ii p H. by rewrite lookup_empty in H.
Qed.

Lemma importLoop_orderly fuel entries : ∀ s r s',
  importLoop W fuel entries s = Ok r s' → orderly None s → orderly None s'.
Proof.
  induction entries as [|[path aug] rest IH]; intros s r s' H Ho; simpl in H.
  { by inv_run H. }
  inv_bind H as r0 s1 E1. apply importPackage_orderly in E1; [|done].
  destruct (r0.2) as [e|].
  { by inv_run H. }
  inv_bind H as u s2 E2. apply IH in H; [done|]. by apply orderly_prog.
Qed.

Lemma createLoop_orderly fuel pkgs : ∀ s r s',
  createLoop W fuel pkgs s = Ok r s' → orderly None s → orderly None s'.
Proof.
  induction pkgs as [|files rest IH]; intros s r s' H Ho; simpl in H.
  { by inv_run H. }
  inv_bind H as c sc Ec.
  destruct (packageName W files (Fset (conf s))) as [pkgname|e].
  - inv_bind H as p s1 E1. inv_bind H as u s2 E2.
    apply createPackage_orderly in E1; [|done].
    apply IH in H; [done|]. by apply orderly_prog.
  - by inv_run H.
Qed.

Lemma fillLoop_orderly entries : ∀ s u s',
  fillLoop entries s = Ok u s' → orderly None s → orderly None s'.
Proof.
  induction entries as [|[path obj] rest IH]; intros s u s' H Ho; simpl in H.
  { by inv_run H. }
  inv_bind H as s0 sx E0. inv_bind H as u1 s1 E1. apply IH in H; [done|].
  destruct (AllPackages (prog s) !! obj) as [p|].
  - by inv_run E1.
  - inv_bind E1 as p s2 E2. inv_run E1. by apply orderly_prog, orderly_alloc.
Qed.

Lemma loadInitial_orderly fuel ord s r s' :
  loadInitial W fuel ord s = Ok r s' → orderly None s → orderly None s'.
Proof.
  unfold loadInitial. intros H Ho. inv_bind H as c sc Ec. inv_bind H as r0 s1 E1.
  apply importLoop_orderly in E1; [|done]. destruct r0 as [e|].
  - by inv_run H.
  - inv_bind H as c1 sc1 Ec1. by apply createLoop_orderly in H.
Qed.

Lemma loadFinish_orderly ord s r s' :
  loadFinish ord s = Ok r s' → orderly None s → orderly None s'.
Proof.
  unfold loadFinish. intros H Ho. inv_bind H as s0 sx E0.
  case_bool_decide.
  { by inv_run H. }
  inv_bind H as errpkgs s1 E1. apply scanErrors_spec in E1 as [-> _].
  destruct errpkgs as [|x l].
  - inv_bind H as u s2 E2. inv_bind H as s3 sy E3. inv_run H.
    by apply fillLoop_orderly in E2.
  - by inv_run H.
Qed.

Lemma Load_orderly fuel ord c r s' :
  Load W fuel ord c = Ok r s' → orderly None s'.
Proof.
  unfold Load. intros H. inv_bind H as r0 s1 E1.
  apply loadInitial_orderly in E1; [|apply orderly_loadStart].
  destruct r0 as [e|].
  - by inv_run H.
  - by apply loadFinish_orderly in H.
Qed.

End OrderlySteps.


(** * The keys of [AllPackages] *)

Lemma filesFrom_refl n s : filesFrom n s s.
Proof. split; [by destruct (prog s)|]. intros k p H. by left. Qed.

Lemma filesFrom_trans n s1 s2 s3 : filesFrom n s1 s2 → filesFrom n s2 s3 → filesFrom n s1 s3.
Proof.
  intros [P1 H1] [P2 H2]. split.
  - rewrite P2, P1. done.
  - intros k p H. destruct (H2 _ _ H) as [H'|?]; [by apply H1|by right].
Qed.

Lemma filesFrom_mono n n' s s' : n ≤ n' → filesFrom n' s s' → filesFrom n s s'.
Proof.
  intros Hn [P H]. split; [done|].
  intros k p Hk. destruct (H _ _ Hk) as [?|?]; [by left|right; lia].
Qed.

Lemma filesFrom_same n s s' : prog s' = prog s → filesFrom n s s'.
Proof. intros E. unfold filesFrom. rewrite E. apply filesFrom_refl. Qed.

Lemma filesFrom_register n s k p :
  n ≤ p →
  filesFrom n s (set_prog (set_AllPackages (<[k := p]> (AllPackages (prog s))) (prog s)) s).
Proof.
  intros Hp. split; [done|]. intros k' p' H. simpl in H.
  apply lookup_insert_Some in H as [[_ <-]|[_ H]]; [by right|by left].
Qed.

Lemma keyed_same s s' : prog s' = prog s → heap s' = heap s → keyed s → keyed s'.
Proof. intros P H K k p i. rewrite P, H. apply K. Qed.

Lemma keyed_alloc s i : wf s → keyed s → keyed (set_heap (heap s ++ [i]) s).
Proof.
  intros Hw K k p i' Hk Hp. simpl in *. eapply K; [done|].
  apply lookup_app_Some in Hp as [Hp|[Hp _]]; [done|].
  pose proof (wf_all _ Hw _ _ Hk). lia.
Qed.

Lemma keyed_alter s f p :
  (∀ i, Pkg (f i) = Pkg i) → keyed s → keyed (set_heap (alter f p (heap s)) s).
Proof.
  intros Hf K k p' i Hk Hp. simpl in *. destruct (decide (p = p')) as [->|Hne].
  - rewrite list_lookup_alter_eq in Hp.
    destruct (heap s !! p') as [i0|] eqn:E; [|done]. injection Hp as <-.
    rewrite Hf. by eapply K.
  - rewrite list_lookup_alter_ne in Hp by done. by eapply K.
Qed.

(** The end of [createPackage]: the object, not filed yet, gets its package
    and is filed under it. *)
Lemma keyed_file s f p k :
  (∀ i, Pkg (f i) = k) →
  (∀ k', AllPackages (prog s) !! k' ≠ Some p) →
  keyed s →
  keyed (set_prog (set_AllPackages (<[k := p]> (AllPackages (prog s))) (prog s))
           (set_heap (alter f p (heap s)) s)).
Proof.
  intros Hf Hn K k' p' i Hk Hp. simpl in *.
  apply lookup_insert_Some in Hk as [[<- <-]|[Hne Hk]].
  - rewrite list_lookup_alter_eq in Hp.
    destruct (heap s !! p) as [i0|] eqn:E; [|done]. injection Hp as <-. apply Hf.
  - destruct (decide (p = p')) as [->|Hp']; [by destruct (Hn k')|].
    rewrite list_lookup_alter_ne in Hp by done. by eapply K.
Qed.

Section Keys.
Variable W : Collaborators.

Section Level.
Variable importPackage' : string → M state (option ptr * option error).
Hypothesis importPackage'_spec :
  ∀ path s r s', importPackage' path s = Ok r s' → importSpec W path s r s'.
Hypothesis importPackage'_files :
  ∀ path s r s', importPackage' path s = Ok r s' → filesFrom (length (heap s)) s s'.
Hypothesis importPackage'_keyed :
  ∀ path s r s', importPackage' path s = Ok r s' → wf s → keyed s → keyed s'.

Lemma doImport__files imports path s r s' :
  doImport_ importPackage' imports path s = Ok r s' →
  filesFrom (length (heap s)) s s' ∧ (wf s → keyed s → keyed s').
Proof.
  unfold doImport_. destruct (decide (path = "unsafe")) as [Hu|Hu].
  { intros H. inv_run H. split; [apply filesFrom_refl|done]. }
  intros H. inv_bind H as r0 s0 E0.
  pose proof (importPackage'_files _ _ _ _ E0) as F0.
  pose proof (importPackage'_keyed _ _ _ _ E0) as K0.
  destruct (r0.2) as [e|].
  { inv_run H. by split. }
  inv_bind H as i s1 E1. inv_bind H as u s2 E2. inv_run H.
  apply deref_Ok in E1 as [-> _].
  unfold mapStore in E2. destruct imports; [done|].
  destruct (Packages (conf s0)) as [m|]; [|done]. injection E2 as _ <-.
  split; [exact F0|]. intros Hw K. exact (K0 Hw K).
Qed.

Lemma runCheck_files n Err c : ∀ s r s',
  (∀ e s, ∃ t, Err e s = Ok tt (set_trace t s)) →
  runCheck (doImport_ importPackage') Err c s = Ok r s' →
  n ≤ length (heap s) →
  filesFrom n s s' ∧ (wf s → keyed s → keyed s').
Proof.
  intros s r s' HErr. revert s r s'.
  induction c as [pkg e|e k IH|path k IH]; intros s r s' H Hn; simpl in H.
  - inv_run H. split; [apply filesFrom_refl|done].
  - inv_bind H as u s1 E1. destruct (HErr e s) as [t Et]. rewrite Et in E1.
    injection E1 as <- <-. apply IH in H as [F K]; [|done].
    split; [done|]. intros Hw Hk. apply K; [|done].
    by apply (fr_wf _ _ _ (frame_set_trace W s t)).
  - inv_bind H as a s0 E0. pose proof E0 as E0'.
    apply (doImport__ext W _ importPackage'_spec) in E0' as [F0 _].
    apply doImport__files in E0 as [F1 K1].
    apply IH in H as [F K]; [|pose proof (frame_length W _ _ F0); lia].
    split.
    + eapply filesFrom_trans; [|done]. by eapply filesFrom_mono.
    + intros Hw Hk. apply K; [by apply (fr_wf _ _ _ F0)|by apply K1].
Qed.

Lemma createPackage__files path files s p s' :
  createPackage_ W (doImport_ importPackage') path files s = Ok p s' →
  filesFrom (length (heap s)) s s' ∧ (wf s → keyed s → keyed s').
Proof.
  unfold createPackage_. intros H.
  inv_bind H as p' s1 E1. inv_bind H as c sc Ec.
  set (i0 := mkPackageInfo None false files None) in *.
  set (s1 := set_heap (heap s ++ [i0]) s) in *.
  inv_bind H as fs s2 E2. inv_bind H as r s3 E3.
  inv_bind H as u4 s4 E4. inv_bind H as u5 s5 E5. inv_run H.
  apply liftConf_fset_Ok with (W := W) in E2 as (-> & F2 & T2 & I2 & H2 & P2).
  apply (runCheck_files (S (length (heap s)))) in E3 as [F3 K3];
    [ | intros e s0; by eexists | rewrite H2; simpl; rewrite length_app; simpl; lia].
  set (f := λ i, mkPackageInfo (Some r.1) (Importable i) (Files i) r.2) in *.
  assert (F03 : filesFrom (S (length (heap s))) s s3).
  { eapply filesFrom_trans; [|done]. apply filesFrom_same. by rewrite P2. }
  split.
  - eapply filesFrom_trans; [eapply filesFrom_mono; [|exact F03]; lia|].
    eapply filesFrom_trans;
      [|apply (filesFrom_register _ (set_heap (alter f (length (heap s)) (heap s3)) s3));
        reflexivity].
    by apply filesFrom_same.
  - intros Hw Hk. apply (keyed_file s3 f (length (heap s)) (Some r.1)); [done| |].
    + intros k' Hk'. destruct (proj2 F03 _ _ Hk') as [Hold|?]; [|lia].
      pose proof (wf_all _ Hw _ _ Hold). lia.
    + apply K3.
      * apply (fr_wf _ _ _ F2). apply wf_alloc; [|done]. simpl. by intros [? ?].
      * eapply keyed_same; [exact P2 | exact H2 |]. by apply keyed_alloc.
Qed.

Lemma importFromSource__files path which s r s' :
  importFromSource_ W (doImport_ importPackage') path which s = Ok r s' →
  filesFrom (length (heap s)) s s' ∧ (wf s → keyed s → keyed s').
Proof.
  unfold importFromSource_. intros H.
  inv_bind H as c sc Ec. inv_bind H as fs s1 E1.
  apply liftConf_fset_Ok with (W := W) in E1 as (-> & F1 & T1 & I1 & H1 & P1).
  inv_bind H as u s2 E2. set (s2 := set_trace _ s1) in *.
  assert (F02 : frame W s s2) by (eapply frame_trans; [done|apply frame_set_trace]).
  destruct (parsePackageFiles W _ _ path which) as [files|e].
  - inv_bind H as p s3 E3. inv_run H. apply createPackage__files in E3 as [F3 K3].
    split.
    + eapply filesFrom_trans; [apply (filesFrom_same _ s s2); by rewrite <- P1|].
      eapply filesFrom_mono; [|done]. simpl. by rewrite H1.
    + intros Hw Hk. apply K3; [by apply (fr_wf _ _ _ F02)|].
      eapply keyed_same; [| |done]; simpl; by rewrite ?P1, ?H1.
  - inv_run H. split.
    + apply filesFrom_same. simpl. by rewrite P1.
    + intros _ Hk. eapply keyed_same; [| |done]; simpl; by rewrite ?P1, ?H1.
Qed.

Lemma importFromBinary_files path s r s' :
  importFromBinary W path s = Ok r s' →
  filesFrom (length (heap s)) s s' ∧ (wf s → keyed s → keyed s').
Proof.
  unfold importFromBinary. intros H.
  inv_bind H as c sc Ec. inv_bind H as u s1 E1. set (s1 := set_trace _ s) in *.
  inv_bind H as r0 s2 E2.
  apply (callImporter_Ok W) in E2 as (F2 & T2 & I2 & H2 & P2).
  assert (F02 : frame W s s2) by (eapply frame_trans; [apply frame_set_trace|done]).
  destruct r0 as [pkg [e|]].
  - inv_run H. split.
    + apply filesFrom_same. by rewrite P2.
    + intros _ Hk. eapply keyed_same; [| |done]; by rewrite ?P2, ?H2.
  - inv_bind H as p s3 E3. inv_bind H as u4 s4 E4. inv_run H.
    set (i0 := mkPackageInfo pkg false [] None).
    split.
    + eapply filesFrom_trans;
        [|apply (filesFrom_register _ (set_heap (heap s2 ++ [i0]) s2)); by rewrite H2].
      apply filesFrom_same. simpl. by rewrite P2.
    + intros Hw Hk.
      assert (Hw2 : wf s2) by (by apply (fr_wf _ _ _ F02)).
      assert (Hk2 : keyed s2) by (eapply keyed_same; [| |done]; by rewrite ?P2, ?H2).
      intros k p i Hkp Hp. simpl in *.
      apply lookup_insert_Some in Hkp as [[<- <-]|[Hne Hkp]].
      * rewrite lookup_app_r, Nat.sub_diag in Hp by done. by injection Hp as <-.
      * eapply (keyed_alloc s2 i0 Hw2 Hk2); [exact Hkp|exact Hp].
Qed.

Lemma markImportable_files p s u s' :
  markImportable p s = Ok u s' →
  prog s' = prog s ∧ (keyed s → keyed s').
Proof.
  destruct p as [a|]; simpl; intros H; injection H as _ <-; [|done].
  split; [done|]. by apply keyed_alter.
Qed.

Lemma importPackage__files path s r s' :
  importPackage_ W importPackage' path s = Ok r s' →
  filesFrom (length (heap s)) s s' ∧ (wf s → keyed s → keyed s').
Proof.
  intros H. destruct (imported s !! path) as [ii|] eqn:Hc.
  { rewrite (importPackage__hit W importPackage' path s ii Hc) in H.
    injection H as <- <-. split; [by apply filesFrom_same|].
    intros _ Hk. by eapply keyed_same. }
  pose proof H as H0. apply (importPackage__miss W _ importPackage'_spec) in H0 as (F & _); [|done].
  unfold importPackage_ in H. inv_bind H as s0 sx E0. rewrite Hc in H.
  inv_bind H as u s0 E0. set (s0 := set_imported _ s) in *.
  inv_bind H as c sc Ec. inv_bind H as r0 s1 E1.
  inv_bind H as u2 s2 E2. set (s2 := set_imported _ s1) in *.
  inv_bind H as u3 s3 E3. inv_bind H as u4 s4 E4. inv_run H.
  apply markImportable_files in E3 as [P3 K3].
  assert (filesFrom (length (heap s)) s s1 ∧ (wf s0 → keyed s → keyed s1)) as [F1 K1].
  { destruct (loadStrategy (conf s) path) as [which|].
    - apply importFromSource__files in E1 as [F1 K1]. split; [done|].
      intros Hw Hk. apply K1; [done|]. by eapply keyed_same.
    - apply importFromBinary_files in E1 as [F1 K1]. split; [done|].
      intros Hw Hk. apply K1; [done|]. by eapply keyed_same. }
  split.
  - eapply filesFrom_trans; [exact F1|]. apply filesFrom_same. simpl. by rewrite P3.
  - intros Hw Hk. eapply keyed_same; [reflexivity..|]. apply K3.
    eapply keyed_same; [reflexivity..|]. apply K1; [|done].
    by apply wf_sentinel.
Qed.

End Level.

Lemma importPackage_files fuel : ∀ path s r s',
  importPackage W fuel path s = Ok r s' →
  filesFrom (length (heap s)) s s' ∧ (wf s → keyed s → keyed s').
Proof.
  induction fuel as [|n IH]; intros path s r s' H; [done|].
  eapply importPackage__files; [apply importPackage_spec | | | exact H].
  - intros. by eapply IH.
  - intros ? ? ? ? E. by apply IH in E as [_ ?].
Qed.

Lemma createPackage_files fuel path files s p s' :
  createPackage W fuel path files s = Ok p s' →
  filesFrom (length (heap s)) s s' ∧ (wf s → keyed s → keyed s').
Proof.
  apply createPackage__files; [apply importPackage_spec | |].
  - intros. by eapply importPackage_files.
  - intros ? ? ? ? E. by apply importPackage_files in E as [_ ?].
Qed.

End Keys.


(** * The program [Load] builds *)

Lemma filesFrom_fields n s s' :
  filesFrom n s s' →
  Created (prog s') = Created (prog s) ∧ Imported (prog s') = Imported (prog s) ∧
  pFset (prog s') = pFset (prog s).
Proof. intros [P _]. rewrite P. done. Qed.

Lemma keyed_all s s' :
  AllPackages (prog s') = AllPackages (prog s) → heap s' = heap s → keyed s → keyed s'.
Proof. intros P H K k p i. rewrite P, H. apply K. Qed.

Section LoadProgram.
Variable W : Collaborators.

Lemma importLoop_program fuel entries : ∀ s r s',
  importLoop W fuel entries s = Ok r s' → wf s →
  (keyed s → keyed s') ∧
  Created (prog s') = Created (prog s) ∧ pFset (prog s') = pFset (prog s) ∧
  (r = None →
   (∀ q, q ∉ entries.*1 → Imported (prog s') !! q = Imported (prog s) !! q) ∧
   (∀ q, q ∈ entries.*1 →
      ∃ p, Imported (prog s') !! q = Some (Some p) ∧
           imported s' !! q = Some (mkImportInfo (Some p) None))).
Proof.
  induction entries as [|[path aug] rest IH]; intros s r s' H Hw; simpl in H.
  { inv_run H. split_and!; try done. intros _. split; [done|].
    intros q Hq. by apply elem_of_nil in Hq. }
  inv_bind H as r0 s1 E1.
  pose proof (importPackage_spec W _ _ _ _ _ E1) as [[F1 _] L1].
  apply importPackage_files in E1 as [G1 K1].
  apply filesFrom_fields in G1 as (C1 & I1 & P1).
  assert (Hw1 : wf s1) by (by apply (fr_wf _ _ _ F1)).
  destruct (r0.2) as [e|] eqn:Er.
  { inv_run H. split_and!; try done. auto. }
  inv_bind H as u s2 E2. set (s2 := set_prog _ s1) in *.
  assert (Hw2 : wf s2)
    by (by apply (fr_wf _ _ _ (frame_set_prog_other W s1 (prog s2) eq_refl))).
  pose proof (importLoop_spec W _ _ _ _ _ H) as [F2 _].
  apply IH in H as (K & C & P & R); [|done].
  split_and!.
  - intros Hk. apply K. eapply (keyed_all s1); [done..|]. by apply K1.
  - by rewrite C.
  - by rewrite P.
  - intros ->. destruct (R eq_refl) as [Ra Rb].
    assert (∃ p, r0.1 = Some p) as [p Hp].
    { pose proof (wf_cache _ Hw1 _ _ L1) as Hc. simpl in Hc.
      destruct (r0.1) as [p|]; [by eexists|]. by destruct Hc. }
    split.
    + intros q Hq. simpl in Hq. apply not_elem_of_cons in Hq as [Hne Hq].
      rewrite (Ra q Hq). simpl. rewrite lookup_insert_ne by done. by rewrite I1.
    + intros q Hq. simpl in Hq.
      destruct (decide (q ∈ rest.*1)) as [Hin|Hnin]; [by apply Rb|].
      apply elem_of_cons in Hq as [->|?]; [|done]. exists p.
      rewrite (Ra _ Hnin). simpl. rewrite lookup_insert_eq. split; [by rewrite Hp|].
      apply (frame_lookup W s2 s' _ _ F2). simpl. by rewrite L1, Hp.
Qed.

Lemma createLoop_program fuel pkgs : ∀ s r s',
  createLoop W fuel pkgs s = Ok r s' → wf s → is_Some (Fset (conf s)) →
  (keyed s → keyed s') ∧
  Imported (prog s') = Imported (prog s) ∧ pFset (prog s') = pFset (prog s) ∧
  match r with
  | None =>
      ∃ ps, Created (prog s') = Created (prog s) ++ ps ∧
        Forall2 (λ p files, ∃ i name,
                   heap s' !! p = Some i ∧ Files i = files ∧ Importable i = false ∧
                   is_Some (Pkg i) ∧ packageName W files (Fset (conf s)) = inl name)
                ps pkgs
  | Some e => ∃ files, files ∈ pkgs ∧ packageName W files (Fset (conf s)) = inr e
  end.
Proof.
  induction pkgs as [|files rest IH]; intros s r s' H Hw Hf; simpl in H.
  { inv_run H. split_and!; try done. exists []. by rewrite app_nil_r. }
  inv_bind H as c sc Ec.
  destruct (packageName W files (Fset (conf s))) as [pkgname|e] eqn:En.
  - inv_bind H as p s1 E1. inv_bind H as u s2 E2. set (s2 := set_prog _ s1) in *.
    pose proof (createPackage_spec W _ _ _ _ _ _ E1)
      as (-> & [F1 _] & _ & pkg & e & new & Hi & _).
    apply createPackage_files in E1 as [G1 K1].
    apply filesFrom_fields in G1 as (C1 & I1 & P1).
    assert (Hw1 : wf s1) by (by apply (fr_wf _ _ _ F1)).
    assert (Hw2 : wf s2)
      by (by apply (fr_wf _ _ _ (frame_set_prog_other W s1 (prog s2) eq_refl))).
    assert (Hf1 : Fset (conf s1) = Fset (conf s)).
    { destruct (ce_fset _ _ (fr_conf _ _ _ F1)) as [?|[Hn _]]; [done|].
      rewrite Hn in Hf. by destruct Hf. }
    pose proof (createLoop_spec W _ _ _ _ _ H) as F2.
    apply IH in H as (K & I & P & R); [|done|by rewrite <- Hf1 in Hf].
    split_and!.
    + intros Hk. apply K. eapply (keyed_all s1); [done..|]. by apply K1.
    + by rewrite I.
    + by rewrite P.
    + destruct r as [e'|].
      * destruct R as (files' & Hin & Hn). exists files'.
        split; [by apply list_elem_of_further|]. by rewrite <- Hf1.
      * destruct R as (ps & HC & HF). exists (length (heap s) :: ps). split.
        -- rewrite HC. simpl. rewrite C1. by rewrite <- app_assoc.
        -- constructor.
           ++ exists (mkPackageInfo (Some pkg) false files e), pkgname.
              split_and!; try done; try (by eexists).
              by apply (frame_heap_lookup W s2 s' _ _ F2).
           ++ eapply Forall2_impl; [done|]. intros p' files' (i & name & ?).
              exists i, name. by rewrite <- Hf1.
  - inv_run H. split_and!; try done. exists files. split; [apply list_elem_of_here|done].
Qed.

Lemma fillLoop_program entries : ∀ s u s',
  fillLoop entries s = Ok u s' →
  conf s' = conf s ∧ imported s' = imported s ∧ trace s' = trace s ∧
  filesFrom (length (heap s)) s s' ∧
  AllPackages (prog s) ⊆ AllPackages (prog s') ∧
  (∀ path obj, (path, obj) ∈ entries → is_Some (AllPackages (prog s') !! obj)) ∧
  (∀ k p, AllPackages (prog s') !! k = Some p →
          AllPackages (prog s) !! k = Some p ∨
          (length (heap s) ≤ p ∧ heap s' !! p = Some (mkPackageInfo k true [] None))).
Proof.
  induction entries as [|[path obj] rest IH]; intros s u s' H; simpl in H.
  { inv_run H. split_and!; try done; [apply filesFrom_refl| |by left].
    intros path obj Hin. by apply elem_of_nil in Hin. }
  inv_bind H as s0 sx E0. inv_bind H as u1 s1 E1.
  pose proof (fillLoop_spec W _ _ _ _ H) as F2.
  apply IH in H as (C & I & T & G & S & Cov & New).
  destruct (AllPackages (prog s) !! obj) as [p|] eqn:Eo.
  - inv_run E1. split_and!; try done.
    intros path' obj' Hin. apply elem_of_cons in Hin as [[= -> ->]|Hin]; [|by eapply Cov].
    exists p. by apply (lookup_weaken _ _ _ _ Eo S).
  - inv_bind E1 as p s2 E2. inv_run E1.
    set (i := mkPackageInfo obj true [] None) in *.
    set (s1 := set_prog _ _) in *.
    assert (Hl : heap s1 = heap s ++ [i]) by done.
    assert (Hlen : length (heap s) < length (heap s1))
      by (rewrite Hl, length_app; simpl; lia).
    split_and!; try done.
    + eapply filesFrom_trans; [apply (filesFrom_register _ (set_heap (heap s ++ [i]) s));
                                reflexivity|].
      eapply filesFrom_mono; [|done]. lia.
    + etrans; [|done]. simpl. by apply insert_subseteq.
    + intros path' obj' Hin. apply elem_of_cons in Hin as [[= -> ->]|Hin]; [|by eapply Cov].
      exists (length (heap s)). apply (lookup_weaken _ _ _ _ (lookup_insert_eq _ _ _) S).
    + intros k p Hk. destruct (New _ _ Hk) as [Hold|[Hp Hi]].
      * simpl in Hold. apply lookup_insert_Some in Hold as [[<- <-]|[_ Hold]]; [|by left].
        right. split; [done|]. apply (frame_heap_lookup W s1 s' _ _ F2).
        rewrite Hl. by rewrite lookup_app_r, Nat.sub_diag.
      * right. split; [lia|done].
Qed.

Lemma fillLoop_keyed entries s u s' :
  fillLoop entries s = Ok u s' → wf s → keyed s → keyed s'.
Proof.
  intros H Hw Hk. pose proof (fillLoop_spec W _ _ _ _ H) as F.
  apply fillLoop_program in H as (_ & _ & _ & _ & _ & _ & New).
  intros k p i Hkp Hp. destruct (New _ _ Hkp) as [Hold|[_ Hi]].
  - eapply Hk; [done|]. pose proof (wf_all _ Hw _ _ Hold) as Hlt.
    apply lookup_lt_is_Some in Hlt as [i0 Hi0].
    by rewrite (frame_heap_lookup W s s' _ _ F Hi0) in Hp; injection Hp as <-.
  - rewrite Hi in Hp. by injection Hp as <-.
Qed.

Lemma fillLoop_noErrors entries s u s' :
  fillLoop entries s = Ok u s' → wf s → noErrors s → noErrors s'.
Proof.
  intros H Hw Hn. pose proof (fillLoop_spec W _ _ _ _ H) as F.
  apply fillLoop_program in H as (_ & _ & _ & _ & _ & _ & New).
  intros k p i Hkp Hp. destruct (New _ _ Hkp) as [Hold|[_ Hi]].
  - eapply Hn; [done|]. pose proof (wf_all _ Hw _ _ Hold) as Hlt.
    apply lookup_lt_is_Some in Hlt as [i0 Hi0].
    by rewrite (frame_heap_lookup W s s' _ _ F Hi0) in Hp; injection Hp as <-.
  - rewrite Hi in Hp. by injection Hp as <-.
Qed.

Lemma keyed_loadStart c : keyed (loadStart c).
Proof. intros k p i H. unfold loadStart in H. simpl in H. by rewrite lookup_empty in H. Qed.

(** The state in which the construction loops leave the program. *)
Lemma loadInitial_program fuel ord c r s1 :
  validOrder ord →
  loadInitial W fuel ord (loadStart c) = Ok r s1 →
  wf s1 ∧ keyed s1 ∧ orderly None s1 ∧ frame W (loadStart c) s1 ∧
  pFset (prog s1) = Some (effFset c) ∧
  match r with
  | Some e =>
      (∃ q i, q ∈ dom (importPkgs c) ∧ imported s1 !! q = Some (mkImportInfo i (Some e)) ∧
              Created (prog s1) = []) ∨
      (∃ files, files ∈ CreatePkgs c ∧ packageName W files (Some (effFset c)) = inr e)
  | None =>
      dom (Imported (prog s1)) = dom (importPkgs c) ∧
      (∀ q, q ∈ dom (importPkgs c) →
         ∃ p, Imported (prog s1) !! q = Some (Some p) ∧
              imported s1 !! q = Some (mkImportInfo (Some p) None)) ∧
      Forall2 (λ p files, ∃ i name,
                 heap s1 !! p = Some i ∧ Files i = files ∧ Importable i = false ∧
                 is_Some (Pkg i) ∧ packageName W files (Some (effFset c)) = inl name)
              (Created (prog s1)) (CreatePkgs c)
  end.
Proof.
  intros (HI & _ & _) H.
  pose proof (loadInitial_spec W _ _ _ _ _ H) as F.
  pose proof (loadInitial_orderly W _ _ _ _ _ H (orderly_loadStart c)) as O.
  assert (Hw0 : wf (loadStart c)) by apply wf_loadStart.
  destruct (loadStart_conf c) as (HIp & _ & _ & HCp & _ & _ & _ & _ & HFs & _).
  assert (Hkeys : ∀ q, q ∈ (rangeImportPkgs ord (importPkgs c)).*1 ↔ q ∈ dom (importPkgs c)).
  { intros q. rewrite (HI _). rewrite elem_of_dom. split.
    - intros Hq. apply list_elem_of_fmap in Hq as ([q' a] & -> & Hq).
      apply elem_of_map_to_list in Hq. by eexists.
    - intros [a Ha]. apply list_elem_of_fmap. exists (q, a).
      split; [done|]. by apply elem_of_map_to_list. }
  assert (Hip : importPkgs (conf (loadStart c)) = importPkgs c)
    by (unfold importPkgs; by rewrite HIp).
  pose proof (keyed_loadStart c) as Hk0.
  set (s00 := loadStart c) in *.
  unfold loadInitial in H. inv_bind H as c0 sc Ec. inv_bind H as r0 s0 E0'.
  assert (E0 : importLoop W fuel (rangeImportPkgs ord (importPkgs c)) s00 = Ok r0 s0)
    by (rewrite <- Hip; exact E0').
  clear E0'.
  pose proof (importLoop_spec W _ _ _ _ _ E0) as [F0 R0].
  apply importLoop_program in E0 as (K0 & C0 & P0 & I0); [|done].
  assert (Hw1 : wf s0) by (by apply (fr_wf _ _ _ F0)).
  destruct r0 as [e|].
  - inv_run H. split_and!; try done; [by apply K0 | by rewrite P0 |].
    left. destruct R0 as (q & i & Hq & Hi). exists q, i.
    split_and!; [by apply Hkeys | done | by rewrite C0].
  - inv_bind H as c1 sc1 Ec1.
    pose proof (confExt_fields _ _ (fr_conf _ _ _ F0)) as (_ & _ & _ & HC1 & _).
    assert (Hf0 : Fset (conf s0) = Some (effFset c)).
    { destruct (ce_fset _ _ (fr_conf _ _ _ F0)) as [Hx|[Hx _]]; [by rewrite Hx|].
      simpl in Hx. congruence. }
    pose proof (createLoop_spec W _ _ _ _ _ H) as F1.
    apply createLoop_program in H as (K1 & I1 & P1 & R1); [|done|by rewrite Hf0].
    rewrite Hf0 in R1. rewrite HC1, HCp in R1.
    split_and!; try done.
    + by apply (fr_wf _ _ _ F1).
    + by apply K1, K0.
    + by rewrite P1, P0.
    + destruct r as [e|]; [by right|].
      destruct (I0 eq_refl) as [Ia Ib]. destruct R1 as (ps & HCr & HF).
      rewrite C0 in HCr. simpl in HCr. subst ps.
      assert (Hall : ∀ q, q ∈ dom (importPkgs c) →
                ∃ p, Imported (prog s1) !! q = Some (Some p) ∧
                     imported s1 !! q = Some (mkImportInfo (Some p) None)).
      { intros q Hq. apply Hkeys in Hq. destruct (Ib q Hq) as (p & Hp & Hc).
        exists p. rewrite I1. split; [done|]. by apply (frame_lookup W s0 s1 _ _ F1). }
      split_and!; [|done..].
      apply set_eq. intros q. split.
      * intros Hq. destruct (decide (q ∈ dom (importPkgs c))) as [?|Hn]; [done|].
        rewrite I1 in Hq. apply elem_of_dom in Hq.
        rewrite (Ia q) in Hq; [|by rewrite Hkeys]. simpl in Hq.
        rewrite lookup_empty in Hq. by destruct Hq.
      * intros Hq. destruct (Hall q Hq) as (p & Hp & _). apply elem_of_dom. by eexists.
Qed.

(** The state in which a successful [Load] leaves the program. *)
Lemma Load_success fuel ord c pr s' :
  validOrder ord →
  Load W fuel ord c = Ok (Some pr, None) s' →
  ∃ s1, loadInitial W fuel ord (loadStart c) = Ok None s1 ∧
    pr = prog s' ∧ frame W s1 s' ∧ conf s' = conf s1 ∧ imported s' = imported s1 ∧
    trace s' = trace s1 ∧
    Created pr = Created (prog s1) ∧ Imported pr = Imported (prog s1) ∧
    pFset pr = pFset (prog s1) ∧
    size (Imported pr) + length (Created pr) ≠ 0 ∧
    wf s' ∧ keyed s' ∧ noErrors s' ∧
    (∀ path obj, ImportMap s' !! path = Some obj → is_Some (AllPackages pr !! obj)).
Proof.
  intros Hord H. pose proof Hord as (_ & HA & HM).
  unfold Load in H. inv_bind H as r0 s1 E1.
  destruct (loadInitial_program _ _ _ _ _ Hord E1) as (Hw1 & Hk1 & _ & _ & _ & _).
  destruct r0 as [e|]; [by inv_run H|].
  exists s1. split; [done|].
  unfold loadFinish in H. inv_bind H as s0 sx E0.
  case_bool_decide as Hsize; [by inv_run H|].
  inv_bind H as errpkgs s2 E2. apply scanErrors_spec in E2 as [-> Herr].
  destruct errpkgs as [|x l]; [|by inv_run H].
  inv_bind H as u s3 E3. inv_bind H as s4 sy E4. inv_run H.
  assert (Hno : noErrors s1).
  { apply errorPaths_nil; [done|]. unfold errorPaths.
    apply Permutation_nil_r. rewrite Herr. by rewrite (HA _). }
  pose proof (fillLoop_spec W _ _ _ _ E3) as F3.
  pose proof (fillLoop_keyed _ _ _ _ E3 Hw1 Hk1) as Hk3.
  pose proof (fillLoop_noErrors _ _ _ _ E3 Hw1 Hno) as Hn3.
  apply fillLoop_program in E3 as (C3 & I3 & T3 & G3 & _ & Cov & _).
  apply filesFrom_fields in G3 as (Cr & Im & Pf).
  split_and!; try done.
  - by rewrite Im, Cr.
  - by apply (fr_wf _ _ _ F3).
  - intros path obj Hp. apply (Cov path). rewrite (HM _).
    apply elem_of_map_to_list. unfold ImportMap in *. by rewrite C3 in Hp.
Qed.

End LoadProgram.


(** * The queries on a [Program] *)

Lemma InitialPackages_eq range prog :
  InitialPackages range prog = (Some <$> Created prog) ++ (range (Imported prog)).*2.
Proof.
  unfold InitialPackages. simpl. generalize (Some <$> Created prog).
  induction (range (Imported prog)) as [|kv l IH]; intros acc; simpl.
  - by rewrite app_nil_r.
  - rewrite IH. by rewrite <- app_assoc.
Qed.

Section QueryLemmas.
Variable Node : Type.
Variable tokenFileContainsPos : option go_token.FileSet → go_ast.File → token_Pos → bool.
Variable astutil_PathEnclosingInterval :
  go_ast.File → token_Pos → token_Pos → option (list Node) * bool.

Lemma enclosingInFiles_Some fs files start end_ path exact :
  enclosingInFiles Node tokenFileContainsPos astutil_PathEnclosingInterval
    fs files start end_ = Some (path, exact) →
  ∃ before f after,
    files = before ++ f :: after ∧
    tokenFileContainsPos fs f start = true ∧
    astutil_PathEnclosingInterval f start end_ = (Some path, exact) ∧
    ∀ g, g ∈ before → tokenFileContainsPos fs g start = true →
         (astutil_PathEnclosingInterval g start end_).1 = None.
Proof.
  induction files as [|f0 files IH]; simpl; [done|].
  destruct (tokenFileContainsPos fs f0 start) eqn:Ec; simpl.
  - destruct (astutil_PathEnclosingInterval f0 start end_) as [[path0|] exact0] eqn:Ea.
    + intros [= -> ->]. exists [], f0, files. split_and!; try done.
      intros g Hg. by apply elem_of_nil in Hg.
    + intros H. destruct (IH H) as (before & f & after & -> & Hc & Hp & Hb).
      exists (f0 :: before), f, after. split_and!; try done.
      intros g Hg Hgc. apply elem_of_cons in Hg as [->|Hg]; [by rewrite Ea|by apply Hb].
  - intros H. destruct (IH H) as (before & f & after & -> & Hc & Hp & Hb).
    exists (f0 :: before), f, after. split_and!; try done.
    intros g Hg Hgc. apply elem_of_cons in Hg as [->|Hg]; [congruence|by apply Hb].
Qed.

Lemma enclosingInFiles_None fs files start end_ :
  enclosingInFiles Node tokenFileContainsPos astutil_PathEnclosingInterval
    fs files start end_ = None ↔
  ∀ g, g ∈ files → tokenFileContainsPos fs g start = true →
       (astutil_PathEnclosingInterval g start end_).1 = None.
Proof.
  induction files as [|f0 files IH]; simpl.
  { split; [|done]. intros _ g Hg. by apply elem_of_nil in Hg. }
  destruct (tokenFileContainsPos fs f0 start) eqn:Ec; simpl.
  - destruct (astutil_PathEnclosingInterval f0 start end_) as [[path0|] exact0] eqn:Ea.
    + split; [done|]. intros H. specialize (H f0 (list_elem_of_here _ _) Ec).
      by rewrite Ea in H.
    + rewrite IH. split.
      * intros H g Hg Hgc. apply elem_of_cons in Hg as [->|Hg]; [by rewrite Ea|by apply H].
      * intros H g Hg. apply H. by apply list_elem_of_further.
  - rewrite IH. split.
    + intros H g Hg Hgc. apply elem_of_cons in Hg as [->|Hg]; [congruence|by apply H].
    + intros H g Hg. apply H. by apply list_elem_of_further.
Qed.

Lemma enclosingInPackages_spec fs entries start end_ : ∀ s r s',
  enclosingInPackages Node tokenFileContainsPos astutil_PathEnclosingInterval
    fs entries start end_ s = Ok r s' →
  s' = s ∧
  ((∃ k p i path exact,
      r = (Some p, Some path, exact) ∧ (k, p) ∈ entries ∧ heap s !! p = Some i ∧
      enclosingInFiles Node tokenFileContainsPos astutil_PathEnclosingInterval
        fs (Files i) start end_ = Some (path, exact)) ∨
   (r = (None, None, false) ∧
    ∀ k p i, (k, p) ∈ entries → heap s !! p = Some i →
      enclosingInFiles Node tokenFileContainsPos astutil_PathEnclosingInterval
        fs (Files i) start end_ = None)).
Proof.
  induction entries as [|[k p] rest IH]; intros s r s' H; simpl in H.
  { inv_run H. split; [done|]. right. split; [done|].
    intros k p i Hin. by apply elem_of_nil in Hin. }
  inv_bind H as i s1 E1. apply deref_Ok in E1 as (-> & a & [= <-] & Hi).
  destruct (enclosingInFiles _ _ _ fs (Files i) start end_) as [[path exact]|] eqn:Ef.
  - inv_run H. split; [done|]. left. exists k, p, i, path, exact.
    split_and!; try done. apply list_elem_of_here.
  - apply IH in H as [-> H]. split; [done|].
    destruct H as [(k' & p' & i' & path & exact & -> & Hin & Hi' & Hf)|[-> Hn]].
    + left. exists k', p', i', path, exact. split_and!; try done.
      by apply list_elem_of_further.
    + right. split; [done|]. intros k' p' i' Hin Hi'.
      apply elem_of_cons in Hin as [[= -> ->]|Hin]; [congruence|by eapply Hn].
Qed.

Lemma enclosingInPackages_total fs entries start end_ s :
  (∀ kp, kp ∈ entries → kp.2 < length (heap s)) →
  total (enclosingInPackages Node tokenFileContainsPos astutil_PathEnclosingInterval
           fs entries start end_) s.
Proof.
  induction entries as [|[k p] rest IH]; intros Hl; simpl.
  { apply total_ret. }
  assert (Hp : p < length (heap s)) by (apply (Hl (k, p)), list_elem_of_here).
  apply lookup_lt_is_Some in Hp as [i Hi].
  apply total_bind. exists i, s. split; [unfold deref; by rewrite Hi|].
  destruct (enclosingInFiles _ _ _ fs (Files i) start end_) as [[path exact]|].
  - apply total_ret.
  - apply IH. intros kp Hkp. by apply Hl, list_elem_of_further.
Qed.

End QueryLemmas.

(** * The import callback and the canonical map *)

Section Callback.
Variable W : Collaborators.

Lemma doImport_stores fuel path s pkg s' :
  path ≠ "unsafe" → wf s →
  doImport W fuel PackagesMap path s = Ok (pkg, None) s' →
  ImportMap s' !! path = Some pkg ∧
  ∃ p i, imported s' !! path = Some (mkImportInfo (Some p) None) ∧
         heap s' !! p = Some i ∧ Pkg i = pkg.
Proof.
  intros Hu Hw H. unfold doImport, doImport_ in H. rewrite decide_False in H by done.
  inv_bind H as r0 s0 E0. apply importPackage_spec in E0 as [[F0 _] L0].
  destruct (r0.2) as [e|] eqn:Er; [by unfold ret in H|].
  inv_bind H as i s1 E1. inv_bind H as u s2 E2. inv_run H.
  apply deref_Ok in E1 as (-> & p & Hp & Hi).
  unfold mapStore in E2. destruct (Packages (conf s0)) as [m|] eqn:Em; [|done].
  injection E2 as _ <-. split.
  - unfold ImportMap, Packages. simpl. by rewrite lookup_insert_eq.
  - exists p, i. simpl. by rewrite L0, Hp.
Qed.

Lemma doImport_nil_map fuel path s p s1 :
  path ≠ "unsafe" → wf s →
  importPackage W fuel path s = Ok (Some p, None) s1 →
  doImport W fuel NilMap path s = Panic "assignment to entry in nil map".
Proof.
  intros Hu Hw H. unfold doImport, doImport_. rewrite decide_False by done.
  rewrite (bind_Ok_intro _ _ _ _ _ H). simpl.
  pose proof (importPackage_spec W _ _ _ _ _ H) as [[F _] L].
  pose proof (wf_cache _ (fr_wf _ _ _ F Hw) _ _ L) as Hp. simpl in Hp.
  apply lookup_lt_is_Some in Hp as [i Hi].
  unfold bind, deref. by rewrite Hi.
Qed.

End Callback.


(** * The supplied [IgnoreFuncBodies] is not used *)

Section Blind.
Variable W : Collaborators.
Variable b : bool.

Lemma blind_ret {A} (a : A) : blind b (ret a).
Proof. done. Qed.

Lemma blind_bind {A B} (m : M state A) (k : A → M state B) :
  blind b m → (∀ a, blind b (k a)) → blind b (bind m k).
Proof.
  intros Hm Hk s. unfold bind. rewrite Hm. destruct (m s) as [a s1| |]; simpl; [|done..].
  apply Hk.
Qed.

(** A computation that starts by reading the configuration. *)
Lemma blind_conf {A} (k : Config → M state A) :
  (∀ c, k (set_IgnoreFuncBodies b c) = k c) →
  (∀ c, blind b (k c)) →
  blind b (bind (gets conf) k).
Proof. intros Hc Hk s. unfold bind, gets. simpl. rewrite Hc. apply Hk. Qed.

Lemma blind_get {A} (k : state → M state A) :
  (∀ s, k (ignoring b s) (ignoring b s) = mapState (ignoring b) (k s s)) →
  blind b (bind get k).
Proof. intros Hk s. unfold bind, get. apply Hk. Qed.

Lemma blind_modify (f : state → state) :
  (∀ s, f (ignoring b s) = ignoring b (f s)) → blind b (modify f).
Proof. intros Hf s. unfold modify. simpl. by rewrite Hf. Qed.

Lemma blind_emit ev : blind b (emit ev).
Proof. by apply blind_modify. Qed.

Lemma blind_alloc i : blind b (alloc i).
Proof. done. Qed.

Lemma blind_deref p : blind b (deref p).
Proof. intros s. unfold deref. destruct p as [a|]; [|done]. simpl. by destruct (heap s !! a). Qed.

Lemma blind_registerPackage pkg p : blind b (registerPackage pkg p).
Proof. by apply blind_modify. Qed.

Lemma blind_setImported path ii : blind b (setImported path ii).
Proof. by apply blind_modify. Qed.

Lemma blind_markImportable p : blind b (markImportable p).
Proof. destruct p as [a|]; [by apply blind_modify|done]. Qed.

Lemma blind_mapStore imports path pkg : blind b (mapStore imports path pkg).
Proof.
  intros s. unfold mapStore. destruct imports; [done|].
  unfold Packages. simpl. by destruct (go_types.Packages (TypeChecker (conf s))).
Qed.

Lemma blind_callImporter importfn path : blind b (callImporter importfn path).
Proof.
  intros s. unfold callImporter, Packages. simpl.
  destruct (go_types.Packages (TypeChecker (conf s))) as [m|].
  - by destruct (importfn m path).
  - destruct (importfn ∅ path) as [m' r]. by destruct (decide (m' = ∅)).
Qed.

Lemma blind_fset : blind b (liftConf fset).
Proof. intros s. unfold liftConf, fset. simpl. by destruct (Fset (conf s)). Qed.

Lemma blind_importFromBinary path : blind b (importFromBinary W path).
Proof.
  unfold importFromBinary. apply blind_conf; [done|]. intros c.
  apply blind_bind; [apply blind_emit|]. intros _.
  apply blind_bind; [apply blind_callImporter|]. intros [pkg [e|]]; [apply blind_ret|].
  apply blind_bind; [apply blind_alloc|]. intros p.
  apply blind_bind; [apply blind_registerPackage|]. intros _. apply blind_ret.
Qed.

Section Level.
Variable importPackage' : string → M state (option ptr * option error).
Hypothesis importPackage'_blind : ∀ path, blind b (importPackage' path).

Lemma blind_doImport_ imports path : blind b (doImport_ importPackage' imports path).
Proof.
  unfold doImport_. destruct (decide (path = "unsafe")); [apply blind_ret|].
  apply blind_bind; [apply importPackage'_blind|]. intros r.
  destruct (r.2); [apply blind_ret|].
  apply blind_bind; [apply blind_deref|]. intros i.
  apply blind_bind; [apply blind_mapStore|]. intros _. apply blind_ret.
Qed.

Lemma blind_runCheck Err c :
  (∀ e, blind b (Err e)) → blind b (runCheck (doImport_ importPackage') Err c).
Proof.
  intros HErr. induction c as [pkg e|e k IH|path k IH]; simpl.
  - apply blind_ret.
  - apply blind_bind; [apply HErr|]. intros _. apply IH.
  - apply blind_bind; [apply blind_doImport_|]. intros r. apply IH.
Qed.

Lemma blind_createPackage_ path files :
  blind b (createPackage_ W (doImport_ importPackage') path files).
Proof.
  unfold createPackage_. apply blind_bind; [apply blind_alloc|]. intros p.
  apply blind_conf; [done|]. intros c.
  apply blind_bind; [apply blind_fset|]. intros fs.
  apply blind_bind; [apply blind_runCheck; intros e; apply blind_emit|]. intros r.
  apply blind_bind; [by apply blind_modify|]. intros _.
  apply blind_bind; [apply blind_registerPackage|]. intros _. apply blind_ret.
Qed.

Lemma blind_importFromSource_ path which :
  blind b (importFromSource_ W (doImport_ importPackage') path which).
Proof.
  unfold importFromSource_. apply blind_conf; [done|]. intros c.
  apply blind_bind; [apply blind_fset|]. intros fs.
  apply blind_bind; [apply blind_emit|]. intros _.
  destruct (parsePackageFiles W (build c) fs path which) as [files|e]; [|apply blind_ret].
  apply blind_bind; [apply blind_createPackage_|]. intros p. apply blind_ret.
Qed.

Lemma blind_importPackage_ path : blind b (importPackage_ W importPackage' path).
Proof.
  unfold importPackage_. apply blind_get. intros s.
  change (imported (ignoring b s)) with (imported s).
  destruct (imported s !! path) as [ii|]; [done|].
  change (mapState (ignoring b) (?m s)) with (mapState (ignoring b) (m s)).
  apply (blind_bind (setImported path (cycleSentinel path))); [apply blind_setImported|].
  intros _. apply blind_conf.
  - intros c. by replace (loadStrategy (set_IgnoreFuncBodies b c) path)
      with (loadStrategy c path) by done.
  - intros c. apply blind_bind.
    + destruct (loadStrategy c path) as [which|];
        [apply blind_importFromSource_|apply blind_importFromBinary].
    + intros r. apply blind_bind; [apply blind_setImported|]. intros _.
      apply blind_bind; [apply blind_markImportable|]. intros _.
      apply blind_bind; [apply blind_emit|]. intros _. apply blind_ret.
Qed.

End Level.

Lemma blind_importPackage fuel : ∀ path, blind b (importPackage W fuel path).
Proof.
  induction fuel as [|n IH]; intros path; [done|]. by apply blind_importPackage_.
Qed.

Lemma blind_createPackage fuel path files : blind b (createPackage W fuel path files).
Proof. apply blind_createPackage_, blind_importPackage. Qed.

Lemma blind_importLoop fuel entries : blind b (importLoop W fuel entries).
Proof.
  induction entries as [|[path aug] rest IH]; simpl; [apply blind_ret|].
  apply blind_bind; [apply blind_importPackage|]. intros r.
  destruct (r.2); [apply blind_ret|].
  apply blind_bind; [by apply blind_modify|]. intros _. apply IH.
Qed.

Lemma blind_createLoop fuel pkgs : blind b (createLoop W fuel pkgs).
Proof.
  induction pkgs as [|files rest IH]; simpl; [apply blind_ret|].
  apply blind_conf; [done|]. intros c.
  destruct (packageName W files (Fset c)) as [pkgname|e]; [|apply blind_ret].
  apply blind_bind; [apply blind_createPackage|]. intros p.
  apply blind_bind; [by apply blind_modify|]. intros _. apply IH.
Qed.

Lemma blind_scanErrors entries : blind b (scanErrors entries).
Proof.
  induction entries as [|[k p] rest IH]; simpl; [apply blind_ret|].
  apply blind_bind; [apply blind_deref|]. intros i.
  destruct (err i); [|apply IH]. destruct (Pkg i); [|done].
  apply blind_bind; [apply IH|]. intros l. apply blind_ret.
Qed.

Lemma blind_fillLoop entries : blind b (fillLoop entries).
Proof.
  induction entries as [|[path obj] rest IH]; simpl; [apply blind_ret|].
  apply blind_get. intros s. change (prog (ignoring b s)) with (prog s).
  change (mapState (ignoring b) (?m s)) with (mapState (ignoring b) (m s)).
  apply (blind_bind _ (λ _, fillLoop rest)); [|intros _; apply IH].
  destruct (AllPackages (prog s) !! obj); [apply blind_ret|].
  apply blind_bind; [apply blind_alloc|]. intros p. apply blind_registerPackage.
Qed.

Lemma blind_loadInitial fuel ord : blind b (loadInitial W fuel ord).
Proof.
  unfold loadInitial. apply blind_conf; [done|]. intros c.
  apply blind_bind; [apply blind_importLoop|]. intros [e|]; [apply blind_ret|].
  apply blind_conf; [done|]. intros c1. apply blind_createLoop.
Qed.

Lemma blind_loadFinish ord : blind b (loadFinish ord).
Proof.
  unfold loadFinish. apply blind_get. intros s.
  change (prog (ignoring b s)) with (prog s).
  case_bool_decide; [done|].
  change (mapState (ignoring b) (?m s)) with (mapState (ignoring b) (m s)).
  apply (blind_bind (scanErrors _)); [apply blind_scanErrors|]. intros [|x l]; [|apply blind_ret].
  change (ImportMap (ignoring b s)) with (ImportMap s).
  apply blind_bind; [apply blind_fillLoop|]. intros _.
  apply blind_get. done.
Qed.

Lemma loadStart_ignoring c :
  loadStart (set_IgnoreFuncBodies b c) = ignoring b (loadStart c).
Proof.
  unfold loadStart, ignoring, Packages. simpl.
  destruct (go_types.Packages (TypeChecker c)); simpl; by destruct (Fset c).
Qed.

Lemma Load_blind fuel ord c :
  Load W fuel ord (set_IgnoreFuncBodies b c) = mapState (ignoring b) (Load W fuel ord c).
Proof.
  unfold Load. rewrite loadStart_ignoring.
  apply (blind_bind (loadInitial W fuel ord)); [apply blind_loadInitial|].
  intros [e|]; [apply blind_ret|apply blind_loadFinish].
Qed.

End Blind.


(** * What [Load] returns *)

Lemma Load_outcomes (W : Collaborators) fuel ord c r s' :
  validOrder ord →
  Load W fuel ord c = Ok r s' →
  (∃ pr, r = (Some pr, None) ∧ pr = prog s' ∧
         size (Imported pr) + length (Created pr) ≠ 0) ∨
  (∃ e, r = (None, Some e) ∧
     ((∃ q i, q ∈ dom (importPkgs c) ∧
              imported s' !! q = Some (mkImportInfo i (Some e)) ∧
              Created (prog s') = []) ∨
      (∃ files, files ∈ CreatePkgs c ∧ packageName W files (Some (effFset c)) = inr e) ∨
      (e = noPackagesError ∧ importPkgs c = ∅ ∧ CreatePkgs c = []) ∨
      (∃ errpkgs, errpkgs ≠ [] ∧ e = typeErrorsError errpkgs))).
Proof.
  intros Hord H. destruct r as [[pr|] [e|]].
  - exfalso. unfold Load in H. inv_bind H as r0 s1 E1.
    destruct r0 as [e0|]; [by inv_run H|].
    unfold loadFinish in H. inv_bind H as s0 sx E0.
    case_bool_decide; [by inv_run H|].
    inv_bind H as errpkgs s2 E2. destruct errpkgs as [|x l]; [|by inv_run H].
    inv_bind H as u s3 E3. inv_bind H as s4 sy E4. by inv_run H.
  - left. apply Load_success in H as (s1 & _ & -> & _ & _ & _ & _ & _ & _ & _ & Hs & _);
      [|done]. by exists (prog s').
  - right. exists e. split; [done|].
    unfold Load in H. inv_bind H as r0 s1 E1.
    destruct (loadInitial_program _ _ _ _ _ _ Hord E1) as (_ & _ & _ & _ & _ & R).
    destruct r0 as [e0|].
    { inv_run H. destruct R as [R|R]; [by left|right; by left]. }
    destruct R as (Hdom & _ & HF).
    unfold loadFinish in H. inv_bind H as s0 sx E0.
    case_bool_decide as Hsize.
    + inv_run H. right. right. left. split; [done|].
      assert (Hi : Imported (prog s1) = ∅) by (apply map_size_empty_iff; lia).
      assert (Hc : Created (prog s1) = []) by (apply length_zero_iff_nil; lia).
      split.
      * apply dom_empty_inv_L. by rewrite <- Hdom, Hi, dom_empty_L.
      * rewrite Hc in HF. by apply Forall2_nil_inv_l in HF.
    + inv_bind H as errpkgs s2 E2. apply scanErrors_spec in E2 as [-> _].
      destruct errpkgs as [|x l].
      * inv_bind H as u s3 E3. inv_bind H as s4 sy E4. by inv_run H.
      * inv_run H. right. right. right. by exists (x :: l).
  - exfalso. unfold Load in H. inv_bind H as r0 s1 E1.
    destruct r0 as [e0|]; [by inv_run H|].
    unfold loadFinish in H. inv_bind H as s0 sx E0.
    case_bool_decide; [by inv_run H|].
    inv_bind H as errpkgs s2 E2. destruct errpkgs as [|x l]; [|by inv_run H].
    inv_bind H as u s3 E3. inv_bind H as s4 sy E4. by inv_run H.
Qed.

(** The trace of a load follows the strategy of the configuration. *)
Lemma Load_strategy (W : Collaborators) fuel ord c r s' :
  Load W fuel ord c = Ok r s' →
  orderly None s' ∧ (∀ q, loadStrategy (conf s') q = loadStrategy c q) ∧
  errorSink (TypeChecker (conf s')) = errorSink (TypeChecker c).
Proof.
  intros H. split; [by eapply Load_orderly|]. apply Load_frame in H. split.
  - intros q. rewrite (confExt_loadStrategy _ _ _ (fr_conf _ _ _ H)).
    apply loadStart_strategy.
  - rewrite (frame_sink W _ _ H). unfold errorSink.
    destruct (loadStart_conf c) as (_ & _ & _ & _ & _ & HE & _). by rewrite HE.
Qed.


(** * Further properties of the loader *)

(** ** The convenience methods *)

(** X1: [CreateFromFilenames] returns for every configuration and every
    list of file names, also when [Fset] is nil: it initialises [Fset]
    before it reaches [CreateFromFiles].  When the files do not parse it
    returns the error and adds no package; otherwise it returns nil and
    appends the parsed files as one package after the ones [CreatePkgs]
    had.  It touches nothing else. *)
Theorem CreateFromFilenames_never_panics
    (parseFiles : go_token.FileSet → string → list string → list go_ast.File + error)
    (filenames : list string) (c : Config) :
  ∃ r c',
    CreateFromFilenames parseFiles filenames c = Ok r c' ∧
    Fset c' = Some (effFset c) ∧
    ImportPkgs c' = ImportPkgs c ∧ TypeChecker c' = TypeChecker c ∧
    TypeCheckFuncBodies c' = TypeCheckFuncBodies c ∧
    SourceImports c' = SourceImports c ∧ Build c' = Build c ∧
    match parseFiles (effFset c) "." filenames with
    | inl files => r = None ∧ CreatePkgs c' = CreatePkgs c ++ [files]
    | inr e => r = Some e ∧ CreatePkgs c' = CreatePkgs c
    end.
Proof.
  rewrite CreateFromFilenames_eq.
  destruct (parseFiles (effFset c) "." filenames) as [files|e]; by eexists _, _.
Qed.

(** X2: [CreateFromFiles] panics with "nil Fset" on a configuration whose
    [Fset] is nil and on no other.  [ParseFile] hands the parser the
    configuration's file set, a new one if [Fset] was nil, and leaves it in
    [Fset], so a [CreateFromFiles] that follows a [ParseFile] appends its
    package and does not panic. *)
Theorem ParseFile_prepares_CreateFromFiles (Src Mode : Type)
    (parser_ParseFile :
       go_token.FileSet → string → Src → Mode → option go_ast.File * option error)
    (filename : string) (src : Src) (mode : Mode) (files : list go_ast.File) (c : Config) :
  (CreateFromFiles files c = Panic "nil Fset" ↔ Fset c = None) ∧
  ∃ c1,
    ParseFile Src Mode parser_ParseFile filename src mode c =
      Ok (parser_ParseFile (effFset c) filename src mode) c1 ∧
    Fset c1 = Some (effFset c) ∧ CreatePkgs c1 = CreatePkgs c ∧
    CreateFromFiles files c1 = Ok tt (set_CreatePkgs (CreatePkgs c ++ [files]) c1).
Proof.
  split.
  - unfold CreateFromFiles. by destruct (Fset c).
  - unfold ParseFile. rewrite (bind_Ok_intro _ _ _ _ _ (fset_eq c)).
    eexists. split_and!; done.
Qed.

(** X3: the order of two calls of [Import] does not matter and a repeated
    call changes nothing; [Import] does not panic on a nil [ImportPkgs],
    which it replaces by a map. *)
Theorem Import_order_independent (p q : string) (c : Config) :
  (do Import p then Import q) c = (do Import q then Import p) c ∧
  (do Import p then Import p) c = Import p c ∧
  ∃ c', Import p c = Ok tt c' ∧ (p ≠ "unsafe" → is_Some (ImportPkgs c')).
Proof.
  assert (Hset : ∀ m1 m2 (c0 : Config),
            set_ImportPkgs (Some m2) (set_ImportPkgs (Some m1) c0) = set_ImportPkgs (Some m2) c0)
    by done.
  split_and!.
  - unfold Import.
    destruct (decide (p = "unsafe")) as [Hp|Hp], (decide (q = "unsafe")) as [Hq|Hq];
      try done.
    unfold bind, modify. rewrite !importPkgs_set_ImportPkgs, !Hset.
    destruct (decide (p = q)) as [->|Hne]; [done|]. by rewrite insert_insert_ne.
  - unfold Import. destruct (decide (p = "unsafe")) as [Hp|Hp]; [done|].
    unfold bind, modify. by rewrite importPkgs_set_ImportPkgs, Hset, insert_insert_eq.
  - unfold Import. destruct (decide (p = "unsafe")) as [Hp|Hp]; by eexists.
Qed.

(** X4: [ImportWithTests] returns for every path and configuration, also
    one with a nil [Fset] or a nil [ImportPkgs].  It leaves the checker
    options, [TypeCheckFuncBodies], [SourceImports] and [Build] as they
    were, changes [Fset] only from nil to a new file set, keeps the packages
    of [CreatePkgs] and adds at most one, keeps the entries of the other
    paths, and enters its own path unless it is "unsafe".  When it returns
    an error the path is entered unaugmented and no package was added. *)
Theorem ImportWithTests_effects (W : Collaborators) (path : string) (c : Config) :
  ∃ r c',
    ImportWithTests W path c = Ok r c' ∧
    (TypeChecker c' = TypeChecker c ∧ TypeCheckFuncBodies c' = TypeCheckFuncBodies c ∧
     SourceImports c' = SourceImports c ∧ Build c' = Build c) ∧
    (Fset c' = Fset c ∨ Fset c = None ∧ Fset c' = Some go_token.NewFileSet) ∧
    CreatePkgs c `prefix_of` CreatePkgs c' ∧
    length (CreatePkgs c') ≤ S (length (CreatePkgs c)) ∧
    (∀ q, q ≠ path → importPkgs c' !! q = importPkgs c !! q) ∧
    (path ≠ "unsafe" → is_Some (importPkgs c' !! path)) ∧
    (is_Some r → importPkgs c' !! path = Some false ∧ CreatePkgs c' = CreatePkgs c).
Proof.
  destruct (ImportWithTests_total W path c) as (r & c' & E).
  exists r, c'. split; [done|]. by apply (ImportWithTests_frame W).
Qed.

(** X5: [ImportWithTests] is not idempotent.  When no other path is
    augmented and a call for [p] returns nil, a second call for [p] resets
    the flag, finds no augmented entry, parses the external test files
    again and, if there are any, appends them to [CreatePkgs] a second
    time; [ImportPkgs] ends as the first call left it. *)
Theorem ImportWithTests_repeated (W : Collaborators) (p : string) (c c1 : Config) :
  p ≠ "unsafe" →
  (∀ q, q ≠ p → importPkgs c !! q ≠ Some true) →
  ImportWithTests W p c = Ok None c1 →
  ∃ xtestFiles c2,
    parsePackageFiles W (build c) (effFset c) p "x" = inl xtestFiles ∧
    importPkgs c1 !! p = Some true ∧
    CreatePkgs c1 = CreatePkgs c ++
      (if bool_decide (0 < length xtestFiles) then [xtestFiles] else []) ∧
    ImportWithTests W p c1 = Ok None c2 ∧
    importPkgs c2 = importPkgs c1 ∧
    CreatePkgs c2 = CreatePkgs c1 ++
      (if bool_decide (0 < length xtestFiles) then [xtestFiles] else []).
Proof.
  intros Hu Hno H.
  assert (Hfree : ∀ m : gmap string bool,
            (∀ q, q ≠ p → m !! q ≠ Some true) → ∀ q, <[p := false]> m !! q ≠ Some true).
  { intros m Hm q Hq. apply lookup_insert_Some in Hq as [[_ [=]]|[Hne Hq]]. by destruct (Hm q). }
  pose proof H as H1. apply ImportWithTests_frame in H1 as ((_ & _ & _ & HB) & HF & _).
  apply ImportWithTests_cases in H
    as [([q Hq] & _)|[_ [(e & _ & [=] & _)|(xs & HP & _ & HI & HC)]]]; [| |done].
  { by destruct (Hfree _ Hno q). }
  assert (HI1 : importPkgs c1 !! p = Some true) by (by rewrite HI, lookup_insert_eq).
  assert (Hb : build c1 = build c) by (unfold build; by rewrite HB).
  assert (He : effFset c1 = effFset c).
  { unfold effFset. destruct HF as [->|[-> ->]]; done. }
  assert (Hno1 : ∀ q, q ≠ p → importPkgs c1 !! q ≠ Some true).
  { intros q Hq. rewrite HI, !lookup_insert_ne by done. by apply Hno. }
  destruct (ImportWithTests_total W p c1) as (r2 & c2 & E2).
  pose proof E2 as E2'.
  apply ImportWithTests_cases in E2
    as [([q Hq] & _)|[_ [(e & He2 & _)|(xs2 & HP2 & -> & HI2 & HC2)]]]; [| | |done].
  - by destruct (Hfree _ Hno1 q).
  - rewrite Hb, He, HP in He2. done.
  - rewrite Hb, He, HP in HP2. injection HP2 as <-.
    exists xs, c2. split_and!; try done.
    rewrite HI2, HI. by rewrite !insert_insert_eq.
Qed.

Lemma ImportWithTests_repeated_witness :
  "lib" ≠ "unsafe" ∧
  (∀ q, q ≠ "lib" → importPkgs zeroConfig !! q ≠ Some true) ∧
  ∃ c1, ImportWithTests demo "lib" zeroConfig = Ok None c1 ∧
    ∃ xtestFiles c2,
      parsePackageFiles demo (build zeroConfig) (effFset zeroConfig) "lib" "x"
        = inl xtestFiles ∧
      importPkgs c1 !! "lib" = Some true ∧
      CreatePkgs c1 = CreatePkgs zeroConfig ++
        (if bool_decide (0 < length xtestFiles) then [xtestFiles] else []) ∧
      ImportWithTests demo "lib" c1 = Ok None c2 ∧
      importPkgs c2 = importPkgs c1 ∧
      CreatePkgs c2 = CreatePkgs c1 ++
        (if bool_decide (0 < length xtestFiles) then [xtestFiles] else []).
Proof.
  assert (H1 : "lib" ≠ "unsafe") by discriminate.
  assert (H2 : ∀ q, q ≠ "lib" → importPkgs zeroConfig !! q ≠ Some true).
  { intros q _. unfold importPkgs. simpl. rewrite lookup_empty. discriminate. }
  assert (∃ c1, ImportWithTests demo "lib" zeroConfig = Ok None c1) as [c1 E]
    by (vm_compute; eauto).
  split_and!; try assumption. exists c1. split; [exact E|].
  exact (ImportWithTests_repeated demo "lib" zeroConfig c1 H1 H2 E).
Defined.

(** X6: a call [Import(p)] after [ImportWithTests(p)] resets the flag of
    [p], so that no entry is augmented any more, while the external test
    package of [p] stays in [CreatePkgs]; an [ImportWithTests] for another
    path that then returns nil has augmented that path. *)
Theorem Import_frees_augmentation (W : Collaborators) (p q : string) (c c1 : Config) :
  p ≠ "unsafe" → q ≠ "unsafe" → p ≠ q →
  (∀ r, r ≠ p → importPkgs c !! r ≠ Some true) →
  ImportWithTests W p c = Ok None c1 →
  ∃ c2, Import p c1 = Ok tt c2 ∧
    importPkgs c1 !! p = Some true ∧
    importPkgs c2 !! p = Some false ∧
    (∀ r, importPkgs c2 !! r ≠ Some true) ∧
    CreatePkgs c2 = CreatePkgs c1 ∧
    ∀ c3, ImportWithTests W q c2 = Ok None c3 →
          importPkgs c3 !! q = Some true ∧ importPkgs c3 !! p = Some false.
Proof.
  intros Hp Hq Hpq Hno H.
  apply ImportWithTests_cases in H
    as [([r Hr] & _)|[_ [(e & _ & [=] & _)|(xs & HP & _ & HI & HC)]]]; [| |done].
  { apply lookup_insert_Some in Hr as [[_ [=]]|[Hne Hr]]. by destruct (Hno r). }
  eexists. split; [by apply Import_eq|]. rewrite importPkgs_set_ImportPkgs, HI.
  rewrite !insert_insert_eq.
  assert (Hfree : ∀ r, <[p := false]> (importPkgs c) !! r ≠ Some true).
  { intros r Hr. apply lookup_insert_Some in Hr as [[_ [=]]|[Hne Hr]]. by destruct (Hno r). }
  split_and!; try done; [by rewrite lookup_insert_eq..|].
  intros c3 H3. apply ImportWithTests_cases in H3
    as [([r Hr] & _)|[_ [(e & _ & [=] & _)|(xs3 & _ & _ & HI3 & _)]]]; [| |done].
  - rewrite importPkgs_set_ImportPkgs in Hr.
    apply lookup_insert_Some in Hr as [[_ [=]]|[_ Hr]]. by destruct (Hfree r).
  - rewrite HI3, importPkgs_set_ImportPkgs. split; [by rewrite lookup_insert_eq|].
    by rewrite !lookup_insert_ne, lookup_insert_eq by done.
Qed.

Lemma Import_frees_augmentation_witness :
  "lib" ≠ "unsafe" ∧ "sub" ≠ "unsafe" ∧ "lib" ≠ "sub" ∧
  (∀ r, r ≠ "lib" → importPkgs zeroConfig !! r ≠ Some true) ∧
  ∃ c1, ImportWithTests demo "lib" zeroConfig = Ok None c1 ∧
    ∃ c2, Import "lib" c1 = Ok tt c2 ∧
      importPkgs c1 !! "lib" = Some true ∧
      importPkgs c2 !! "lib" = Some false ∧
      (∀ r, importPkgs c2 !! r ≠ Some true) ∧
      CreatePkgs c2 = CreatePkgs c1 ∧
      ∀ c3, ImportWithTests demo "sub" c2 = Ok None c3 →
            importPkgs c3 !! "sub" = Some true ∧ importPkgs c3 !! "lib" = Some false.
Proof.
  assert (H1 : "lib" ≠ "unsafe") by discriminate.
  assert (H2 : "sub" ≠ "unsafe") by discriminate.
  assert (H3 : "lib" ≠ "sub") by discriminate.
  assert (H4 : ∀ r, r ≠ "lib" → importPkgs zeroConfig !! r ≠ Some true).
  { intros r _. unfold importPkgs. simpl. rewrite lookup_empty. discriminate. }
  assert (∃ c1, ImportWithTests demo "lib" zeroConfig = Ok None c1) as [c1 E]
    by (vm_compute; eauto).
  split_and!; try assumption. exists c1. split; [exact E|].
  exact (Import_frees_augmentation demo "lib" "sub" zeroConfig c1 H1 H2 H3 H4 E).
Defined.

(** ** The command line *)

(** X7: [FromArgs] reads its arguments from left to right and what it does
    with the arguments before the first "--" does not depend on what
    follows.  If those arguments are processed without an error, the "--" is
    consumed and the arguments after it are returned as they are, none of
    them interpreted; with no "--" the remaining arguments are processed
    from the configuration the first ones left.  If an argument fails, the
    error is returned with a nil rest, whatever follows. *)
Theorem FromArgs_prefix (W : Collaborators)
    (parseFiles : go_token.FileSet → string → list string → list go_ast.File + error)
    (pre : list string) (c c1 : Config) :
  "--" ∉ pre →
  (FromArgs W parseFiles pre c = Ok ([], None) c1 →
   ∀ post, FromArgs W parseFiles (pre ++ post) c = FromArgs W parseFiles post c1 ∧
           FromArgs W parseFiles (pre ++ "--" :: post) c = Ok (post, None) c1) ∧
  (∀ e, FromArgs W parseFiles pre c = Ok ([], Some e) c1 →
        ∀ post, FromArgs W parseFiles (pre ++ post) c = Ok ([], Some e) c1).
Proof.
  intros Hn. split.
  - intros H post. split; [by apply FromArgs_app|].
    by rewrite (FromArgs_app W parseFiles pre _ c c1 Hn H).
  - intros e H post. by apply FromArgs_stops.
Qed.

Lemma FromArgs_prefix_witness :
  ("--" ∉ ["notest:lib"; "a.go,b.go"]) ∧
  ∃ c1,
    FromArgs demo demoParseFiles ["notest:lib"; "a.go,b.go"] zeroConfig = Ok ([], None) c1 ∧
    (∀ post, FromArgs demo demoParseFiles (["notest:lib"; "a.go,b.go"] ++ post) zeroConfig
               = FromArgs demo demoParseFiles post c1 ∧
             FromArgs demo demoParseFiles (["notest:lib"; "a.go,b.go"] ++ "--" :: post)
               zeroConfig = Ok (post, None) c1).
Proof.
  assert (H1 : "--" ∉ ["notest:lib"; "a.go,b.go"]).
  { intros H. apply elem_of_cons in H as [[=]|H].
    apply elem_of_cons in H as [[=]|H]. by apply elem_of_nil in H. }
  assert (∃ c1, FromArgs demo demoParseFiles ["notest:lib"; "a.go,b.go"] zeroConfig
                = Ok ([], None) c1) as [c1 E] by (vm_compute; eauto).
  split; [exact H1|]. exists c1. split; [exact E|].
  exact (proj1 (FromArgs_prefix demo demoParseFiles _ zeroConfig c1 H1) E).
Defined.

(** X8: what [FromArgs] returns.  With an error the rest is nil.  Without
    one, the rest is what follows the first "--" of the arguments, and it is
    empty when there is no "--". *)
Theorem FromArgs_result (W : Collaborators)
    (parseFiles : go_token.FileSet → string → list string → list go_ast.File + error)
    (args : list string) (c : Config) (rest : list string) (err : option error) (c' : Config) :
  FromArgs W parseFiles args c = Ok (rest, err) c' →
  match err with
  | Some _ => rest = []
  | None => (rest = [] ∧ "--" ∉ args) ∨
            ∃ pre, args = pre ++ "--" :: rest ∧ "--" ∉ pre
  end.
Proof.
  revert c rest err c'.
  induction args as [|arg args IH]; intros c rest err c' H.
  { injection H as <- <- <-. left. split; [done|]. apply not_elem_of_nil. }
  destruct (decide (arg = "--")) as [->|Hne].
  { simpl in H. injection H as <- <- <-. right. exists []. split; [done|apply not_elem_of_nil]. }
  rewrite FromArgs_cons in H by done.
  destruct (fromArg W parseFiles arg c) as [[e|] c2| |]; try done.
  { by injection H as <- <- <-. }
  apply IH in H. destruct err as [e|]; [done|].
  destruct H as [[-> Hn]|(pre & -> & Hn)].
  - left. split; [done|]. by apply not_elem_of_cons.
  - right. exists (arg :: pre). split; [done|]. by apply not_elem_of_cons.
Qed.

Lemma FromArgs_result_witness :
  ∃ rest err c',
    FromArgs demo demoParseFiles ["lib"; "--"; "-v"; "--"] zeroConfig = Ok (rest, err) c' ∧
    match err with
    | Some _ => rest = []
    | None => (rest = [] ∧ "--" ∉ ["lib"; "--"; "-v"; "--"]) ∨
              ∃ pre, ["lib"; "--"; "-v"; "--"] = pre ++ "--" :: rest ∧ "--" ∉ pre
    end.
Proof.
  assert (∃ rest err c',
            FromArgs demo demoParseFiles ["lib"; "--"; "-v"; "--"] zeroConfig
            = Ok (rest, err) c') as (rest & err & c' & E) by (vm_compute; eauto).
  exists rest, err, c'. split; [exact E|].
  exact (FromArgs_result demo demoParseFiles _ zeroConfig rest err c' E).
Defined.

(** X9: [FromArgs] returns for every list of arguments and every
    configuration.  Whatever it returns, it has only added to the
    configuration: the checker options, [TypeCheckFuncBodies],
    [SourceImports] and [Build] are as they were, [Fset] has changed at most
    from nil to a new file set, the packages of [CreatePkgs] are kept in
    front of the new ones and no key of [ImportPkgs] is lost; and if at most
    one entry was augmented before, at most one is augmented after. *)
Theorem FromArgs_returns_and_grows (W : Collaborators)
    (parseFiles : go_token.FileSet → string → list string → list go_ast.File + error)
    (args : list string) (c : Config) :
  ∃ rest err c',
    FromArgs W parseFiles args c = Ok (rest, err) c' ∧
    configGrows c c' ∧
    (atMostOneAugmented (importPkgs c) → atMostOneAugmented (importPkgs c')).
Proof.
  revert c. induction args as [|arg args IH]; intros c.
  { eexists [], None, c. split_and!; [done | apply configGrows_refl | done]. }
  destruct (decide (arg = "--")) as [->|Hne].
  { eexists args, None, c. split_and!; [done | apply configGrows_refl | done]. }
  rewrite FromArgs_cons by done.
  destruct (fromArg_total W parseFiles arg c) as (err & c1 & E). rewrite E.
  apply fromArg_grows in E as [G A]. destruct err as [e|].
  - eexists [], (Some e), c1. done.
  - destruct (IH c1) as (rest & err & c' & E' & G' & A').
    exists rest, err, c'. split_and!; [done | by eapply configGrows_trans | auto].
Qed.

(** X10: how [FromArgs] reads one argument.  An argument that ends in ".go"
    is a comma-separated list of files, also when it starts with "notest:".
    Otherwise an argument "notest:p" imports [p] without its tests: the
    comparison of the trimmed argument with the argument finds the prefix.
    Any other argument but "--" is imported with its tests. *)
Theorem FromArgs_argument_kinds (W : Collaborators)
    (parseFiles : go_token.FileSet → string → list string → list go_ast.File + error)
    (rest : list string) (c : Config) :
  (∀ arg, go_strings.HasSuffix arg ".go" = true →
     FromArgs W parseFiles (arg :: rest) c =
     (let* err := CreateFromFilenames parseFiles (go_strings.Split arg ",") in
      match err with
      | Some e => ret ([], Some e)
      | None => FromArgs W parseFiles rest
      end) c) ∧
  (∀ p, go_strings.HasSuffix ("notest:" +:+ p) ".go" = false →
     FromArgs W parseFiles (("notest:" +:+ p) :: rest) c =
     (do Import p then FromArgs W parseFiles rest) c) ∧
  (∀ arg, arg ≠ "--" → go_strings.HasSuffix arg ".go" = false →
     go_strings.HasPrefix arg "notest:" = false →
     FromArgs W parseFiles (arg :: rest) c =
     (let* err := ImportWithTests W arg in
      match err with
      | Some e => ret ([], Some e)
      | None => FromArgs W parseFiles rest
      end) c).
Proof.
  split_and!.
  - intros arg Hs.
    assert (Hne : arg ≠ "--") by (by intros ->).
    rewrite FromArgs_cons by done. unfold fromArg. rewrite Hs. unfold bind.
    by destruct (CreateFromFilenames _ _ c) as [[e|] c1| |].
  - intros p Hs.
    assert (Hne : "notest:" +:+ p ≠ "--") by done.
    rewrite FromArgs_cons by done. unfold fromArg. rewrite Hs.
    rewrite TrimPrefix_append. rewrite decide_True.
    + unfold bind. by destruct (Import p c).
    + intros Heq. apply (f_equal String.length) in Heq.
      rewrite append_length in Heq. simpl in Heq. lia.
  - intros arg Hne Hs Hp.
    rewrite FromArgs_cons by done. unfold fromArg. rewrite Hs.
    assert (Ht : go_strings.TrimPrefix arg "notest:" = arg)
      by (unfold go_strings.TrimPrefix; by rewrite Hp).
    rewrite Ht. rewrite decide_False by (by intros []). unfold bind.
    by destruct (ImportWithTests W arg c) as [[e|] c1| |].
Qed.


(** ** The queries on a program *)

(** X11: [InitialPackages] returns the created packages in the order of
    [Created], followed by the imported packages in the order the range
    visits [Imported]; so it has one entry for each created package and for
    each key of [Imported], and its entries are the created packages and
    the values of [Imported]. *)
Theorem InitialPackages_lists
    (rangeImported : gmap string (option ptr) → list (string * option ptr))
    (prog : Program) :
  InitialPackages rangeImported prog =
    (Some <$> Created prog) ++ (rangeImported (Imported prog)).*2 ∧
  (rangeImported (Imported prog) ≡ₚ map_to_list (Imported prog) →
   length (InitialPackages rangeImported prog) =
     length (Created prog) + size (Imported prog) ∧
   ∀ x, x ∈ InitialPackages rangeImported prog ↔
        (∃ p, x = Some p ∧ p ∈ Created prog) ∨ (∃ q, Imported prog !! q = Some x)).
Proof.
  split; [apply InitialPackages_eq|]. intros Hperm. rewrite InitialPackages_eq. split.
  - rewrite length_app, !length_fmap, Hperm. by rewrite length_map_to_list.
  - intros x. rewrite elem_of_app, !list_elem_of_fmap. split.
    + intros [(p & -> & Hp)|([q y] & -> & Hq)]; [left; by eexists|].
      right. exists q. rewrite Hperm in Hq. by apply elem_of_map_to_list in Hq.
    + intros [(p & -> & Hp)|(q & Hq)]; [left; by eexists|].
      right. exists (q, x). split; [done|]. rewrite Hperm. by apply elem_of_map_to_list.
Qed.







(** ** [Load] *)

(** X14: with finitely many packages on disk, [Load] returns for every
    configuration: it does not panic and the recursion through the type
    checker's import callback ends.  What it returns is either a [Program]
    and a nil error, or a nil [Program] and an error. *)
Theorem Load_returns (W : Collaborators) (U : gset string) fuel ord c :
  validOrder ord → sourcesWithin W U → size U < fuel →
  ∃ r s', Load W fuel ord c = Ok r s' ∧
    ((∃ pr, r = (Some pr, None) ∧ pr = prog s') ∨ (∃ e, r = (None, Some e))).
Proof.
  intros Hord HU Hfuel.
  destruct (Load_total W U HU fuel ord c Hord Hfuel) as (r & s' & E).
  exists r, s'. split; [done|].
  destruct (Load_outcomes W _ _ _ _ _ Hord E) as [(pr & -> & -> & _)|(e & -> & _)].
  - left. by eexists.
  - right. by eexists.
Qed.

Lemma Load_returns_witness :
  validOrder keyOrder ∧ sourcesWithin demo (dom demoSources) ∧ size (dom demoSources) < 8 ∧
  ∃ r s', Load demo 8 keyOrder (importing true ["a"; "lib"; "dep"]) = Ok r s' ∧
    ((∃ pr, r = (Some pr, None) ∧ pr = prog s') ∨ (∃ e, r = (None, Some e))).
Proof.
  assert (Hord : validOrder keyOrder) by (split_and!; intros m; reflexivity).
  assert (Hsize : size (dom demoSources) < 8) by (vm_compute; lia).
  split_and!; [exact Hord | exact demo_sources | exact Hsize |].
  exact (Load_returns demo (dom demoSources) 8 keyOrder _ Hord demo_sources Hsize).
Defined.

(** X15: the errors of [Load].  A [Program] is returned only with a nil
    error and holds at least one initial package.  An error is returned
    with a nil [Program] and is one of four: the error of the import of an
    initial path, returned before any package of [CreatePkgs] is created;
    the error of [packageName] for a package of [CreatePkgs]; "no *.go
    source files nor packages were specified", when [ImportPkgs] and
    [CreatePkgs] are both empty; or the list of the packages with type
    errors, which is not empty. *)
Theorem Load_errors (W : Collaborators) fuel ord c r s' :
  validOrder ord →
  Load W fuel ord c = Ok r s' →
  (∃ pr, r = (Some pr, None) ∧ pr = prog s' ∧
         size (Imported pr) + length (Created pr) ≠ 0) ∨
  (∃ e, r = (None, Some e) ∧
     ((∃ q i, q ∈ dom (importPkgs c) ∧
              imported s' !! q = Some (mkImportInfo i (Some e)) ∧
              Created (prog s') = []) ∨
      (∃ files, files ∈ CreatePkgs c ∧ packageName W files (Some (effFset c)) = inr e) ∨
      (e = noPackagesError ∧ importPkgs c = ∅ ∧ CreatePkgs c = []) ∨
      (∃ errpkgs, errpkgs ≠ [] ∧ e = typeErrorsError errpkgs))).
Proof. apply Load_outcomes. Qed.

Lemma Load_errors_witness :
  let c := set_CreatePkgs [[]] (importing true ["lib"]) in
  validOrder keyOrder ∧
  ∃ r s', Load demo 3 keyOrder c = Ok r s' ∧
    ((∃ pr, r = (Some pr, None) ∧ pr = prog s' ∧
            size (Imported pr) + length (Created pr) ≠ 0) ∨
     (∃ e, r = (None, Some e) ∧
        ((∃ q i, q ∈ dom (importPkgs c) ∧
                 imported s' !! q = Some (mkImportInfo i (Some e)) ∧
                 Created (prog s') = []) ∨
         (∃ files, files ∈ CreatePkgs c ∧
                   packageName demo files (Some (effFset c)) = inr e) ∨
         (e = noPackagesError ∧ importPkgs c = ∅ ∧ CreatePkgs c = []) ∨
         (∃ errpkgs, errpkgs ≠ [] ∧ e = typeErrorsError errpkgs)))).
Proof.
  intros c.
  assert (Hord : validOrder keyOrder) by (split_and!; intros m; reflexivity).
  assert (∃ r s', Load demo 3 keyOrder c = Ok r s') as (r & s' & E)
    by (vm_compute; eauto).
  split; [exact Hord|]. exists r, s'. split; [exact E|].
  exact (Load_errors demo 3 keyOrder c r s' Hord E).
Defined.

(** X16: after a successful [Load], [Program.Imported] has exactly the keys
    of [Config.ImportPkgs]; each is mapped to a non-nil [PackageInfo], the
    one the importer's cache holds for the path, without an error, and that
    package is importable. *)
Theorem Load_imported (W : Collaborators) fuel ord c pr s' :
  validOrder ord →
  Load W fuel ord c = Ok (Some pr, None) s' →
  dom (Imported pr) = dom (importPkgs c) ∧
  ∀ q, q ∈ dom (importPkgs c) →
    ∃ p i, Imported pr !! q = Some (Some p) ∧
           imported s' !! q = Some (mkImportInfo (Some p) None) ∧
           heap s' !! p = Some i ∧ Importable i = true.
Proof.
  intros Hord H. pose proof (Load_orderly W _ _ _ _ _ H) as O.
  apply Load_success in H as (s1 & E1 & -> & F & _ & Hi & _ & _ & Him & _); [|done].
  destruct (loadInitial_program _ _ _ _ _ _ Hord E1) as (_ & _ & _ & _ & _ & Hdom & Hall & _).
  rewrite Him. split; [done|]. intros q Hq.
  destruct (Hall q Hq) as (p & Hp & Hc). rewrite <- Hi in Hc.
  destruct (od_importable _ _ O _ _ p Hc eq_refl) as (_ & i & Hpi & Himp).
  by exists p, i.
Qed.

Lemma Load_imported_witness :
  let c := importing true ["lib"; "sub"] in
  validOrder keyOrder ∧
  ∃ pr s', Load demo 3 keyOrder c = Ok (Some pr, None) s' ∧
    dom (Imported pr) = dom (importPkgs c) ∧
    ∀ q, q ∈ dom (importPkgs c) →
      ∃ p i, Imported pr !! q = Some (Some p) ∧
             imported s' !! q = Some (mkImportInfo (Some p) None) ∧
             heap s' !! p = Some i ∧ Importable i = true.
Proof.
  intros c.
  assert (Hord : validOrder keyOrder) by (split_and!; intros m; reflexivity).
  assert (∃ pr s', Load demo 3 keyOrder c = Ok (Some pr, None) s') as (pr & s' & E)
    by (vm_compute; eauto).
  split; [exact Hord|]. exists pr, s'. split; [exact E|].
  exact (Load_imported demo 3 keyOrder c pr s' Hord E).
Defined.

(** X17: after a successful [Load], [Program.Created] has one package for
    each element of [Config.CreatePkgs], in the same order: [Created[i]]
    holds the files of [CreatePkgs[i]], has a package object, the one
    checked under the name [packageName] gives for the files, and is not
    importable. *)
Theorem Load_created (W : Collaborators) fuel ord c pr s' :
  validOrder ord →
  Load W fuel ord c = Ok (Some pr, None) s' →
  Forall2 (λ p files, ∃ i name,
             heap s' !! p = Some i ∧ Files i = files ∧ Importable i = false ∧
             is_Some (Pkg i) ∧ packageName W files (Some (effFset c)) = inl name)
          (Created pr) (CreatePkgs c).
Proof.
  intros Hord H.
  apply Load_success in H as (s1 & E1 & -> & F & _ & _ & _ & Hcr & _); [|done].
  destruct (loadInitial_program _ _ _ _ _ _ Hord E1) as (_ & _ & _ & _ & _ & _ & _ & HF).
  rewrite Hcr. eapply Forall2_impl; [done|].
  intros p files (i & name & Hi & ?). exists i, name.
  split; [|done]. by apply (frame_heap_lookup W s1 s' _ _ F).
Qed.

Lemma Load_created_witness :
  let c := set_CreatePkgs [[go_ast.mkFile "main.go" "main" ["lib"]];
                           [go_ast.mkFile "x_test.go" "lib_test" ["lib"; "sub"]]]
             (importing true ["lib"]) in
  validOrder keyOrder ∧
  ∃ pr s', Load demo 3 keyOrder c = Ok (Some pr, None) s' ∧
    Forall2 (λ p files, ∃ i name,
               heap s' !! p = Some i ∧ Files i = files ∧ Importable i = false ∧
               is_Some (Pkg i) ∧ packageName demo files (Some (effFset c)) = inl name)
            (Created pr) (CreatePkgs c).
Proof.
  intros c.
  assert (Hord : validOrder keyOrder) by (split_and!; intros m; reflexivity).
  assert (∃ pr s', Load demo 3 keyOrder c = Ok (Some pr, None) s') as (pr & s' & E)
    by (vm_compute; eauto).
  split; [exact Hord|]. exists pr, s'. split; [exact E|].
  exact (Load_created demo 3 keyOrder c pr s' Hord E).
Defined.

(** X18: after a successful [Load], every entry of [Program.AllPackages]
    points to a [PackageInfo] of the store that is filed under its own
    package and has no recorded error, and every package of the canonical
    map [Program.ImportMap] has an entry in [AllPackages]. *)
Theorem Load_all_packages (W : Collaborators) fuel ord c pr s' :
  validOrder ord →
  Load W fuel ord c = Ok (Some pr, None) s' →
  (∀ k p, AllPackages pr !! k = Some p →
          ∃ i, heap s' !! p = Some i ∧ Pkg i = k ∧ err i = None) ∧
  (∀ path obj, ImportMap s' !! path = Some obj → is_Some (AllPackages pr !! obj)).
Proof.
  intros Hord H.
  apply Load_success in H
    as (s1 & _ & -> & _ & _ & _ & _ & _ & _ & _ & _ & Hw & Hk & Hn & Hcov); [|done].
  split; [|done]. intros k p Hp.
  pose proof (wf_all _ Hw _ _ Hp) as Hlt. apply lookup_lt_is_Some in Hlt as [i Hi].
  exists i. split_and!; [done | by eapply Hk | by eapply Hn].
Qed.

Lemma Load_all_packages_witness :
  let c := importing false ["lib"] in
  validOrder keyOrder ∧
  ∃ pr s', Load demo 3 keyOrder c = Ok (Some pr, None) s' ∧
    (∀ k p, AllPackages pr !! k = Some p →
            ∃ i, heap s' !! p = Some i ∧ Pkg i = k ∧ err i = None) ∧
    (∀ path obj, ImportMap s' !! path = Some obj → is_Some (AllPackages pr !! obj)).
Proof.
  intros c.
  assert (Hord : validOrder keyOrder) by (split_and!; intros m; reflexivity).
  assert (∃ pr s', Load demo 3 keyOrder c = Ok (Some pr, None) s') as (pr & s' & E)
    by (vm_compute; eauto).
  split; [exact Hord|]. exists pr, s'. split; [exact E|].
  exact (Load_all_packages demo 3 keyOrder c pr s' Hord E).
Defined.

(** X19: in one load every import path is constructed at most once: the
    trace of a [Load] that returns, with a [Program] or with an error, has
    at most one call of [parsePackageFiles] or of the binary importer for
    each path, and the paths with such a call are exactly the keys of the
    importer's cache. *)
Theorem Load_constructs_once (W : Collaborators) fuel ord c r s' :
  Load W fuel ord c = Ok r s' →
  NoDup (constructed (trace s')) ∧
  ∀ q, q ∈ constructed (trace s') ↔ is_Some (imported s' !! q).
Proof.
  intros H. apply Load_orderly in H as [O1 O2 _ _ _ _ _]. split; [done|].
  intros q. rewrite O2. split; [by left|by intros [?|?]].
Qed.

Lemma Load_constructs_once_witness :
  ∃ r s', Load demo 3 keyOrder (importing true ["a"; "b"; "lib"]) = Ok r s' ∧
    NoDup (constructed (trace s')) ∧
    ∀ q, q ∈ constructed (trace s') ↔ is_Some (imported s' !! q).
Proof.
  assert (∃ r s', Load demo 3 keyOrder (importing true ["a"; "b"; "lib"]) = Ok r s')
    as (r & s' & E) by (vm_compute; eauto).
  exists r, s'. split; [exact E|].
  exact (Load_constructs_once demo 3 keyOrder _ r s' E).
Defined.

(** X20: throughout a load, a path is parsed from source only if it is a
    key of [ImportPkgs] or [SourceImports] is set, and the binary importer
    is called only for the other paths; so with [SourceImports] set the
    binary importer is never called.  Test files are parsed only along with
    the package whose flag in [ImportPkgs] is true, and [Load] itself never
    parses external test files.  Every diagnostic of the load went to the
    client's [TypeChecker.Error], or to the standard error stream when that
    is nil, and belongs to a [PackageInfo] of the store. *)
Theorem Load_follows_strategy (W : Collaborators) fuel ord c r s' :
  Load W fuel ord c = Ok r s' →
  (∀ q w, EvParse q w ∈ trace s' →
          (is_Some (importPkgs c !! q) ∨ SourceImports c = true) ∧
          w = (if decide (importPkgs c !! q = Some true) then "gt" else "g")) ∧
  (∀ q, EvBinary q ∈ trace s' → importPkgs c !! q = None ∧ SourceImports c = false) ∧
  (∀ p snk e, EvDiag p snk e ∈ trace s' →
              snk = errorSink (TypeChecker c) ∧ is_Some (heap s' !! p)).
Proof.
  intros H. apply Load_strategy in H as ([_ _ _ O4 O5 O6 _] & Hs & He). split_and!.
  - intros q w Hq. specialize (O4 q w Hq). rewrite Hs in O4.
    unfold loadStrategy in O4.
    destruct (importPkgs c !! q) as [[|]|] eqn:E.
    + injection O4 as <-. split; [left; by eexists|done].
    + injection O4 as <-. split; [left; by eexists|done].
    + destruct (SourceImports c); [|done]. injection O4 as <-. split; [by right|done].
  - intros q Hq. specialize (O5 q Hq). rewrite Hs in O5.
    unfold loadStrategy in O5.
    destruct (importPkgs c !! q) as [a|] eqn:E; [done|].
    by destruct (SourceImports c).
  - intros p snk e Hd. destruct (O6 _ _ _ Hd) as [-> Hp]. split; [done|].
    by apply lookup_lt_is_Some.
Qed.

Lemma Load_follows_strategy_witness :
  ∃ r s', Load demo 3 keyOrder (importing false ["lib"]) = Ok r s' ∧
    (∀ q w, EvParse q w ∈ trace s' →
            (is_Some (importPkgs (importing false ["lib"]) !! q) ∨
             SourceImports (importing false ["lib"]) = true) ∧
            w = (if decide (importPkgs (importing false ["lib"]) !! q = Some true)
                 then "gt" else "g")) ∧
    (∀ q, EvBinary q ∈ trace s' →
          importPkgs (importing false ["lib"]) !! q = None ∧
          SourceImports (importing false ["lib"]) = false) ∧
    (∀ p snk e, EvDiag p snk e ∈ trace s' →
                snk = errorSink (TypeChecker (importing false ["lib"])) ∧
                is_Some (heap s' !! p)).
Proof.
  assert (∃ r s', Load demo 3 keyOrder (importing false ["lib"]) = Ok r s')
    as (r & s' & E) by (vm_compute; eauto).
  exists r, s'. split; [exact E|].
  exact (Load_follows_strategy demo 3 keyOrder _ r s' E).
Defined.

(** ** The import callback *)

(** X21: when the type checker's import callback [doImport] succeeds for a
    path other than "unsafe", the package it returns is the one of the
    [PackageInfo] the cache holds for the path, and it has been stored under
    the path in the canonical map, [Config.TypeChecker.Packages], which is
    [Program.ImportMap]. *)
Theorem doImport_records_import (W : Collaborators) fuel path s pkg s' :
  path ≠ "unsafe" → wf s →
  doImport W fuel PackagesMap path s = Ok (pkg, None) s' →
  ImportMap s' !! path = Some pkg ∧
  ∃ p i, imported s' !! path = Some (mkImportInfo (Some p) None) ∧
         heap s' !! p = Some i ∧ Pkg i = pkg.
Proof. apply doImport_stores. Qed.

Lemma doImport_records_import_witness :
  let s := loadStart (importing true []) in
  "lib" ≠ "unsafe" ∧ wf s ∧
  ∃ pkg s', doImport demo 3 PackagesMap "lib" s = Ok (pkg, None) s' ∧
    ImportMap s' !! "lib" = Some pkg ∧
    ∃ p i, imported s' !! "lib" = Some (mkImportInfo (Some p) None) ∧
           heap s' !! p = Some i ∧ Pkg i = pkg.
Proof.
  intros s.
  assert (H1 : "lib" ≠ "unsafe") by discriminate.
  assert (H2 : wf s) by apply wf_loadStart.
  assert (∃ pkg s', doImport demo 3 PackagesMap "lib" s = Ok (pkg, None) s')
    as (pkg & s' & E) by (vm_compute; eauto).
  split_and!; [exact H1 | exact H2 |]. exists pkg, s'. split; [exact E|].
  exact (doImport_records_import demo 3 "lib" s pkg s' H1 H2 E).
Defined.

(** X22: [doImport] stores into the [imports] map it is given without
    testing it: called with a nil map for a path whose import succeeds, it
    panics with "assignment to entry in nil map". *)
Theorem doImport_nil_map_panics (W : Collaborators) fuel path s p s1 :
  path ≠ "unsafe" → wf s →
  importPackage W fuel path s = Ok (Some p, None) s1 →
  doImport W fuel NilMap path s = Panic "assignment to entry in nil map".
Proof. apply doImport_nil_map. Qed.

Lemma doImport_nil_map_panics_witness :
  let s := loadStart (importing true []) in
  "lib" ≠ "unsafe" ∧ wf s ∧
  ∃ p s1, importPackage demo 3 "lib" s = Ok (Some p, None) s1 ∧
    doImport demo 3 NilMap "lib" s = Panic "assignment to entry in nil map".
Proof.
  intros s.
  assert (H1 : "lib" ≠ "unsafe") by discriminate.
  assert (H2 : wf s) by apply wf_loadStart.
  assert (∃ p s1, importPackage demo 3 "lib" s = Ok (Some p, None) s1)
    as (p & s1 & E) by (vm_compute; eauto).
  split_and!; [exact H1 | exact H2 |]. exists p, s1. split; [exact E|].
  exact (doImport_nil_map_panics demo 3 "lib" s p s1 H1 H2 E).
Defined.

(** X23: after a successful [Load], [InitialPackages] lists one package for
    each element of [CreatePkgs] and one for each key of [ImportPkgs], and
    none of them is nil: each entry points to a [PackageInfo] of the
    store. *)
Theorem InitialPackages_after_Load (W : Collaborators)
    (rangeImported : gmap string (option ptr) → list (string * option ptr))
    fuel ord c pr s' :
  validOrder ord →
  (∀ m, rangeImported m ≡ₚ map_to_list m) →
  Load W fuel ord c = Ok (Some pr, None) s' →
  length (InitialPackages rangeImported pr) =
    length (CreatePkgs c) + size (importPkgs c) ∧
  ∀ x, x ∈ InitialPackages rangeImported pr →
       ∃ p i, x = Some p ∧ heap s' !! p = Some i.
Proof.
  intros Hord Hr H. pose proof (Load_orderly W _ _ _ _ _ H) as O.
  apply Load_success in H as (s1 & E1 & -> & F & _ & Hi & _ & Hcr & Him & _); [|done].
  destruct (loadInitial_program _ _ _ _ _ _ Hord E1)
    as (_ & _ & _ & _ & _ & Hdom & Hall & HF).
  rewrite InitialPackages_eq. split.
  - rewrite length_app, !length_fmap, (Hr _), length_map_to_list, Hcr.
    rewrite (Forall2_length _ _ _ HF). f_equal.
    rewrite <- !size_dom. by rewrite Him, Hdom.
  - intros x Hx. apply elem_of_app in Hx as [Hx|Hx].
    + apply list_elem_of_fmap in Hx as (p & -> & Hp). rewrite Hcr in Hp.
      apply list_elem_of_lookup in Hp as [n Hn].
      destruct (Forall2_lookup_l _ _ _ _ _ HF Hn) as (files & _ & i & name & Hpi & _).
      exists p, i. split; [done|]. by apply (frame_heap_lookup W s1 s' _ _ F).
    + apply list_elem_of_fmap in Hx as ([q y] & -> & Hq). rewrite (Hr _) in Hq.
      apply elem_of_map_to_list in Hq. simpl.
      assert (Hqd : q ∈ dom (importPkgs c)).
      { rewrite <- Hdom, <- Him. apply elem_of_dom. by eexists. }
      destruct (Hall q Hqd) as (p & Hp & Hc). rewrite Him in Hq. rewrite Hp in Hq.
      injection Hq as <-. rewrite <- Hi in Hc.
      destruct (od_importable _ _ O _ _ p Hc eq_refl) as (_ & i & Hpi & _).
      by exists p, i.
Qed.

Lemma InitialPackages_after_Load_witness :
  let c := set_CreatePkgs [[go_ast.mkFile "main.go" "main" ["lib"]]]
             (importing true ["lib"; "sub"]) in
  validOrder keyOrder ∧
  (∀ m : gmap string (option ptr), map_to_list m ≡ₚ map_to_list m) ∧
  ∃ pr s', Load demo 3 keyOrder c = Ok (Some pr, None) s' ∧
    length (InitialPackages map_to_list pr) =
      length (CreatePkgs c) + size (importPkgs c) ∧
    ∀ x, x ∈ InitialPackages map_to_list pr →
         ∃ p i, x = Some p ∧ heap s' !! p = Some i.
Proof.
  intros c.
  assert (Hord : validOrder keyOrder) by (split_and!; intros m; reflexivity).
  assert (Hr : ∀ m : gmap string (option ptr), map_to_list m ≡ₚ map_to_list m)
    by (intros m; reflexivity).
  assert (∃ pr s', Load demo 3 keyOrder c = Ok (Some pr, None) s') as (pr & s' & E)
    by (vm_compute; eauto).
  split_and!; [exact Hord | exact Hr |]. exists pr, s'. split; [exact E|].
  exact (InitialPackages_after_Load demo map_to_list 3 keyOrder c pr s' Hord Hr E).
Defined.

(** X25: a [PackageInfo] is not touched again once the call that made it
    has returned, and a cache entry is never replaced after its import has
    returned: [importPackage] and [createPackage] leave every object of the
    store and every entry of the cache they found as they were, and only
    add objects at the end of the store. *)
Theorem importer_preserves (W : Collaborators) fuel path s :
  (∀ r s', importPackage W fuel path s = Ok r s' →
           heap s `prefix_of` heap s' ∧ imported s ⊆ imported s') ∧
  (∀ files p s', createPackage W fuel path files s = Ok p s' →
                 heap s `prefix_of` heap s' ∧ imported s ⊆ imported s' ∧
                 p = length (heap s))  ∧
  (∀ imports r s', doImport W fuel imports path s = Ok r s' →
                   heap s `prefix_of` heap s' ∧ imported s ⊆ imported s').
Proof.
  split_and!.
  - intros r s' H. apply importPackage_spec in H as [[[I H _ _ _] _] _]. done.
  - intros files p s' H. apply createPackage_spec in H as (-> & [[I H _ _ _] _] & _). done.
  - intros imports r s' H. apply doImport_ext in H as [[I H _ _ _] _]. done.
Qed.


(** ** The checker options *)

(** X24: the supplied [TypeChecker.IgnoreFuncBodies] is not used.  [Load]
    on a configuration with the flag set to any value returns what it
    returns otherwise, with the same program, store and trace, and leaves
    the same configuration but for the flag; so does every
    [createPackage].  The flag the checker gets is computed from
    [TypeCheckFuncBodies] alone. *)
Theorem Load_ignores_supplied_flag (W : Collaborators) (b : bool) fuel ord c :
  Load W fuel ord (set_IgnoreFuncBodies b c) = mapState (ignoring b) (Load W fuel ord c) ∧
  (∀ path files s,
     createPackage W fuel path files (ignoring b s) =
     mapState (ignoring b) (createPackage W fuel path files s)) ∧
  (∀ path files s, checkerOf W (ignoring b s) path files = checkerOf W s path files).
Proof.
  split_and!.
  - apply Load_blind.
  - intros path files s. apply blind_createPackage.
  - done.
Qed.


(** ** One import *)

(** X26: an import that fails leaves nothing behind but its cache entry.
    When [importPackage] returns an error for a path that was not in the
    cache, the error is the one of [parsePackageFiles] or of the binary
    importer, the [PackageInfo] returned is nil, no object was allocated,
    the program is as it was, nothing but the parser or the importer was
    called, and the cache holds the error for the path. *)
Theorem failed_import_leaves_nothing (W : Collaborators) n path s i e s' :
  imported s !! path = None →
  importPackage W (S n) path s = Ok (i, Some e) s' →
  i = None ∧ heap s' = heap s ∧ prog s' = prog s ∧
  imported s' = <[path := mkImportInfo None (Some e)]> (imported s) ∧
  trace s' = trace s ++ [constructEvent (conf s) path;
                         EvCall path (mkImportInfo None (Some e))] ∧
  match loadStrategy (conf s) path with
  | Some which =>
      parsePackageFiles W (build (conf s)) (effFset (conf s)) path which = inr e
  | None =>
      let importfn := match go_types.Import (TypeChecker (conf s)) with
                      | Some f => f
                      | None => gcimporter_Import W
                      end in
      (importfn (ImportMap s) path).2.2 = Some e
  end.
Proof.
  intros Hc H. simpl in H. unfold importPackage_ in H.
  inv_bind H as s0 sx E0. rewrite Hc in H.
  inv_bind H as u s0 E0. set (s0 := set_imported _ s) in *.
  inv_bind H as c sc Ec. inv_bind H as r0 s1 E1.
  inv_bind H as u2 s2 E2. inv_bind H as u3 s3 E3. inv_bind H as u4 s4 E4.
  unfold ret in H. injection H as Hr Hs'. subst s' r0. simpl in *.
  assert (Hfin : ∀ s1 : state,
    markImportable None
      (set_imported (<[path := mkImportInfo None (Some e)]> (imported s1)) s1) = Ok u3 s3 →
    heap s1 = heap s → prog s1 = prog s → imported s1 = imported s0 →
    ∀ ev, trace s1 = trace s ++ [ev] →
    heap s3 = heap s ∧ prog s3 = prog s ∧
    imported s3 = <[path := mkImportInfo None (Some e)]> (imported s) ∧
    trace s3 ++ [EvCall path (mkImportInfo None (Some e))] =
      trace s ++ [ev; EvCall path (mkImportInfo None (Some e))]).
  { intros sa Ha Hh Hp Hi ev Ht. injection Ha as _ <-. simpl.
    rewrite Hh, Hp, Hi, Ht. simpl. rewrite insert_insert_eq, <- app_assoc. done. }
  unfold constructEvent.
  destruct (loadStrategy (conf s) path) as [which|].
  - unfold importFromSource_ in E1.
    inv_bind E1 as c1 sc1 Ec1. inv_bind E1 as fs s5 E5.
    apply liftConf_fset_Ok with (W := W) in E5 as (-> & F5 & T5 & I5 & H5 & P5).
    inv_bind E1 as u6 s6 E6.
    destruct (parsePackageFiles W _ _ path which) as [files|e'] eqn:Ep.
    + inv_bind E1 as p s7 E7. by unfold ret in E1.
    + unfold ret in E1. injection E1 as <- <- <-.
      destruct (Hfin _ E3 H5 P5 I5 (EvParse path which)) as (? & ? & ? & ?);
        [simpl; by rewrite T5|done].
  - unfold importFromBinary in E1.
    inv_bind E1 as c1 sc1 Ec1. inv_bind E1 as u5 s5 E5. inv_bind E1 as r1 s6 E6.
    unfold callImporter in E6. unfold ImportMap. simpl in E6.
    destruct (Packages (conf s)) as [m|] eqn:Em; simpl.
    + destruct (_ m path) as [m' [pkg err]] eqn:Ef. injection E6 as <- <-.
      destruct err as [e'|].
      * unfold ret in E1. injection E1 as <- <- <-.
        destruct (Hfin _ E3 eq_refl eq_refl eq_refl (EvBinary path) eq_refl)
          as (? & ? & ? & ?).
        done.
      * inv_bind E1 as p s7 E7. inv_bind E1 as u8 s8 E8. by unfold ret in E1.
    + destruct (_ ∅ path) as [m' [pkg err]] eqn:Ef.
      destruct (decide (m' = ∅)) as [->|]; [|done]. injection E6 as <- <-.
      destruct err as [e'|].
      * unfold ret in E1. injection E1 as <- <- <-.
        destruct (Hfin _ E3 eq_refl eq_refl eq_refl (EvBinary path) eq_refl)
          as (? & ? & ? & ?).
        done.
      * inv_bind E1 as p s7 E7. inv_bind E1 as u8 s8 E8. by unfold ret in E1.
Qed.

Lemma failed_import_leaves_nothing_witness :
  let s := loadStart (importing true []) in
  imported s !! "missing" = None ∧
  ∃ i e s', importPackage demo 1 "missing" s = Ok (i, Some e) s' ∧
    i = None ∧ heap s' = heap s ∧ prog s' = prog s ∧
    imported s' = <[("missing" : string) := mkImportInfo None (Some e)]> (imported s) ∧
    trace s' = trace s ++ [constructEvent (conf s) "missing";
                           EvCall "missing" (mkImportInfo None (Some e))] ∧
    match loadStrategy (conf s) "missing" with
    | Some which =>
        parsePackageFiles demo (build (conf s)) (effFset (conf s)) "missing" which = inr e
    | None =>
        let importfn := match go_types.Import (TypeChecker (conf s)) with
                        | Some f => f
                        | None => gcimporter_Import demo
                        end in
        (importfn (ImportMap s) "missing").2.2 = Some e
    end.
Proof.
  intros s.
  assert (H1 : imported s !! "missing" = None) by reflexivity.
  assert (∃ i e s', importPackage demo 1 "missing" s = Ok (i, Some e) s')
    as (i & e & s' & E) by (vm_compute; eauto).
  split; [exact H1|]. exists i, e, s'. split; [exact E|].
  exact (failed_import_leaves_nothing demo 0 "missing" s i e s' H1 E).
Defined.

(** X27: a package imported through the binary importer.  For a path that
    is not in the cache and that the configuration does not load from
    source, a successful [importPackage] has called the client's
    [TypeChecker.Import] if there is one and [gcimporter.Import] otherwise,
    with the canonical map, and nothing else; the [PackageInfo] it returns
    is a new object that holds the package the importer returned, has no
    files and is importable, and it is filed in [AllPackages] under that
    package and in the cache under the path. *)
Theorem binary_import (W : Collaborators) n path s p s' :
  imported s !! path = None →
  loadStrategy (conf s) path = None →
  importPackage W (S n) path s = Ok (Some p, None) s' →
  let importfn := match go_types.Import (TypeChecker (conf s)) with
                  | Some f => f
                  | None => gcimporter_Import W
                  end in
  ∃ pkg,
    (importfn (ImportMap s) path).2 = (pkg, None) ∧
    p = length (heap s) ∧
    heap s' = heap s ++ [mkPackageInfo pkg true [] None] ∧
    AllPackages (prog s') = <[pkg := p]> (AllPackages (prog s)) ∧
    imported s' = <[path := mkImportInfo (Some p) None]> (imported s) ∧
    trace s' = trace s ++ [EvBinary path; EvCall path (mkImportInfo (Some p) None)].
Proof.
  intros Hc Hs H. simpl in H. unfold importPackage_ in H.
  inv_bind H as s0 sx E0. rewrite Hc in H.
  inv_bind H as u s0 E0. set (s0 := set_imported _ s) in *.
  inv_bind H as c sc Ec. inv_bind H as r0 s1 E1.
  inv_bind H as u2 s2 E2. inv_bind H as u3 s3 E3. inv_bind H as u4 s4 E4.
  unfold ret in H. injection H as Hr Hs'. subst s' r0. simpl in *.
  change (conf s0) with (conf s) in E1. rewrite Hs in E1.
  assert (Hfin : ∀ pkg (s1 : state),
    markImportable (Some p)
      (set_imported (<[path := mkImportInfo (Some p) None]> (imported s1)) s1) = Ok u3 s3 →
    p = length (heap s) →
    heap s1 = heap s ++ [mkPackageInfo pkg false [] None] →
    AllPackages (prog s1) = <[pkg := p]> (AllPackages (prog s)) →
    imported s1 = imported s0 → trace s1 = trace s ++ [EvBinary path] →
    p = length (heap s) ∧
    heap s3 = heap s ++ [mkPackageInfo pkg true [] None] ∧
    AllPackages (prog s3) = <[pkg := p]> (AllPackages (prog s)) ∧
    imported s3 = <[path := mkImportInfo (Some p) None]> (imported s) ∧
    trace s3 ++ [EvCall path (mkImportInfo (Some p) None)] =
      trace s ++ [EvBinary path; EvCall path (mkImportInfo (Some p) None)]).
  { intros pkg sa Ha Hp Hh Hpr Hi Ht. injection Ha as _ <-. simpl.
    rewrite Hh, Hpr, Hi, Ht. simpl. rewrite insert_insert_eq, <- app_assoc.
    split_and!; try done. rewrite Hp.
    by rewrite alter_app_r_alt, Nat.sub_diag by done. }
  unfold importFromBinary in E1.
  inv_bind E1 as c1 sc1 Ec1. inv_bind E1 as u5 s5 E5. inv_bind E1 as r1 s6 E6.
  unfold callImporter in E6. unfold ImportMap. simpl in E6.
  destruct (Packages (conf s)) as [m|] eqn:Em; simpl.
  - destruct (_ m path) as [m' [pkg err]] eqn:Ef. injection E6 as <- <-.
    destruct err as [e'|]; [by unfold ret in E1|].
    inv_bind E1 as p' s7 E7. inv_bind E1 as u8 s8 E8.
    unfold ret in E1. injection E1 as <- <-. exists pkg. split; [done|].
    by apply (Hfin pkg _ E3).
  - destruct (_ ∅ path) as [m' [pkg err]] eqn:Ef.
    destruct (decide (m' = ∅)) as [->|]; [|done]. injection E6 as <- <-.
    destruct err as [e'|]; [by unfold ret in E1|].
    inv_bind E1 as p' s7 E7. inv_bind E1 as u8 s8 E8.
    unfold ret in E1. injection E1 as <- <-. exists pkg. split; [done|].
    by apply (Hfin pkg _ E3).
Qed.

Lemma binary_import_witness :
  let s := loadStart (importing false []) in
  imported s !! "sub" = None ∧ loadStrategy (conf s) "sub" = None ∧
  ∃ p s', importPackage demo 1 "sub" s = Ok (Some p, None) s' ∧
    ∃ pkg,
      (match go_types.Import (TypeChecker (conf s)) with
       | Some f => f
       | None => gcimporter_Import demo
       end (ImportMap s) "sub").2 = (pkg, None) ∧
      p = length (heap s) ∧
      heap s' = heap s ++ [mkPackageInfo pkg true [] None] ∧
      AllPackages (prog s') = <[pkg := p]> (AllPackages (prog s)) ∧
      imported s' = <[("sub" : string) := mkImportInfo (Some p) None]> (imported s) ∧
      trace s' = trace s ++ [EvBinary "sub"; EvCall "sub" (mkImportInfo (Some p) None)].
Proof.
  intros s.
  assert (H1 : imported s !! "sub" = None) by reflexivity.
  assert (H2 : loadStrategy (conf s) "sub" = None) by reflexivity.
  assert (∃ p s', importPackage demo 1 "sub" s = Ok (Some p, None) s')
    as (p & s' & E) by (vm_compute; eauto).
  split_and!; [exact H1 | exact H2 |]. exists p, s'. split; [exact E|].
  exact (binary_import demo 0 "sub" s p s' H1 H2 E).
Defined.
